(** * Apple iBridge HID multiplexer: descriptor splitting and proxying

    Shallow embedding of the two generations of the driver,
    [drivers/hid/hid-appleib.c] (module [HidAppleib]) and
    [drivers/hid/apple-ibridge.c] (module [AppleIbridge]), together with
    the report-descriptor scanner and the descriptor fixup they share
    verbatim (module [Scanner], module [Fixup]); the probe and remove
    functions of both generations (modules [HidAppleibDriver] and
    [AppleIbridgeDriver]); the points the attach loop of either
    generation passes through (module [AttachPoints]); and the Touch Bar
    keyboard mode driver
    [drivers/hid/hid-appletb-kbd.c] (module [AppletbKbd]).

    Conventions.  A report descriptor is a [list Z] of byte values and a
    pointer into it is a [nat] offset from its first byte; the one-past-
    the-end pointer [end] of the C code is the offset [e].  C integers are
    [Z].  The scanner's [int depth] moves by one per fetched item, so on a
    descriptor of fewer than 2^31 bytes it never wraps and is modelled
    without wrap-around. *)

From Stdlib Require Import ZArith Lia Bool.
From stdpp Require Import base numbers option list.

Local Open Scope nat_scope.

(** ** The host framework's descriptor primitives *)

Module HidCore.

(** Modelled from the spec: the item type and tag constants of the host
    framework's descriptor byte format (section 6, "descriptor
    byte-format primitives"); the header [linux/hid.h] that declares them
    is not part of the driver.  Values are those of HID 1.11, 6.2.2. *)
Definition HID_ITEM_TYPE_MAIN : Z := 0.
Definition HID_ITEM_TYPE_GLOBAL : Z := 1.
Definition HID_ITEM_TYPE_LOCAL : Z := 2.
Definition HID_ITEM_TAG_LONG : Z := 15.
Definition HID_MAIN_ITEM_TAG_BEGIN_COLLECTION : Z := 10.
Definition HID_MAIN_ITEM_TAG_END_COLLECTION : Z := 12.
Definition HID_GLOBAL_ITEM_TAG_USAGE_PAGE : Z := 0.
Definition HID_LOCAL_ITEM_TAG_USAGE : Z := 0.

Inductive hid_item_format := HID_ITEM_FORMAT_SHORT | HID_ITEM_FORMAT_LONG.

(** [struct hid_item].  [item_data] is the [data] union as the integer
    member of width [item_size] reads it. *)
Record hid_item := mk_hid_item {
  item_format : hid_item_format;
  item_size : Z;
  item_type : Z;
  item_tag : Z;
  item_data : Z
}.

(** A long item stores a pointer, not a number, in the [data] union.
    What the integer members read from it afterwards depends on the
    address of the descriptor buffer; the embedding takes that reading
    as given: [longdata_udata size off] for a long item of size [size]
    whose payload starts at offset [off]. *)
Class hid_host := { longdata_udata : Z → nat → Z }.

(** [*p] for [p] inside the descriptor. *)
Definition byte_at (rdesc : list Z) (p : nat) : Z := nth p rdesc 0%Z.

Definition get_unaligned_le16 (rdesc : list Z) (p : nat) : Z :=
  Z.lor (byte_at rdesc p) (Z.shiftl (byte_at rdesc (p + 1)) 8).

Definition get_unaligned_le32 (rdesc : list Z) (p : nat) : Z :=
  Z.lor (Z.lor (byte_at rdesc p) (Z.shiftl (byte_at rdesc (p + 1)) 8))
        (Z.lor (Z.shiftl (byte_at rdesc (p + 2)) 16)
               (Z.shiftl (byte_at rdesc (p + 3)) 24)).

(** Modelled from the spec: the host framework's item-fetch primitive
    (section 6: "advances a cursor through the binary stream yielding
    one structured item: type/tag/data and updated cursor"),
    [hid_fetch_item] of the HID core, which the driver calls but does not
    define.  [None] is the C function's NULL. *)
Definition hid_fetch_item `{hid_host} (rdesc : list Z) (start e : nat)
  : option (nat * hid_item) :=
  if e <=? start then None else
  let b := byte_at rdesc start in
  let start := S start in
  let type := Z.land (Z.shiftr b 2) 3 in
  let tag := Z.land (Z.shiftr b 4) 15 in
  if (tag =? HID_ITEM_TAG_LONG)%Z then
    if e - start <? 2 then None else
    let size := byte_at rdesc start in
    let tag := byte_at rdesc (S start) in
    let start := S (S start) in
    if (Z.of_nat (e - start) <? size)%Z then None else
    Some (start + Z.to_nat size,
          mk_hid_item HID_ITEM_FORMAT_LONG size type tag
                      (longdata_udata size start))
  else
    match Z.land b 3 with
    | 0%Z => Some (start, mk_hid_item HID_ITEM_FORMAT_SHORT 0 type tag 0)
    | 1%Z =>
        if e - start <? 1 then None else
        Some (start + 1,
              mk_hid_item HID_ITEM_FORMAT_SHORT 1 type tag
                          (byte_at rdesc start))
    | 2%Z =>
        if e - start <? 2 then None else
        Some (start + 2,
              mk_hid_item HID_ITEM_FORMAT_SHORT 2 type tag
                          (get_unaligned_le16 rdesc start))
    | 3%Z =>
        if e - start <? 4 then None else
        Some (start + 4,
              mk_hid_item HID_ITEM_FORMAT_SHORT 4 type tag
                          (get_unaligned_le32 rdesc start))
    | _ => None
    end.

(** Modelled from the spec: the numeric-value extraction of section 6,
    [hid_item_udata] of the HID core. *)
Definition hid_item_udata (item : hid_item) : Z :=
  match item_size item with
  | 1%Z | 2%Z | 4%Z => item_data item
  | _ => 0%Z
  end.

(** A host whose descriptor buffer sits at address [base] of a
    little-endian machine. *)
Definition little_endian_host (base : Z) : hid_host :=
  {| longdata_udata := λ size off,
       ((base + Z.of_nat off) mod 2 ^ (8 * size))%Z |}.

End HidCore.

(** ** The descriptor scanner, [appleib_find_collection]

    The function is the same text in both generations. *)

Module Scanner.
Import HidCore.

Section scanner.
Context `{hid_host}.
Variable rdesc : list Z.
Variable e : nat.

(** The body of the [while] loop, after [depth = 0; *usage = 0].  One
    unit of [fuel] pays for one fetched item. *)
Fixpoint find_collection_loop (fuel : nat) (start : nat) (depth usage : Z)
  : option (nat * Z) :=
  match fuel with
  | O => None
  | S fuel =>
      match hid_fetch_item rdesc start e with
      | None => Some (e, usage)
      | Some (start, item) =>
          if (item_type item =? HID_ITEM_TYPE_MAIN)%Z then
            if (item_tag item =? HID_MAIN_ITEM_TAG_BEGIN_COLLECTION)%Z then
              find_collection_loop fuel start (depth + 1)%Z usage
            else if (item_tag item =? HID_MAIN_ITEM_TAG_END_COLLECTION)%Z
            then
              let depth := (depth - 1)%Z in
              if (depth <=? 0)%Z then Some (start, usage)
              else find_collection_loop fuel start depth usage
            else find_collection_loop fuel start depth usage
          else if (item_type item =? HID_ITEM_TYPE_GLOBAL)%Z
                  && (item_tag item =? HID_GLOBAL_ITEM_TAG_USAGE_PAGE)%Z
                  && (depth =? 0)%Z then
            find_collection_loop fuel start depth
              (Z.lor (Z.land usage 0x0000ffff)
                     (Z.shiftl (Z.land (hid_item_udata item) 0xffff) 16))
          else if (item_type item =? HID_ITEM_TYPE_LOCAL)%Z
                  && (item_tag item =? HID_LOCAL_ITEM_TAG_USAGE)%Z
                  && (depth =? 0)%Z then
            find_collection_loop fuel start depth
              (Z.lor (Z.land usage 0xffff0000)
                     (Z.land (hid_item_udata item) 0xffff))
          else find_collection_loop fuel start depth usage
      end
  end.

(** [appleib_find_collection(start, end, &usage)]: the returned
    pointer paired with the final [*usage].  Every fetched item is at
    least one byte long, so [e - start] items at most are fetched and
    the fuel given here never runs out (lemma
    [find_collection_loop_total]). *)
Definition appleib_find_collection (start : nat) : nat * Z :=
  default (e, 0%Z) (find_collection_loop (S (e - start)) start 0 0).

(** [scans start depth usage r]: entered at [start] with [depth] and
    [usage], the loop returns [r]. *)
Definition scans (start : nat) (depth usage : Z) (r : nat * Z) : Prop :=
  ∃ fuel, find_collection_loop fuel start depth usage = Some r.

End scanner.

(** The bytes [start .. pos) of a descriptor: the pair
    [(start, pos - start)] both generations hand to
    [appleib_add_sub_dev]. *)
Definition slice (rdesc : list Z) (start pos : nat) : list Z :=
  take (pos - start) (drop start rdesc).

(** The scanner calls made by the loop that splits a descriptor (it is
    the same loop in both generations): a call from [start], then, unless
    the call reached the end, the calls from where it stopped.  One
    triple [(start, pos, usage)] per call. *)
Fixpoint scan_loop `{hid_host} (rdesc : list Z) (fuel : nat) (start : nat)
  : list (nat * nat * Z) :=
  match fuel with
  | O => []
  | S fuel =>
      let '(pos, usage) :=
        appleib_find_collection rdesc (length rdesc) start in
      (start, pos, usage)
        :: (if length rdesc <=? pos then [] else scan_loop rdesc fuel pos)
  end.

Definition scan_segments `{hid_host} (rdesc : list Z)
  : list (nat * nat * Z) :=
  scan_loop rdesc (S (length rdesc)) 0.

End Scanner.

(** ** The descriptor fixup, [appleib_report_fixup]

    The function is the same text in both generations.  [*rsize] is the
    length of the buffer; the function returns the buffer it was given,
    patched in place, and leaves [*rsize] alone. *)

Module Fixup.
Import HidCore.

Definition first_field_matches (rdesc : list Z) : bool :=
  (length rdesc =? 634)
  && (byte_at rdesc 212 =? 0x06)%Z && (byte_at rdesc 213 =? 0x12)%Z
  && (byte_at rdesc 214 =? 0xff)%Z
  && (byte_at rdesc 416 =? 0x09)%Z && (byte_at rdesc 417 =? 0x51)%Z
  && (byte_at rdesc 432 =? 0x75)%Z && (byte_at rdesc 433 =? 64)%Z
  && (byte_at rdesc 434 =? 0x95)%Z && (byte_at rdesc 435 =? 1)%Z.

Definition second_field_matches (rdesc : list Z) : bool :=
  (length rdesc =? 634)
  && (byte_at rdesc 212 =? 0x06)%Z && (byte_at rdesc 213 =? 0x12)%Z
  && (byte_at rdesc 214 =? 0xff)%Z
  && (byte_at rdesc 611 =? 0x09)%Z && (byte_at rdesc 612 =? 0x51)%Z
  && (byte_at rdesc 627 =? 0x75)%Z && (byte_at rdesc 628 =? 64)%Z
  && (byte_at rdesc 629 =? 0x95)%Z && (byte_at rdesc 630 =? 1)%Z.

Definition appleib_report_fixup (rdesc : list Z) : list Z :=
  let rdesc :=
    if first_field_matches rdesc
    then <[435 := 2%Z]> (<[433 := 32%Z]> rdesc)
    else rdesc in
  let rdesc :=
    if second_field_matches rdesc
    then <[630 := 2%Z]> (<[628 := 32%Z]> rdesc)
    else rdesc in
  rdesc.

End Fixup.

(** ** The host framework's device registry *)

Module Host.

Definition ENOMEM : Z := 12.
Definition ENODEV : Z := 19.

(** A [struct hid_device *] as the driver stores it: NULL (the table is
    allocated zeroed), a live device named by its handle, or an errno
    wrapped by [ERR_PTR]. *)
Inductive hid_device_ptr := NULL | Dev (h : nat) | ERR_PTR (err : Z).

#[export] Instance hid_device_ptr_inhabited : Inhabited hid_device_ptr :=
  populate NULL.
#[export] Instance hid_device_ptr_eq_dec : EqDecision hid_device_ptr.
Proof. solve_decision. Defined.

(** [-MAX_ERRNO <= err < 0]: the values [ERR_PTR] turns into error
    pointers. *)
Definition is_errno (err : Z) : Prop := (-4095 ≤ err < 0)%Z.

Definition IS_ERR (p : hid_device_ptr) : bool :=
  match p with
  | ERR_PTR err => bool_decide (is_errno err)
  | _ => false
  end.

(** [PTR_ERR], which the driver applies to error pointers only. *)
Definition PTR_ERR (p : hid_device_ptr) : Z :=
  match p with ERR_PTR err => err | _ => 0%Z end.

(** The fields of a [struct hid_device] the driver fills in.
    [dev_name_args] are the numbers formatted into [name] after the
    parent's name. *)
Record hid_device := mk_hid_device {
  dev_bus : Z;
  dev_group : Z;
  dev_vendor : Z;
  dev_product : Z;
  dev_name_args : list Z;
  dev_rdesc : list Z
}.

(** Modelled from the spec: the registry behind the host framework's
    "endpoint registration/deregistration primitives (allocate,
    parse-descriptor, register, destroy)" of section 6.  [bus_next] is
    the next fresh handle, [bus_registered] the devices added and not
    yet destroyed, [bus_destroyed] the handles passed to
    [hid_destroy_device], oldest first. *)
Record hid_bus := mk_hid_bus {
  bus_next : nat;
  bus_registered : list (nat * hid_device);
  bus_destroyed : list nat
}.

Definition hid_allocate_device (bus : hid_bus) : nat * hid_bus :=
  (bus_next bus,
   mk_hid_bus (S (bus_next bus)) (bus_registered bus) (bus_destroyed bus)).

Definition hid_add_device (h : nat) (d : hid_device) (bus : hid_bus)
  : hid_bus :=
  mk_hid_bus (bus_next bus) (bus_registered bus ++ [(h, d)])
             (bus_destroyed bus).

(** [hid_destroy_device] on a live device unregisters it (when it was
    registered) and drops it.  The driver also reaches this call with
    other pointers; the registry has nothing to remove for them. *)
Definition hid_destroy_device (p : hid_device_ptr) (bus : hid_bus)
  : hid_bus :=
  match p with
  | Dev h =>
      mk_hid_bus (bus_next bus)
                 (filter (λ r, r.1 ≠ h) (bus_registered bus))
                 (bus_destroyed bus ++ [h])
  | _ => bus
  end.

(** What the host framework does with one virtual device handed to it
    by [appleib_add_sub_dev]: refuse the allocation, reject the
    descriptor slice, refuse the registration, or register the device,
    in which case the consumer driver bound during registration may
    open the device from its probe function.  [err] is the negative
    errno the refusing call returns (see [is_errno]): that is what makes
    [if (ret)] true and [ERR_PTR(ret)] an error pointer. *)
Inductive host_outcome :=
| alloc_fails (err : Z)
| parse_fails (err : Z)
| add_fails (err : Z)
| add_succeeds (probe_opens : bool).

(** The errno of a refusal. *)
Definition outcome_error (o : host_outcome) : option Z :=
  match o with
  | alloc_fails err | parse_fails err | add_fails err => Some err
  | add_succeeds _ => None
  end.

(** Whether the host got as far as allocating the device. *)
Definition outcome_allocates (o : host_outcome) : bool :=
  match o with alloc_fails _ => false | _ => true end.

(** Every registered device has a handle the registry has given out. *)
Definition bus_fresh (bus : hid_bus) : Prop :=
  ∀ r, r ∈ bus_registered bus → r.1 < bus_next bus.

Definition outcome_ok (o : host_outcome) : bool :=
  match o with add_succeeds _ => true | _ => false end.

(** Diagnostics written with [hid_warn]. *)
Inductive warning :=
| Unknown_collection (usage : Z)
| Too_many_collections (usage : Z).

(** A [struct hid_driver] as far as power management goes, for consumer
    drivers whose callbacks act on a state [world]; [None] is a NULL
    callback.  A callback is given the device it is called for. *)
Record hid_driver (world : Type) := mk_hid_driver {
  suspend : option (nat → Z → world → Z * world);
  resume : option (nat → world → Z * world);
  reset_resume : option (nat → world → Z * world)
}.
Arguments mk_hid_driver {world}.
Arguments suspend {world}.
Arguments resume {world}.
Arguments reset_resume {world}.

(** One call of [hid_input_report(hid, type, data, size, 0)].  The
    driver hands every call the buffer the real device delivered;
    [rep_data] is what that buffer holds at the call. *)
Record input_report := mk_input_report {
  rep_hid : hid_device_ptr;
  rep_type : Z;
  rep_data : list Z;
  rep_size : Z
}.

(** How many of the calls were made on the device pointer [p]. *)
Definition copies_to (p : hid_device_ptr) (calls : list input_report) : nat :=
  length (filter (λ c, rep_hid c = p) calls).

End Host.

(** ** [drivers/hid/hid-appleib.c] *)

Module HidAppleib.
Import HidCore Scanner Host.

Definition appleib_usages : list Z :=
  [ (* Ambient Light Sensor *) 0x00200041%Z;
    (* Touch Bar Backlight *) 0xff120001%Z ].

(** [ARRAY_SIZE(appleib_usages)], the size of [sub_hdevs] and the number
    of bits of [sub_open]. *)
Definition NUM_SUB_HDEVS : nat := length appleib_usages.

(** [struct appleib_hid_dev_info]; [sub_open] is the bitmap word. *)
Record appleib_hid_dev_info := mk_info {
  hdev : hid_device;
  sub_hdevs : list hid_device_ptr;
  sub_open : Z
}.

(** The structure as [devm_kzalloc] and [hdev_info->hdev = hdev] leave
    it in [appleib_hid_probe]. *)
Definition new_info (hdev : hid_device) : appleib_hid_dev_info :=
  mk_info hdev (replicate NUM_SUB_HDEVS NULL) 0.

Definition appleib_hid_raw_event (info : appleib_hid_dev_info)
    (report_type : Z) (data : list Z) (size : Z)
  : list input_report * Z :=
  (flat_map
     (λ i, if Z.testbit (sub_open info) (Z.of_nat i)
           then [mk_input_report (sub_hdevs info !!! i)
                                 report_type data size]
           else [])
     (seq 0 NUM_SUB_HDEVS),
   0%Z).

(** *** Power-management forwarding *)

Section pm.
(** The state the consumer drivers' callbacks act on. *)
Variable world : Type.

(** [hdev->driver] of the device with the given handle. *)
Variable driver_of : nat → option (hid_driver world).

(** Modelled from the spec: the host framework's lifecycle helpers
    [hid_driver_suspend], [hid_driver_resume] and
    [hid_driver_reset_resume], which call the callback of the driver
    attached to the device when there is one and return 0 otherwise.
    They read [hdev->driver], so a pointer that is not a device gives
    no result ([None]). *)
Definition hid_driver_suspend (message : Z) (p : hid_device_ptr)
    (w : world) : option (Z * world) :=
  match p with
  | Dev h =>
      match driver_of h with
      | Some drv =>
          match suspend drv with
          | Some f => Some (f h message w)
          | None => Some (0%Z, w)
          end
      | None => Some (0%Z, w)
      end
  | _ => None
  end.

Definition hid_driver_resume (p : hid_device_ptr) (w : world)
  : option (Z * world) :=
  match p with
  | Dev h =>
      match driver_of h with
      | Some drv =>
          match resume drv with
          | Some f => Some (f h w)
          | None => Some (0%Z, w)
          end
      | None => Some (0%Z, w)
      end
  | _ => None
  end.

Definition hid_driver_reset_resume (p : hid_device_ptr) (w : world)
  : option (Z * world) :=
  match p with
  | Dev h =>
      match driver_of h with
      | Some drv =>
          match reset_resume drv with
          | Some f => Some (f h w)
          | None => Some (0%Z, w)
          end
      | None => Some (0%Z, w)
      end
  | _ => None
  end.

(** The [for] loop of the macro [appleib_forward_func] over the slot
    indices not yet visited; [ret] is 0 when the loop runs to its end. *)
Fixpoint forward_func_loop (info : appleib_hid_dev_info)
    (function : hid_device_ptr → world → option (Z * world))
    (idxs : list nat) (w : world) : option (Z * world) :=
  match idxs with
  | [] => Some (0%Z, w)
  | i :: idxs =>
      match function (sub_hdevs info !!! i) w with
      | None => None
      | Some (ret, w) =>
          if negb (ret =? 0)%Z then Some (ret, w) (* break *)
          else forward_func_loop info function idxs w
      end
  end.

Definition appleib_forward_func (info : appleib_hid_dev_info)
    (function : hid_device_ptr → world → option (Z * world))
    (w : world) : option (Z * world) :=
  forward_func_loop info function (seq 0 NUM_SUB_HDEVS) w.

Definition appleib_hid_suspend info (message : Z) :=
  appleib_forward_func info (hid_driver_suspend message).
Definition appleib_hid_resume info :=
  appleib_forward_func info hid_driver_resume.
Definition appleib_hid_reset_resume info :=
  appleib_forward_func info hid_driver_reset_resume.
End pm.

(** *** Open and close *)

(** The [for] loop of [appleib_set_open] over the slot indices not yet
    visited. *)
Fixpoint set_open_loop (idxs : list nat) (info : appleib_hid_dev_info)
    (vdev : nat) (open : bool) : appleib_hid_dev_info * Z :=
  match idxs with
  | [] => (info, (- ENODEV)%Z)
  | i :: idxs =>
      if bool_decide (sub_hdevs info !!! i = Dev vdev)
         || bool_decide (sub_hdevs info !!! i = NULL)
      then
        (mk_info (hdev info) (sub_hdevs info)
                 (if open
                  then Z.setbit (sub_open info) (Z.of_nat i)
                  else Z.clearbit (sub_open info) (Z.of_nat i)),
         0%Z)
      else set_open_loop idxs info vdev open
  end.

(** [appleib_set_open(hdev, open)] for the virtual device [vdev], whose
    [driver_data] is [info]. *)
Definition appleib_set_open (info : appleib_hid_dev_info) (vdev : nat)
    (open : bool) : appleib_hid_dev_info * Z :=
  set_open_loop (seq 0 NUM_SUB_HDEVS) info vdev open.

Definition appleib_ll_open info vdev := appleib_set_open info vdev true.
Definition appleib_ll_close info vdev :=
  (appleib_set_open info vdev false).1.

(** *** Splitting the descriptor into virtual devices *)

Fixpoint appleib_usage_in_list_from (usages : list Z) (usage : Z) : bool :=
  match usages with
  | [] => false
  | u :: usages =>
      if (u =? usage)%Z then true
      else appleib_usage_in_list_from usages usage
  end.

Definition appleib_usage_in_list (usage : Z) : bool :=
  appleib_usage_in_list_from appleib_usages usage.

(** What the probe path threads through the split: the driver's own
    structure, the host's registry and the diagnostics printed so far. *)
Record probe_state := mk_probe_state {
  st_info : appleib_hid_dev_info;
  st_bus : hid_bus;
  st_log : list warning
}.

(** [appleib_add_sub_dev(hdev_info, usage, rdesc, rsize)], with [out]
    the host's answer to this device.  A consumer driver that opens the
    device from its probe function does so inside [hid_add_device],
    through [appleib_ll_open]. *)
Definition appleib_add_sub_dev (out : host_outcome)
    (info : appleib_hid_dev_info) (usage : Z) (rdesc : list Z)
    (bus : hid_bus) : hid_device_ptr * appleib_hid_dev_info * hid_bus :=
  match out with
  | alloc_fails err =>
      (* if (IS_ERR(sub_hdev)) return sub_hdev; *)
      (ERR_PTR err, info, bus)
  | parse_fails ret | add_fails ret =>
      (* goto destroy_hdev *)
      let '(h, bus) := hid_allocate_device bus in
      (ERR_PTR ret, info, hid_destroy_device (Dev h) bus)
  | add_succeeds probe_opens =>
      let '(h, bus) := hid_allocate_device bus in
      let sub_hdev :=
        mk_hid_device (dev_bus (hdev info)) 0 (dev_vendor (hdev info))
                      (dev_product (hdev info)) [usage] rdesc in
      let bus := hid_add_device h sub_hdev bus in
      let info :=
        if probe_opens then (appleib_ll_open info h).1 else info in
      (Dev h, info, bus)
  end.

(** [while (i--) hid_destroy_device(hdev_info->sub_hdevs[i]);] *)
Fixpoint destroy_below (i : nat) (info : appleib_hid_dev_info)
    (bus : hid_bus) : hid_bus :=
  match i with
  | O => bus
  | S i => destroy_below i info (hid_destroy_device (sub_hdevs info !!! i) bus)
  end.

Section attach.
Context `{hid_host}.
(** [outcomes i] is the host's answer to the device made for slot [i]. *)
Variable outcomes : nat → host_outcome.
(** [hdev->dev_rdesc], with [end = start + hdev->dev_rsize]. *)
Variable rdesc : list Z.
Local Abbreviation e := (length rdesc).

(** The [if] / [else if] / [else] chain of the loop body of
    [appleib_add_sub_devs], for the bytes [start .. pos) the scanner has
    just delimited and the [usage] it found: either the value returned
    from inside the loop or the new [i]. *)
Definition add_sub_devs_turn (start pos : nat) (usage : Z) (i : nat)
    (st : probe_state) : (Z + nat) * probe_state :=
  if negb (appleib_usage_in_list usage) then
    (inr i,
     mk_probe_state (st_info st) (st_bus st)
                    (st_log st ++ [Unknown_collection usage]))
  else if NUM_SUB_HDEVS <=? i then
    (inr i,
     mk_probe_state (st_info st) (st_bus st)
                    (st_log st ++ [Too_many_collections usage]))
  else
    let '(p, info, bus) :=
      appleib_add_sub_dev (outcomes i) (st_info st) usage
                          (slice rdesc start pos) (st_bus st) in
    let info := mk_info (hdev info) (<[i := p]> (sub_hdevs info))
                        (sub_open info) in
    if IS_ERR p then
      let ret := PTR_ERR p in
      (inl ret, mk_probe_state info (destroy_below i info bus) (st_log st))
    else (inr (S i), mk_probe_state info bus (st_log st)).

(** The [while (true)] loop of [appleib_add_sub_devs]: scan, take the
    turn above, then [start = pos; if (start >= end) break;]. *)
Fixpoint add_sub_devs_loop (fuel : nat) (start i : nat)
    (st : probe_state) : option (Z * probe_state) :=
  match fuel with
  | O => None
  | S fuel =>
      let '(pos, usage) := appleib_find_collection rdesc e start in
      match add_sub_devs_turn start pos usage i st with
      | (inl ret, st) => Some (ret, st)
      | (inr i, st) =>
          if e <=? pos then Some (0%Z, st)
          else add_sub_devs_loop fuel pos i st
      end
  end.

(** The turns of the loop taken over scanner calls already made, given
    as triples [(start, pos, usage)]: the value returned from inside the
    loop, or the [i] the turns end with. *)
Fixpoint run_segments (segs : list (nat * nat * Z)) (i : nat)
    (st : probe_state) : (Z + nat) * probe_state :=
  match segs with
  | [] => (inr i, st)
  | (start, pos, usage) :: segs =>
      match add_sub_devs_turn start pos usage i st with
      | (inl ret, st) => (inl ret, st)
      | (inr i, st) => run_segments segs i st
      end
  end.

End attach.

(** [appleib_add_sub_devs(hdev_info)], the descriptor being
    [hdev->dev_rdesc].  Each turn of the loop but the last moves [start]
    forward, so the fuel given here never runs out (lemma
    [add_sub_devs_loop_total]). *)
Definition appleib_add_sub_devs `{hid_host} (outcomes : nat → host_outcome)
    (st : probe_state) : Z * probe_state :=
  let rdesc := dev_rdesc (hdev (st_info st)) in
  default (0%Z, st)
          (add_sub_devs_loop outcomes rdesc (S (length rdesc)) 0 0 st).

(** What [appleib_add_sub_devs] returns for the outcome of the turns. *)
Definition attach_result (r : (Z + nat) * probe_state) : Z * probe_state :=
  match r with
  | (inl ret, st) => (ret, st)
  | (inr _, st) => (0%Z, st)
  end.

(** *** What the split is expected to leave behind *)

(** A scanned segment whose usage is in the classification table. *)
Definition recognized (seg : nat * nat * Z) : Prop :=
  appleib_usage_in_list seg.2 = true.

#[export] Instance recognized_dec seg : Decision (recognized seg).
Proof. unfold recognized. apply _. Defined.

(** The segments that get a virtual device when [n] slots are free: the
    first [n] recognized ones, in scan order. *)
Definition exposed (n : nat) (segs : list (nat * nat * Z))
  : list (nat * nat * Z) :=
  take n (filter recognized segs).

(** The virtual device of a segment: the parent's bus, vendor and
    product, the usage in its name, and the segment's bytes as its
    descriptor. *)
Definition sub_device (parent : hid_device) (rdesc : list Z)
    (seg : nat * nat * Z) : hid_device :=
  mk_hid_device (dev_bus parent) 0 (dev_vendor parent) (dev_product parent)
                [seg.2] (slice rdesc seg.1.1 seg.1.2).

(** The diagnostics of the segments, [taken] slots being in use: one
    for every unrecognized segment and one for every recognized segment
    met when all slots are in use. *)
Fixpoint expected_log (taken : nat) (segs : list (nat * nat * Z))
  : list warning :=
  match segs with
  | [] => []
  | seg :: segs =>
      if decide (recognized seg) then
        if decide (taken < NUM_SUB_HDEVS) then expected_log (S taken) segs
        else Too_many_collections seg.2 :: expected_log taken segs
      else Unknown_collection seg.2 :: expected_log taken segs
  end.


(** The state [appleib_hid_probe] starts the split from: a fresh
    structure for the real device [hdev], and the host's registry. *)
Definition probe_start (hdev : hid_device) (bus : hid_bus) : probe_state :=
  mk_probe_state (new_info hdev) bus [].

End HidAppleib.

(** ** [drivers/hid/apple-ibridge.c] *)

Module AppleIbridge.
Import HidCore Scanner Host.

Definition USB_VENDOR_ID_LINUX_FOUNDATION : Z := 0x1d6b.
Definition USB_DEVICE_ID_IBRIDGE_TB : Z := 0x0301.
Definition USB_DEVICE_ID_IBRIDGE_ALS : Z := 0x0302.

(** Modelled from the spec: the bus number behind the host framework's
    [HID_USB_DEVICE] initialiser ([BUS_USB] of [linux/input.h]). *)
Definition BUS_USB : Z := 0x03.

(** [struct hid_device_id] *)
Record hid_device_id := mk_hid_device_id {
  id_bus : Z;
  id_group : Z;
  id_vendor : Z;
  id_product : Z
}.

Definition HID_USB_DEVICE (ven prod : Z) : hid_device_id :=
  mk_hid_device_id BUS_USB 0 ven prod.

Definition appleib_sub_hid_ids : list hid_device_id :=
  [ HID_USB_DEVICE USB_VENDOR_ID_LINUX_FOUNDATION USB_DEVICE_ID_IBRIDGE_TB;
    HID_USB_DEVICE USB_VENDOR_ID_LINUX_FOUNDATION USB_DEVICE_ID_IBRIDGE_ALS ].

#[export] Instance hid_device_id_inhabited : Inhabited hid_device_id :=
  populate (mk_hid_device_id 0 0 0 0).

(** [appleib_usage_map]: a usage and the index of its entry of
    [appleib_sub_hid_ids]. *)
Definition appleib_usage_map : list (Z * nat) :=
  [ (* Default iBridge configuration, key inputs and mode settings *)
    (0x00010006%Z, 0);
    (* OS X iBridge configuration, digitizer inputs *)
    (0x000D0005%Z, 0);
    (* All iBridge configurations, display/DFR settings *)
    (0xFF120001%Z, 0);
    (* All iBridge configurations, ALS *)
    (0x00200041%Z, 1) ].

(** [ARRAY_SIZE(appleib_sub_hid_ids)], the size of [sub_hdevs] and of
    [sub_open]. *)
Definition NUM_SUB_HDEVS : nat := length appleib_sub_hid_ids.

(** [struct appleib_hid_dev_info] *)
Record appleib_hid_dev_info := mk_info {
  hdev : hid_device;
  sub_hdevs : list hid_device_ptr;
  sub_open : list bool
}.

(** The structure as [devm_kzalloc] and [hdev_info->hdev = hdev] leave
    it in [appleib_add_device]. *)
Definition new_info (hdev : hid_device) : appleib_hid_dev_info :=
  mk_info hdev (replicate NUM_SUB_HDEVS NULL)
          (replicate NUM_SUB_HDEVS false).

Definition appleib_hid_raw_event (info : appleib_hid_dev_info)
    (report_type : Z) (data : list Z) (size : Z)
  : list input_report * Z :=
  (flat_map
     (λ i : nat, if (sub_open info !!! i : bool)
           then [mk_input_report (sub_hdevs info !!! i)
                                 report_type data size]
           else [])
     (seq 0 NUM_SUB_HDEVS),
   0%Z).

(** *** Power-management forwarding *)

Section pm.
Variable world : Type.
Variable driver_of : nat → option (hid_driver world).

(** The [for] loop of [appleib_forward_int_op] over the slot indices
    not yet visited, entered with the current [rc].  Every path
    through the body ends in a [break], the last statement of the body
    being one, so the indices after the first are never visited.
    Reading [sub_hdev->driver] through a pointer that is not a device
    gives no result ([None]). *)
Definition forward_int_op_loop (info : appleib_hid_dev_info)
    (forward : hid_driver world → nat → world → Z * world)
    (idxs : list nat) (rc : Z) (w : world) : option (Z * world) :=
  match idxs with
  | [] => Some (rc, w)
  | i :: _ =>
      match sub_hdevs info !!! i with
      | Dev h =>
          match driver_of h with
          | Some drv =>
              let '(rc, w) := forward drv h w in
              if negb (rc =? 0)%Z then Some (rc, w) (* break *)
              else Some (rc, w) (* break *)
          | None => Some (rc, w) (* break *)
          end
      | _ => None
      end
  end.

Definition appleib_forward_int_op (info : appleib_hid_dev_info)
    (forward : hid_driver world → nat → world → Z * world)
    (w : world) : option (Z * world) :=
  forward_int_op_loop info forward (seq 0 NUM_SUB_HDEVS) 0 w.

Definition appleib_hid_suspend_fwd (message : Z) (drv : hid_driver world)
    (h : nat) (w : world) : Z * world :=
  match suspend drv with
  | Some f => f h message w
  | None => (0%Z, w)
  end.

Definition appleib_hid_suspend info (message : Z) :=
  appleib_forward_int_op info (appleib_hid_suspend_fwd message).

Definition appleib_hid_resume_fwd (drv : hid_driver world)
    (h : nat) (w : world) : Z * world :=
  match resume drv with
  | Some f => f h w
  | None => (0%Z, w)
  end.

Definition appleib_hid_resume info :=
  appleib_forward_int_op info appleib_hid_resume_fwd.

Definition appleib_hid_reset_resume_fwd (drv : hid_driver world)
    (h : nat) (w : world) : Z * world :=
  match reset_resume drv with
  | Some f => f h w
  | None => (0%Z, w)
  end.

Definition appleib_hid_reset_resume info :=
  appleib_forward_int_op info appleib_hid_reset_resume_fwd.
End pm.

(** *** Open and close *)

Fixpoint set_open_loop (idxs : list nat) (info : appleib_hid_dev_info)
    (vdev : nat) (open : bool) : appleib_hid_dev_info * Z :=
  match idxs with
  | [] => (info, (- ENODEV)%Z)
  | i :: idxs =>
      if bool_decide (sub_hdevs info !!! i = Dev vdev)
         || bool_decide (sub_hdevs info !!! i = NULL)
      then
        (mk_info (hdev info) (sub_hdevs info)
                 (<[i := open]> (sub_open info)),
         0%Z)
      else set_open_loop idxs info vdev open
  end.

(** [appleib_set_open(hdev, open)] for the virtual device [vdev], whose
    [driver_data] is [info]. *)
Definition appleib_set_open (info : appleib_hid_dev_info) (vdev : nat)
    (open : bool) : appleib_hid_dev_info * Z :=
  set_open_loop (seq 0 NUM_SUB_HDEVS) info vdev open.

Definition appleib_ll_open info vdev := appleib_set_open info vdev true.
Definition appleib_ll_close info vdev :=
  (appleib_set_open info vdev false).1.

(** *** Splitting the descriptor into virtual devices *)

Fixpoint find_dev_id_from (map : list (Z * nat)) (usage : Z)
  : option hid_device_id :=
  match map with
  | [] => None
  | (u, id) :: map =>
      if (u =? usage)%Z then Some (appleib_sub_hid_ids !!! id)
      else find_dev_id_from map usage
  end.

(** [None] is the NULL the C function returns. *)
Definition appleib_find_dev_id_for_usage (usage : Z)
  : option hid_device_id :=
  find_dev_id_from appleib_usage_map usage.

Record probe_state := mk_probe_state {
  st_info : appleib_hid_dev_info;
  st_bus : hid_bus;
  st_log : list warning
}.

(** [appleib_add_sub_dev(hdev_info, dev_id, rdesc, rsize)], with [out]
    the host's answer to this device. *)
Definition appleib_add_sub_dev (out : host_outcome)
    (info : appleib_hid_dev_info) (dev_id : hid_device_id)
    (rdesc : list Z) (bus : hid_bus)
  : hid_device_ptr * appleib_hid_dev_info * hid_bus :=
  match out with
  | alloc_fails err =>
      (* if (IS_ERR(sub_hdev)) return sub_hdev; *)
      (ERR_PTR err, info, bus)
  | parse_fails rc | add_fails rc =>
      (* hid_destroy_device(sub_hdev); return ERR_PTR(rc); *)
      let '(h, bus) := hid_allocate_device bus in
      (ERR_PTR rc, info, hid_destroy_device (Dev h) bus)
  | add_succeeds probe_opens =>
      let '(h, bus) := hid_allocate_device bus in
      let sub_hdev :=
        mk_hid_device (id_bus dev_id) (id_group dev_id) (id_vendor dev_id)
                      (id_product dev_id)
                      [id_vendor dev_id; id_product dev_id] rdesc in
      let bus := hid_add_device h sub_hdev bus in
      let info :=
        if probe_opens then (appleib_ll_open info h).1 else info in
      (Dev h, info, bus)
  end.

(** [while (i-- > 0) hid_destroy_device(hdev_info->sub_hdevs[i]);]
    together with the value [i] is left with: the test that ends the
    loop finds [i = 0] and still decrements it. *)
Fixpoint destroy_down (i : nat) (info : appleib_hid_dev_info)
    (bus : hid_bus) : Z * hid_bus :=
  match i with
  | O => ((-1)%Z, bus)
  | S i => destroy_down i info (hid_destroy_device (sub_hdevs info !!! i) bus)
  end.

(** What [appleib_add_device] returns: [hdev_info], or a device pointer
    or error pointer cast to [void *], or what a read of
    [sub_hdevs[idx]] finds for an [idx] that is not an index of the
    array. *)
Inductive add_device_ret :=
| ret_hdev_info
| ret_cast (p : hid_device_ptr)
| ret_outside_sub_hdevs (idx : Z).

(** [(void * )hdev_info->sub_hdevs[i]] *)
Definition read_sub_hdevs (info : appleib_hid_dev_info) (i : Z)
  : add_device_ret :=
  if (0 <=? i)%Z && (i <? Z.of_nat NUM_SUB_HDEVS)%Z
  then ret_cast (sub_hdevs info !!! Z.to_nat i)
  else ret_outside_sub_hdevs i.

Section attach.
Context `{hid_host}.
Variable outcomes : nat → host_outcome.
Variable rdesc : list Z.
Local Abbreviation e := (length rdesc).

(** The [if] / [else if] / [else] chain of the loop body of
    [appleib_add_device], for the bytes [start .. pos) the scanner has
    just delimited and the [usage] it found: either the value returned
    from inside the loop or the new [i]. *)
Definition add_device_turn (start pos : nat) (usage : Z) (i : nat)
    (st : probe_state) : (add_device_ret + nat) * probe_state :=
  match appleib_find_dev_id_for_usage usage with
  | None =>
      (inr i,
       mk_probe_state (st_info st) (st_bus st)
                      (st_log st ++ [Unknown_collection usage]))
  | Some dev_id =>
      if NUM_SUB_HDEVS <=? i then
        (inr i,
         mk_probe_state (st_info st) (st_bus st)
                        (st_log st ++ [Too_many_collections usage]))
      else
        let '(p, info, bus) :=
          appleib_add_sub_dev (outcomes i) (st_info st) dev_id
                              (slice rdesc start pos) (st_bus st) in
        let info := mk_info (hdev info) (<[i := p]> (sub_hdevs info))
                            (sub_open info) in
        if IS_ERR p then
          let '(i, bus) := destroy_down i info bus in
          (inl (read_sub_hdevs info i), mk_probe_state info bus (st_log st))
        else (inr (S i), mk_probe_state info bus (st_log st))
  end.

(** The [for (i = 0; ; )] loop of [appleib_add_device]: scan, take the
    turn above, then [start = pos; if (start >= end) break;]. *)
Fixpoint add_device_loop (fuel : nat) (start i : nat)
    (st : probe_state) : option (add_device_ret * probe_state) :=
  match fuel with
  | O => None
  | S fuel =>
      let '(pos, usage) := appleib_find_collection rdesc e start in
      match add_device_turn start pos usage i st with
      | (inl ret, st) => Some (ret, st)
      | (inr i, st) =>
          if e <=? pos then Some (ret_hdev_info, st)
          else add_device_loop fuel pos i st
      end
  end.
(** The turns of the loop taken over scanner calls already made, given
    as triples [(start, pos, usage)]: the value returned from inside the
    loop, or the [i] the turns end with. *)
Fixpoint run_segments (segs : list (nat * nat * Z)) (i : nat)
    (st : probe_state) : (add_device_ret + nat) * probe_state :=
  match segs with
  | [] => (inr i, st)
  | (start, pos, usage) :: segs =>
      match add_device_turn start pos usage i st with
      | (inl ret, st) => (inl ret, st)
      | (inr i, st) => run_segments segs i st
      end
  end.

End attach.

(** What [appleib_add_device] returns for the outcome of the turns. *)
Definition attach_result (r : (add_device_ret + nat) * probe_state)
  : add_device_ret * probe_state :=
  match r with
  | (inl ret, st) => (ret, st)
  | (inr _, st) => (ret_hdev_info, st)
  end.

(** *** What the split is expected to leave behind *)

(** A scanned segment whose usage is in the usage map. *)
Definition recognized (seg : nat * nat * Z) : Prop :=
  is_Some (appleib_find_dev_id_for_usage seg.2).

#[export] Instance recognized_dec seg : Decision (recognized seg).
Proof. unfold recognized. apply _. Defined.

(** The segments that get a virtual device when [n] slots are free: the
    first [n] recognized ones, in scan order. *)
Definition exposed (n : nat) (segs : list (nat * nat * Z))
  : list (nat * nat * Z) :=
  take n (filter recognized segs).

(** The virtual device of a recognized segment: bus, group, vendor and
    product of the device id its usage maps to, vendor and product in its
    name, and the segment's bytes as its descriptor. *)
Definition sub_device (rdesc : list Z) (seg : nat * nat * Z) : hid_device :=
  let dev_id := default inhabitant (appleib_find_dev_id_for_usage seg.2) in
  mk_hid_device (id_bus dev_id) (id_group dev_id) (id_vendor dev_id)
                (id_product dev_id) [id_vendor dev_id; id_product dev_id]
                (slice rdesc seg.1.1 seg.1.2).

(** The diagnostics of the segments, [taken] slots being in use. *)
Fixpoint expected_log (taken : nat) (segs : list (nat * nat * Z))
  : list warning :=
  match segs with
  | [] => []
  | seg :: segs =>
      if decide (recognized seg) then
        if decide (taken < NUM_SUB_HDEVS) then expected_log (S taken) segs
        else Too_many_collections seg.2 :: expected_log taken segs
      else Unknown_collection seg.2 :: expected_log taken segs
  end.

(** [appleib_add_device(hdev)] for the real device [hdev]; [kzalloc_ok]
    tells whether [devm_kzalloc] gave memory, and the descriptor is
    [hdev->dev_rdesc]. *)
Definition appleib_add_device `{hid_host} (outcomes : nat → host_outcome)
    (kzalloc_ok : bool) (hdev : hid_device) (bus : hid_bus)
  : add_device_ret * probe_state :=
  let st := mk_probe_state (new_info hdev) bus [] in
  if negb kzalloc_ok then (ret_cast (ERR_PTR (- ENOMEM)%Z), st)
  else
    default (ret_hdev_info, st)
            (add_device_loop outcomes (dev_rdesc hdev)
                             (S (length (dev_rdesc hdev))) 0 0 st).

End AppleIbridge.

(** ** The points of an attach

    Both generations split the descriptor in a loop of the same shape:
    call the scanner at [start], take the turn of the loop body on what
    it found, and go on from where the scanner stopped unless that is the
    end of the descriptor or the body returned.  The states the driver's
    structure and the registry are in before the first turn and after
    each turn are the points of the attach. *)

Module AttachPoints.
Import HidCore Scanner.

Section points.
Context `{hid_host} {ret state : Type}.
(** The loop body: [turn start pos usage i st] is either the value
    returned from inside the loop or the new [i], and the state. *)
Variable turn : nat → nat → Z → nat → state → (ret + nat) * state.
Variable rdesc : list Z.
(** The state the loop is entered with. *)
Variable st0 : state.



End points.

End AttachPoints.

(** ** Vocabulary of the specification

    The scanner is described in section 4.2 over descriptor items, not
    bytes, and section 8 speaks of descriptors "composed of well-formed
    top-level collections".  The definitions below say what that means on
    the byte stream; the scanner itself is compared with them further
    down. *)

Module Descriptor.
Import HidCore.

(** The transient DescriptorItem of section 3. *)
Inductive DescriptorItem :=
| collection_begin
| collection_end
| global_usage_page (value : Z)
| local_usage (value : Z)
| other.

(** The class of a fetched item, by the type and tag tests section 4.2
    names. *)
Definition classify_item (item : hid_item) : DescriptorItem :=
  if (item_type item =? HID_ITEM_TYPE_MAIN)%Z then
    if (item_tag item =? HID_MAIN_ITEM_TAG_BEGIN_COLLECTION)%Z
    then collection_begin
    else if (item_tag item =? HID_MAIN_ITEM_TAG_END_COLLECTION)%Z
    then collection_end
    else other
  else if (item_type item =? HID_ITEM_TYPE_GLOBAL)%Z
          && (item_tag item =? HID_GLOBAL_ITEM_TAG_USAGE_PAGE)%Z
  then global_usage_page (hid_item_udata item)
  else if (item_type item =? HID_ITEM_TYPE_LOCAL)%Z
          && (item_tag item =? HID_LOCAL_ITEM_TAG_USAGE)%Z
  then local_usage (hid_item_udata item)
  else other.

(** A 32-bit usage from its two 16-bit halves. *)
Definition make_usage (page id : Z) : Z :=
  ((page mod 2 ^ 16) * 2 ^ 16 + id mod 2 ^ 16)%Z.

(** "updates the high 16 bits of usage" *)
Definition set_high16 (usage value : Z) : Z := make_usage value usage.

(** "updates the low 16 bits of usage" *)
Definition set_low16 (usage value : Z) : Z :=
  make_usage (usage / 2 ^ 16) value.

(** The walk of section 4.2 over items already cut out of the stream,
    each paired with the offset just after it; [stream_end] is what is
    returned when the items run out. *)
Fixpoint scan_items (stream_end : nat) (items : list (hid_item * nat))
    (depth usage : Z) : nat * Z :=
  match items with
  | [] => (stream_end, usage)
  | (item, next) :: items =>
      match classify_item item with
      | collection_begin => scan_items stream_end items (depth + 1)%Z usage
      | collection_end =>
          if (depth - 1 <=? 0)%Z then (next, usage)
          else scan_items stream_end items (depth - 1)%Z usage
      | global_usage_page value =>
          scan_items stream_end items depth
            (if (depth =? 0)%Z then set_high16 usage value else usage)
      | local_usage value =>
          scan_items stream_end items depth
            (if (depth =? 0)%Z then set_low16 usage value else usage)
      | other => scan_items stream_end items depth usage
      end
  end.

(** The items of the stream from [start] on, as the host's item fetch
    cuts them: fetching stops at the end of the stream or at an item
    that does not fit. *)
Fixpoint items_loop `{hid_host} (rdesc : list Z) (e : nat) (fuel : nat)
    (start : nat) : list (hid_item * nat) :=
  match fuel with
  | O => []
  | S fuel =>
      match hid_fetch_item rdesc start e with
      | None => []
      | Some (next, item) => (item, next) :: items_loop rdesc e fuel next
      end
  end.

Definition descriptor_items `{hid_host} (rdesc : list Z) (e start : nat)
  : list (hid_item * nat) :=
  items_loop rdesc e (S (e - start)) start.

(** [fetches rdesc e a items b]: fetching item after item from offset
    [a] yields [items] and arrives at offset [b]. *)
Inductive fetches `{hid_host} (rdesc : list Z) (e : nat)
  : nat → list hid_item → nat → Prop :=
| fetches_nil a : fetches rdesc e a [] a
| fetches_cons a b c item items :
    hid_fetch_item rdesc a e = Some (b, item) →
    fetches rdesc e b items c →
    fetches rdesc e a (item :: items) c.

Definition is_delimiter (item : hid_item) : Prop :=
  classify_item item = collection_begin
  ∨ classify_item item = collection_end.

(** Items between a collection's begin and its end: anything, with
    sub-collections properly bracketed. *)
Inductive nested : list hid_item → Prop :=
| nested_nil : nested []
| nested_item item items :
    ¬ is_delimiter item → nested items → nested (item :: items)
| nested_collection b inner c items :
    classify_item b = collection_begin →
    nested inner →
    classify_item c = collection_end →
    nested items →
    nested (b :: inner ++ c :: items).

(** The usage the items in front of a top-level collection declare for
    it, starting from [usage]. *)
Definition header_step (usage : Z) (item : hid_item) : Z :=
  match classify_item item with
  | global_usage_page value => set_high16 usage value
  | local_usage value => set_low16 usage value
  | _ => usage
  end.

Definition header_usage (header : list hid_item) : Z :=
  foldl header_step 0%Z header.

(** The bytes [a .. b) hold one well-formed top-level collection:
    [header] items that open or close nothing, the collection's begin,
    the properly bracketed items [body], and the collection's end. *)
Definition collection_items `{hid_host} (rdesc : list Z) (e a b : nat)
    (header body : list hid_item) : Prop :=
  ∃ p1 bgn p2 p3 endc,
    fetches rdesc e a header p1
    ∧ Forall (λ item, ¬ is_delimiter item) header
    ∧ hid_fetch_item rdesc p1 e = Some (p2, bgn)
    ∧ classify_item bgn = collection_begin
    ∧ fetches rdesc e p2 body p3
    ∧ nested body
    ∧ hid_fetch_item rdesc p3 e = Some (b, endc)
    ∧ classify_item endc = collection_end.

(** The bytes [a .. b) hold one well-formed top-level collection whose
    header declares [usage]. *)
Definition collection_at `{hid_host} (rdesc : list Z) (e a b : nat)
    (usage : Z) : Prop :=
  ∃ header body,
    collection_items rdesc e a b header body
    ∧ usage = header_usage header.

(** The descriptor is composed of the top-level collections that end
    at the offsets [bounds] and declare the usages [usages], laid end to
    end from offset [a] to the end of the descriptor. *)
Fixpoint composed_from `{hid_host} (rdesc : list Z) (a : nat)
    (bounds : list nat) (usages : list Z) : Prop :=
  match bounds, usages with
  | [], [] => a = length rdesc
  | b :: bounds, u :: usages =>
      collection_at rdesc (length rdesc) a b u
      ∧ composed_from rdesc b bounds usages
  | _, _ => False
  end.

(** *** Sample streams *)

Definition example_host : hid_host := little_endian_host 0xffff888000000000.

(** Two top-level collections.  The first: Usage Page (0xff12),
    Usage (1), Collection (Application) holding a Collection (Logical)
    with Usage (5) in it.  The second: Usage Page (0x20), Usage (0x41),
    and an empty Collection (Application). *)
Definition example_rdesc : list Z :=
  [ 0x06; 0x12; 0xff;  0x09; 0x01;  0xa1; 0x01;
    0xa1; 0x02;  0x09; 0x05;  0xc0;  0xc0;
    0x05; 0x20;  0x09; 0x41;  0xa1; 0x01;  0xc0 ]%Z.

(** A Collection (Application) that holds Usage Page (0xff12) and
    Usage (1): the usage items come after the collection's begin. *)
Definition usage_inside_rdesc : list Z :=
  [ 0xa1; 0x01;  0x06; 0x12; 0xff;  0x09; 0x01;  0xc0 ]%Z.

(** The scanner calls a descriptor made of collections ending at
    [bounds] with usages [usages] calls for, from offset [a] on. *)
Fixpoint segments_of (a : nat) (bounds : list nat) (usages : list Z)
  : list (nat * nat * Z) :=
  match bounds, usages with
  | b :: bounds, u :: usages => (a, b, u) :: segments_of b bounds usages
  | _, _ => []
  end.


End Descriptor.

(** ** Sample devices and consumer drivers *)

Module Samples.
Import Host Descriptor.

(** [BUS_USB], [USB_VENDOR_ID_APPLE], [USB_DEVICE_ID_APPLE_IBRIDGE]. *)
Definition ibridge_hdev (rdesc : list Z) : hid_device :=
  mk_hid_device 0x03 0 0x05ac 0x8600 [] rdesc.

(** A registry that has given out the handle 0 (the real device) and
    holds no virtual device yet. *)
Definition empty_bus : hid_bus := mk_hid_bus 1 [] [].

Definition EIO : Z := 5.

(** The consumer drivers' state: the devices whose suspend callback has
    run, in the order the callbacks ran. *)
Definition suspended : Type := list nat.

Definition suspend_succeeds (h : nat) (message : Z) (w : suspended)
  : Z * suspended := (0%Z, w ++ [h]).

Definition suspend_errors (h : nat) (message : Z) (w : suspended)
  : Z * suspended := ((- EIO)%Z, w ++ [h]).

(** Device 1 has a driver whose suspend succeeds, device 2 a driver
    whose suspend fails with [-EIO]. *)
Definition second_errors (h : nat) : option (hid_driver suspended) :=
  match h with
  | 1 => Some (mk_hid_driver (Some suspend_succeeds) None None)
  | 2 => Some (mk_hid_driver (Some suspend_errors) None None)
  | _ => None
  end.

(** The host refuses the descriptor of the device for slot [k] with
    [-EINVAL] and accepts every other device. *)
Definition refuses_slot (k : nat) (i : nat) : host_outcome :=
  if i =? k then parse_fails (-22) else add_succeeds false.

Definition accepts_all (i : nat) : host_outcome := add_succeeds false.

(** Four top-level collections: a mouse (usage 0x00010002, in neither
    classification table), the ambient light sensor, the Touch Bar
    backlight, and the ambient light sensor once more. *)
Definition anomalous_rdesc : list Z :=
  [ 0x05; 0x01;  0x09; 0x02;  0xa1; 0x01;  0xc0;
    0x05; 0x20;  0x09; 0x41;  0xa1; 0x01;  0xc0;
    0x06; 0x12; 0xff;  0x09; 0x01;  0xa1; 0x01;  0xc0;
    0x05; 0x20;  0x09; 0x41;  0xa1; 0x01;  0xc0 ]%Z.

(** A 634-byte descriptor, zero but for the bytes both patterns of the
    fixup look at. *)
Definition quirk_rdesc : list Z :=
  foldr (λ (patch : nat * Z) rdesc, <[patch.1 := patch.2]> rdesc)
    (replicate 634 0%Z)
    [ (212, 0x06%Z); (213, 0x12%Z); (214, 0xff%Z);
      (416, 0x09%Z); (417, 0x51%Z); (432, 0x75%Z); (433, 64%Z);
      (434, 0x95%Z); (435, 1%Z);
      (611, 0x09%Z); (612, 0x51%Z); (627, 0x75%Z); (628, 64%Z);
      (629, 0x95%Z); (630, 1%Z) ].

End Samples.

(** ** Segment chains and the last usage items of a header *)

Module Tiling.
Import HidCore Scanner Descriptor.

(** The segments lie end to end from offset [a] to offset [b]: each
    starts where the one before stopped. *)
Fixpoint chained (a : nat) (segs : list (nat * nat * Z)) (b : nat) : Prop :=
  match segs with
  | [] => a = b
  | seg :: segs => seg.1.1 = a ∧ a ≤ seg.1.2 ∧ chained seg.1.2 segs b
  end.

(** The value of the last Usage Page item among [header], 0 when there
    is none. *)
Definition last_usage_page (header : list hid_item) : Z :=
  foldl (λ page item,
           match classify_item item with
           | global_usage_page value => value
           | _ => page
           end) 0%Z header.

(** The value of the last Usage item among [header], 0 when there is
    none. *)
Definition last_usage_id (header : list hid_item) : Z :=
  foldl (λ id item,
           match classify_item item with
           | local_usage value => value
           | _ => id
           end) 0%Z header.

End Tiling.

(** ** The real device's side of the host framework *)

Module RealDevice.
Import Host.

(** A call a driver makes on the real device it is bound to, with the
    value the host returned where the call returns one. *)
Inductive hw_call :=
| usb_driver_set_configuration (config : Z) (ret : Z)
| hid_parse (ret : Z)
| hid_hw_start (ret : Z)
| hid_hw_stop
| hid_hw_open (ret : Z)
| hid_hw_close.

(** Whether the calls leave the device started: a [hid_hw_start] that
    returned 0 starts it, [hid_hw_stop] stops it. *)
Definition started_after (calls : list hw_call) : bool :=
  foldl (λ started call,
           match call with
           | hid_hw_start ret => if (ret =? 0)%Z then true else started
           | hid_hw_stop => false
           | _ => started
           end) false calls.

(** The opens of the device the calls leave outstanding: a
    [hid_hw_open] that returned 0 counts one up, [hid_hw_close] one
    down. *)
Definition opens_after (calls : list hw_call) : Z :=
  foldl (λ opens call,
           match call with
           | hid_hw_open ret => if (ret =? 0)%Z then (opens + 1)%Z else opens
           | hid_hw_close => (opens - 1)%Z
           | _ => opens
           end) 0%Z calls.

(** Every refusal of the host carries an errno, the only values
    [ERR_PTR] and [IS_ERR] are meant for. *)
Definition refuses_with_errno (outcomes : nat → host_outcome) : Prop :=
  ∀ j err, outcome_error (outcomes j) = Some err → is_errno err.

End RealDevice.

(** ** Probe and remove, [drivers/hid/hid-appleib.c] *)

Module HidAppleibDriver.
Import HidCore Scanner Host HidAppleib RealDevice.

(** The messages of [appleib_hid_probe], each with the error it
    reports. *)
Inductive probe_message :=
| HID_parse_failed (ret : Z)
| HID_hardware_start_failed (ret : Z)
| Failed_to_add_subdevices (ret : Z)
| Failed_to_open_HID_device (ret : Z).

(** What the host answers to the calls [appleib_hid_probe] makes on the
    real device. *)
Record probe_host := mk_probe_host {
  devm_kzalloc_ok : bool;
  hid_parse_ret : Z;
  hid_hw_start_ret : Z;
  hid_hw_open_ret : Z
}.

(** The driver and its surroundings, as far as probe and remove touch
    them: [hid_get_drvdata(hdev)] ([None] while it is unset), the
    registry of virtual devices, the warnings of the split, the calls
    made on the real device, the messages printed, and the pointers the
    teardown handed to [hid_destroy_device]. *)
Record driver_state := mk_driver_state {
  ds_drvdata : option appleib_hid_dev_info;
  ds_bus : hid_bus;
  ds_log : list warning;
  ds_calls : list hw_call;
  ds_messages : list probe_message;
  ds_torn_down : list hid_device_ptr
}.

(** The [for] loop of [appleib_remove_sub_devs] over the slot indices
    not yet visited: every slot's pointer goes to [hid_destroy_device],
    whatever it is. *)
Fixpoint remove_sub_devs_loop (idxs : list nat) (info : appleib_hid_dev_info)
    (bus : hid_bus) : list hid_device_ptr * hid_bus :=
  match idxs with
  | [] => ([], bus)
  | i :: idxs =>
      let p := sub_hdevs info !!! i in
      let '(ptrs, bus) :=
        remove_sub_devs_loop idxs info (hid_destroy_device p bus) in
      (p :: ptrs, bus)
  end.

(** [appleib_remove_sub_devs(hdev)], [hdev_info] being
    [hid_get_drvdata(hdev)]: the pointers handed to
    [hid_destroy_device], in call order, and the registry afterwards. *)
Definition appleib_remove_sub_devs (hdev_info : appleib_hid_dev_info)
    (bus : hid_bus) : list hid_device_ptr * hid_bus :=
  remove_sub_devs_loop (seq 0 NUM_SUB_HDEVS) hdev_info bus.

(** [appleib_hid_probe(hdev, id)]; [hdev] carries the descriptor
    [hid_parse] stores in [hdev->dev_rdesc], and [outcomes] are the
    host's answers to the virtual devices. *)
Definition appleib_hid_probe `{hid_host} (host : probe_host)
    (outcomes : nat → host_outcome) (hdev : hid_device) (bus : hid_bus)
  : Z * driver_state :=
  if negb (devm_kzalloc_ok host) then
    ((- ENOMEM)%Z, mk_driver_state None bus [] [] [] [])
  else
    let ret := hid_parse_ret host in
    let calls := [hid_parse ret] in
    if negb (ret =? 0)%Z then
      (ret, mk_driver_state None bus [] calls [HID_parse_failed ret] [])
    else
      let ret := hid_hw_start_ret host in
      let calls := calls ++ [hid_hw_start ret] in
      if negb (ret =? 0)%Z then
        (ret, mk_driver_state None bus [] calls
                              [HID_hardware_start_failed ret] [])
      else
        let '(ret, st) :=
          appleib_add_sub_devs outcomes (probe_start hdev bus) in
        if negb (ret =? 0)%Z then
          (* goto stop_hw *)
          (ret, mk_driver_state None (st_bus st) (st_log st)
                                (calls ++ [hid_hw_stop])
                                [Failed_to_add_subdevices ret] [])
        else
          (* hid_set_drvdata(hdev, hdev_info) *)
          let ret := hid_hw_open_ret host in
          let calls := calls ++ [hid_hw_open ret] in
          if negb (ret =? 0)%Z then
            (* goto remove_sub_devs *)
            let '(ptrs, bus) :=
              appleib_remove_sub_devs (st_info st) (st_bus st) in
            (ret, mk_driver_state (Some (st_info st)) bus (st_log st)
                                  (calls ++ [hid_hw_stop])
                                  [Failed_to_open_HID_device ret] ptrs)
          else
            (0%Z, mk_driver_state (Some (st_info st)) (st_bus st) (st_log st)
                                  calls [] []).

(** [appleib_hid_remove(hdev)].  [appleib_remove_sub_devs] reads the
    structure through [hid_get_drvdata(hdev)]; there is no result
    ([None]) when that is unset. *)
Definition appleib_hid_remove (ds : driver_state) : option driver_state :=
  match ds_drvdata ds with
  | None => None
  | Some hdev_info =>
      let '(ptrs, bus) := appleib_remove_sub_devs hdev_info (ds_bus ds) in
      Some (mk_driver_state (ds_drvdata ds) bus (ds_log ds)
              (ds_calls ds ++ [hid_hw_close; hid_hw_stop])
              (ds_messages ds) (ds_torn_down ds ++ ptrs))
  end.

End HidAppleibDriver.

(** ** Probe and remove, [drivers/hid/apple-ibridge.c] *)

Module AppleIbridgeDriver.
Import HidCore Scanner Host AppleIbridge RealDevice.

Definition APPLEIB_BASIC_CONFIG : Z := 1.

Inductive probe_message :=
| hid_parse_failed (rc : Z)
| hw_start_failed (rc : Z)
| failed_to_open_hid (rc : Z).

(** What the host answers to the calls [appleib_hid_probe] makes:
    [bConfigurationValue] is that of the USB device's active
    configuration when the probe starts. *)
Record probe_host := mk_probe_host {
  bConfigurationValue : Z;
  usb_driver_set_configuration_ret : Z;
  hid_parse_ret : Z;
  hid_hw_start_ret : Z;
  devm_kzalloc_ok : bool;
  hid_hw_open_ret : Z
}.

Record driver_state := mk_driver_state {
  ds_drvdata : option appleib_hid_dev_info;
  ds_bus : hid_bus;
  ds_log : list warning;
  ds_calls : list hw_call;
  ds_messages : list probe_message;
  ds_torn_down : list hid_device_ptr
}.

(** The [for] loop of [appleib_remove_device] over the slot indices not
    yet visited: a slot's pointer goes to [hid_destroy_device] unless it
    is NULL. *)
Fixpoint remove_device_loop (idxs : list nat) (info : appleib_hid_dev_info)
    (bus : hid_bus) : list hid_device_ptr * hid_bus :=
  match idxs with
  | [] => ([], bus)
  | i :: idxs =>
      let p := sub_hdevs info !!! i in
      if bool_decide (p = NULL) then remove_device_loop idxs info bus
      else
        let '(ptrs, bus) :=
          remove_device_loop idxs info (hid_destroy_device p bus) in
        (p :: ptrs, bus)
  end.

(** [appleib_remove_device(hdev)], [hdev_info] being
    [hid_get_drvdata(hdev)]: the pointers handed to
    [hid_destroy_device] and the registry afterwards.  The function ends
    with [hid_set_drvdata(hdev, NULL)], which the callers below record. *)
Definition appleib_remove_device (hdev_info : appleib_hid_dev_info)
    (bus : hid_bus) : list hid_device_ptr * hid_bus :=
  remove_device_loop (seq 0 NUM_SUB_HDEVS) hdev_info bus.

(** [IS_ERR(hdev_info)] and [PTR_ERR(hdev_info)] on what
    [appleib_add_device] returned.  The structure itself is no error
    pointer; what was read outside [sub_hdevs] is not known ([None]). *)
Definition add_device_error (ret : add_device_ret) : option (option Z) :=
  match ret with
  | ret_hdev_info => Some None
  | ret_cast p => Some (if IS_ERR p then Some (PTR_ERR p) else None)
  | ret_outside_sub_hdevs _ => None
  end.

(** [appleib_hid_probe(hdev, id)].  [None]: the probe went on with a
    value read outside [sub_hdevs] in place of its structure. *)
Definition appleib_hid_probe `{hid_host} (host : probe_host)
    (outcomes : nat → host_outcome) (hdev : hid_device) (bus : hid_bus)
  : option (Z * driver_state) :=
  (* check and set usb config first *)
  if negb (bConfigurationValue host =? APPLEIB_BASIC_CONFIG)%Z then
    let rc := usb_driver_set_configuration_ret host in
    Some (if negb (rc =? 0)%Z then rc else (- ENODEV)%Z,
          mk_driver_state None bus []
            [usb_driver_set_configuration APPLEIB_BASIC_CONFIG rc] [] [])
  else
    let rc := hid_parse_ret host in
    let calls := [hid_parse rc] in
    if negb (rc =? 0)%Z then
      Some (rc, mk_driver_state None bus [] calls [hid_parse_failed rc] [])
    else
      let rc := hid_hw_start_ret host in
      let calls := calls ++ [hid_hw_start rc] in
      if negb (rc =? 0)%Z then
        Some (rc, mk_driver_state None bus [] calls [hw_start_failed rc] [])
      else
        let '(hdev_info, st) :=
          appleib_add_device outcomes (devm_kzalloc_ok host) hdev bus in
        match add_device_error hdev_info with
        | None => None
        | Some (Some rc) =>
            (* goto stop_hw *)
            Some (rc, mk_driver_state None (st_bus st) (st_log st)
                        (calls ++ [hid_hw_stop]) [] [])
        | Some None =>
            (* hid_set_drvdata(hdev, hdev_info) *)
            let rc := hid_hw_open_ret host in
            let calls := calls ++ [hid_hw_open rc] in
            if negb (rc =? 0)%Z then
              (* goto remove_dev *)
              let '(ptrs, bus) :=
                appleib_remove_device (st_info st) (st_bus st) in
              Some (rc, mk_driver_state None bus (st_log st)
                          (calls ++ [hid_hw_stop])
                          [failed_to_open_hid rc] ptrs)
            else
              Some (0%Z, mk_driver_state (Some (st_info st)) (st_bus st)
                           (st_log st) calls [] [])
        end.

(** [appleib_hid_remove(hdev)] *)
Definition appleib_hid_remove (ds : driver_state) : option driver_state :=
  match ds_drvdata ds with
  | None => None
  | Some hdev_info =>
      let '(ptrs, bus) := appleib_remove_device hdev_info (ds_bus ds) in
      Some (mk_driver_state None bus (ds_log ds)
              (ds_calls ds ++ [hid_hw_close; hid_hw_stop])
              (ds_messages ds) (ds_torn_down ds ++ ptrs))
  end.

End AppleIbridgeDriver.

(** ** [drivers/hid/hid-appletb-kbd.c] *)

Module AppletbKbd.
Import Host RealDevice.

Definition APPLETB_KBD_MODE_ESC : Z := 0.
Definition APPLETB_KBD_MODE_FN : Z := 1.
Definition APPLETB_KBD_MODE_SPCL : Z := 2.
Definition APPLETB_KBD_MODE_OFF : Z := 3.
Definition APPLETB_KBD_MODE_MAX : Z := APPLETB_KBD_MODE_OFF.

Definition HID_USAGE_MODE : Z := 0x00ff0004.

(** [BIT(0)] *)
Definition APPLETB_KBD_QUIRK_IS_T1 : Z := 1.

Definition EINVAL : Z := 22.
Definition EPIPE : Z := 32.

(** The event types and key codes the driver names.  Their values come
    from [linux/input-event-codes.h], which is not part of the driver:
    they are taken as given. *)
Class input_event_codes := {
  EV_KEY : Z;
  KEY_RESERVED : Z;
  KEY_ESC : Z;
  KEY_F1 : Z; KEY_F2 : Z; KEY_F3 : Z; KEY_F4 : Z; KEY_F5 : Z; KEY_F6 : Z;
  KEY_F7 : Z; KEY_F8 : Z; KEY_F9 : Z; KEY_F10 : Z; KEY_F11 : Z; KEY_F12 : Z;
  KEY_BRIGHTNESSDOWN : Z;
  KEY_BRIGHTNESSUP : Z;
  KEY_KBDILLUMDOWN : Z;
  KEY_KBDILLUMUP : Z;
  KEY_PREVIOUSSONG : Z;
  KEY_PLAYPAUSE : Z;
  KEY_NEXTSONG : Z;
  KEY_MUTE : Z;
  KEY_VOLUMEDOWN : Z;
  KEY_VOLUMEUP : Z
}.

(** The constants of [linux/hid.h], [linux/usb/ch9.h] and [linux/pm.h]
    the driver names, taken as given likewise. *)
Class hid_usb_constants := {
  HID_USAGE_PAGE : Z;
  HID_UP_KEYBOARD : Z;
  HID_REQ_SET_REPORT : Z;
  USB_DIR_OUT : Z;
  USB_TYPE_VENDOR : Z;
  USB_RECIP_DEVICE : Z;
  PM_HINT_FULLON : Z;
  PM_HINT_NORMAL : Z
}.

(** The function keys are numbered as the case ranges and the keymap of
    the driver take them to be: F1 to F10 in a row, F11 and F12 in a row,
    Esc in front of them. *)
Definition function_keys_in_rows `{input_event_codes} : Prop :=
  (KEY_F2 = KEY_F1 + 1 ∧ KEY_F3 = KEY_F1 + 2 ∧ KEY_F4 = KEY_F1 + 3
   ∧ KEY_F5 = KEY_F1 + 4 ∧ KEY_F6 = KEY_F1 + 5 ∧ KEY_F7 = KEY_F1 + 6
   ∧ KEY_F8 = KEY_F1 + 7 ∧ KEY_F9 = KEY_F1 + 8 ∧ KEY_F10 = KEY_F1 + 9
   ∧ KEY_F12 = KEY_F11 + 1
   ∧ 0 ≤ KEY_ESC < KEY_F1 ∧ KEY_F10 < KEY_F11)%Z.

(** [struct key_entry] of [linux/input/sparse-keymap.h], with the two
    entry types the driver uses. *)
Inductive key_entry_type := KE_KEY | KE_END.

Record key_entry := mk_key_entry {
  ke_type : key_entry_type;
  ke_code : Z;
  ke_keycode : Z
}.

Definition appletb_kbd_keymap `{input_event_codes} : list key_entry :=
  [ mk_key_entry KE_KEY KEY_ESC KEY_ESC;
    mk_key_entry KE_KEY KEY_F1 KEY_BRIGHTNESSDOWN;
    mk_key_entry KE_KEY KEY_F2 KEY_BRIGHTNESSUP;
    mk_key_entry KE_KEY KEY_F3 KEY_RESERVED;
    mk_key_entry KE_KEY KEY_F4 KEY_RESERVED;
    mk_key_entry KE_KEY KEY_F5 KEY_KBDILLUMDOWN;
    mk_key_entry KE_KEY KEY_F6 KEY_KBDILLUMUP;
    mk_key_entry KE_KEY KEY_F7 KEY_PREVIOUSSONG;
    mk_key_entry KE_KEY KEY_F8 KEY_PLAYPAUSE;
    mk_key_entry KE_KEY KEY_F9 KEY_NEXTSONG;
    mk_key_entry KE_KEY KEY_F10 KEY_MUTE;
    mk_key_entry KE_KEY KEY_F11 KEY_VOLUMEDOWN;
    mk_key_entry KE_KEY KEY_F12 KEY_VOLUMEUP;
    mk_key_entry KE_END 0 0 ].

(** [struct appletb_kbd].  [mode_field] points into the report
    structures of the device; what the driver uses of them is
    [mode_field->value[0]] and the type and id of
    [mode_field->report]. *)
Record appletb_kbd := mk_appletb_kbd {
  mode_field_value : Z;
  mode_report_type : Z;
  mode_report_id : Z;
  quirks : Z;
  saved_mode : Z;
  current_mode : Z
}.

Inductive kbd_message :=
| Device_didnt_resume (ret : Z)
| Failed_to_set_mode (mode ret : Z)
| HID_parse_failed (ret : Z)
| HID_hw_start_failed (ret : Z)
| HID_hw_open_failed (ret : Z)
| Failed_to_set_touchbar_mode (ret : Z).

(** What the driver does to its surroundings, in order: calls on its
    HID device with the value the host returned, the USB control message
    and the sleep of the T1 path, and the messages it prints. *)
Inductive kbd_call :=
| on_device (call : hw_call)
| hid_hw_power (level : Z) (ret : Z)
| hid_hw_request (report_type report_id value0 : Z) (reqtype : Z)
| usb_control_msg (request requesttype value index : Z)
                  (data : list Z) (size timeout : Z) (ret : Z)
| usleep_range (min max : Z)
| printed (message : kbd_message).

(** What the host answers during one [appletb_kbd_set_mode]:
    [usb_control_msg_ret tries] is what the control message sent after
    [tries] failed tries returns, [bInterfaceNumber] the number of the
    USB interface the device sits on. *)
Record set_mode_host := mk_set_mode_host {
  hid_hw_power_fullon_ret : Z;
  kmemdup_ok : bool;
  bInterfaceNumber : Z;
  usb_control_msg_ret : nat → Z;
  hid_hw_power_normal_ret : Z
}.

Section set_mode.
Context `{hid_usb_constants}.
Variable host : set_mode_host.
Variable kbd : appletb_kbd.
Variable mode : Z.

(** The control message of the T1 path, with the value it returned:
    request [HID_REQ_SET_REPORT], the report's type and id in [wValue],
    the interface number in [wIndex], and the one byte [mode] as data. *)
Definition set_report_msg (ret : Z) : kbd_call :=
  usb_control_msg HID_REQ_SET_REPORT
    (Z.lor (Z.lor USB_DIR_OUT USB_TYPE_VENDOR) USB_RECIP_DEVICE)
    (Z.lor (Z.shiftl (mode_report_type kbd + 1) 8) (mode_report_id kbd))
    (bInterfaceNumber host) [mode] 1 2000 ret.

(** The [do ... while (++tries < 5)] loop, entered with [tries]; one
    unit of [fuel] pays for one turn. *)
Fixpoint set_report_loop (fuel : nat) (tries : nat)
  : option (list kbd_call * Z) :=
  match fuel with
  | O => None
  | S fuel =>
      let ret := usb_control_msg_ret host tries in
      let msg := set_report_msg ret in
      if negb (ret =? - EPIPE)%Z then Some ([msg], ret) (* break *)
      else
        let sleep :=
          usleep_range (Z.shiftl 1000 (Z.of_nat tries))
                       (Z.shiftl 3000 (Z.of_nat tries)) in
        if S tries <? 5 then
          match set_report_loop fuel (S tries) with
          | Some (calls, ret) => Some (msg :: sleep :: calls, ret)
          | None => None
          end
        else Some ([msg; sleep], ret)
  end.

(** The tries that stall in front of the first that does not, five at
    most. *)
Fixpoint stalled_tries (room tries : nat) : nat :=
  match room with
  | O => 0
  | S room =>
      if (usb_control_msg_ret host tries =? - EPIPE)%Z
      then S (stalled_tries room (S tries))
      else 0
  end.

(** [appletb_kbd_set_mode(kbd, mode)]: the value returned, the
    structure afterwards, and what was done on the way.  Five turns are
    all the loop can take (lemma [set_report_loop_total]). *)
Definition appletb_kbd_set_mode : Z * appletb_kbd * list kbd_call :=
  if (APPLETB_KBD_MODE_MAX <? mode)%Z then ((- EINVAL)%Z, kbd, [])
  else
    let ret := hid_hw_power_fullon_ret host in
    let power_on := hid_hw_power PM_HINT_FULLON ret in
    if negb (ret =? 0)%Z then
      (ret, kbd, [power_on; printed (Device_didnt_resume ret)])
    else
      let '(ret, kbd, calls) :=
        if negb (Z.land (quirks kbd) APPLETB_KBD_QUIRK_IS_T1 =? 0)%Z then
          if negb (kmemdup_ok host) then ((- ENOMEM)%Z, kbd, [])
          else
            let '(calls, ret) :=
              default ([], ret) (set_report_loop 5 0) in
            (ret, kbd, calls)
        else
          (ret,
           mk_appletb_kbd mode (mode_report_type kbd) (mode_report_id kbd)
                          (quirks kbd) (saved_mode kbd) (current_mode kbd),
           [hid_hw_request (mode_report_type kbd) (mode_report_id kbd) mode
                           HID_REQ_SET_REPORT]) in
      (* power_normal: *)
      let calls :=
        power_on :: calls
        ++ [hid_hw_power PM_HINT_NORMAL (hid_hw_power_normal_ret host)] in
      if (ret <? 0)%Z then
        (ret, kbd, calls ++ [printed (Failed_to_set_mode mode ret)])
      else
        (0%Z,
         mk_appletb_kbd (mode_field_value kbd) (mode_report_type kbd)
                        (mode_report_id kbd) (quirks kbd) (saved_mode kbd)
                        mode,
         calls).

End set_mode.

(** [appletb_tb_key_to_slot(code)].  Inside the case ranges the
    subtraction does not wrap. *)
Definition appletb_tb_key_to_slot `{input_event_codes} (code : Z) : Z :=
  if (code =? KEY_ESC)%Z then 0%Z
  else if (KEY_F1 <=? code)%Z && (code <=? KEY_F10)%Z
  then (code - KEY_F1 + 1)%Z
  else if (KEY_F11 <=? code)%Z && (code <=? KEY_F12)%Z
  then (code - KEY_F11 + 11)%Z
  else (- EINVAL)%Z.

(** [struct hid_usage], as far as the driver reads it. *)
Record hid_usage := mk_hid_usage {
  usage_hid : Z;
  usage_type : Z;
  usage_code : Z
}.

(** One call of [input_event(input, type, code, value)]. *)
Record input_event := mk_input_event {
  ev_type : Z;
  ev_code : Z;
  ev_value : Z
}.

(** [appletb_kbd_hid_event(hdev, field, usage, value)]: the events
    handed to the input device and the value returned.  [translation]
    is what [sparse_keymap_entry_from_scancode] finds in the input
    device's keymap for a scan code ([None] is NULL). *)
Definition appletb_kbd_hid_event `{input_event_codes} `{hid_usb_constants}
    (translation : Z → option key_entry) (kbd : appletb_kbd)
    (usage : hid_usage) (value : Z) : list input_event * Z :=
  if negb (Z.land (usage_hid usage) HID_USAGE_PAGE =? HID_UP_KEYBOARD)%Z
     || negb (usage_type usage =? EV_KEY)%Z
  then ([], 0%Z)
  else
    let slot := appletb_tb_key_to_slot (usage_code usage) in
    if (slot <? 0)%Z then ([], 0%Z)
    else
      match translation (usage_code usage) with
      | Some entry =>
          if (current_mode kbd =? APPLETB_KBD_MODE_SPCL)%Z then
            ([mk_input_event (usage_type usage) (ke_keycode entry) value],
             1%Z)
          else ([], Z.b2z (current_mode kbd =? APPLETB_KBD_MODE_OFF)%Z)
      | None => ([], Z.b2z (current_mode kbd =? APPLETB_KBD_MODE_OFF)%Z)
      end.

(** The first entry of a sparse keymap with the scan code [code], as
    the lookup the input core does for the driver goes through the table
    up to its [KE_END] entry. *)
Fixpoint keymap_entry_from_scancode (keymap : list key_entry) (code : Z)
  : option key_entry :=
  match keymap with
  | [] => None
  | entry :: keymap =>
      match ke_type entry with
      | KE_END => None
      | KE_KEY =>
          if (code =? ke_code entry)%Z then Some entry
          else keymap_entry_from_scancode keymap code
      end
  end.

(** [appletb_kbd_suspend(hdev, msg)] *)
Definition appletb_kbd_suspend `{hid_usb_constants} (host : set_mode_host)
    (kbd : appletb_kbd) : Z * appletb_kbd * list kbd_call :=
  let kbd :=
    mk_appletb_kbd (mode_field_value kbd) (mode_report_type kbd)
                   (mode_report_id kbd) (quirks kbd) (current_mode kbd)
                   (current_mode kbd) in
  let '(_, kbd, calls) :=
    appletb_kbd_set_mode host kbd APPLETB_KBD_MODE_OFF in
  (0%Z, kbd, calls).

(** [appletb_kbd_reset_resume(hdev)] *)
Definition appletb_kbd_reset_resume `{hid_usb_constants}
    (host : set_mode_host) (kbd : appletb_kbd)
  : Z * appletb_kbd * list kbd_call :=
  let '(_, kbd, calls) := appletb_kbd_set_mode host kbd (saved_mode kbd) in
  (0%Z, kbd, calls).

(** What the host answers to the calls of [appletb_kbd_probe]:
    [driver_data] is [id->driver_data], [mode_field] what
    [hid_find_field] finds (the type and id of the field's report;
    [None] is NULL), and [set_mode_off] the host during the
    [appletb_kbd_set_mode] that ends the probe. *)
Record probe_host := mk_probe_host {
  driver_data : Z;
  hid_is_usb : bool;
  hid_parse_ret : Z;
  mode_field : option (Z * Z * Z);
  devm_kzalloc_ok : bool;
  hid_hw_start_ret : Z;
  hid_hw_open_ret : Z;
  set_mode_off : set_mode_host
}.

(** [appletb_kbd_probe(hdev, id)]: the value returned,
    [hid_get_drvdata(hdev)] afterwards, and what was done. *)
Definition appletb_kbd_probe `{hid_usb_constants} (host : probe_host)
  : Z * option appletb_kbd * list kbd_call :=
  let quirks := driver_data host in
  if negb (Z.land quirks APPLETB_KBD_QUIRK_IS_T1 =? 0)%Z
     && negb (hid_is_usb host)
  then ((- ENODEV)%Z, None, [])
  else
    let ret := hid_parse_ret host in
    let calls := [on_device (hid_parse ret)] in
    if negb (ret =? 0)%Z then
      (ret, None, calls ++ [printed (HID_parse_failed ret)])
    else
      match mode_field host with
      | None => ((- ENODEV)%Z, None, calls)
      | Some (value0, report_type, report_id) =>
          if negb (devm_kzalloc_ok host) then ((- ENOMEM)%Z, None, calls)
          else
            let kbd :=
              mk_appletb_kbd value0 report_type report_id quirks 0 0 in
            let ret := hid_hw_start_ret host in
            let calls := calls ++ [on_device (hid_hw_start ret)] in
            if negb (ret =? 0)%Z then
              (ret, None, calls ++ [printed (HID_hw_start_failed ret)])
            else
              let ret := hid_hw_open_ret host in
              let calls := calls ++ [on_device (hid_hw_open ret)] in
              if negb (ret =? 0)%Z then
                (* goto stop_hw *)
                (ret, None,
                 calls ++ [printed (HID_hw_open_failed ret);
                           on_device hid_hw_stop])
              else
                let '(ret, kbd, set_calls) :=
                  appletb_kbd_set_mode (set_mode_off host) kbd
                                       APPLETB_KBD_MODE_OFF in
                let calls := calls ++ set_calls in
                if negb (ret =? 0)%Z then
                  (* goto close_hw *)
                  (ret, None,
                   calls ++ [printed (Failed_to_set_touchbar_mode ret);
                             on_device hid_hw_close; on_device hid_hw_stop])
                else (0%Z, Some kbd, calls)
      end.

(** [appletb_kbd_remove(hdev)], [kbd] being [hid_get_drvdata(hdev)]. *)
Definition appletb_kbd_remove `{hid_usb_constants} (host : set_mode_host)
    (kbd : appletb_kbd) : appletb_kbd * list kbd_call :=
  let '(_, kbd, calls) :=
    appletb_kbd_set_mode host kbd APPLETB_KBD_MODE_OFF in
  (kbd, calls ++ [on_device hid_hw_close; on_device hid_hw_stop]).

(** The calls among [calls] made on the HID device's start, stop, open
    and close. *)
Definition device_calls (calls : list kbd_call) : list hw_call :=
  omap (λ call, match call with on_device c => Some c | _ => None end) calls.

(** How far the power hints among [calls] are from paired: a
    [hid_hw_power(hdev, PM_HINT_FULLON)] that returned 0 counts one up,
    a [hid_hw_power(hdev, PM_HINT_NORMAL)] one down. *)
Definition power_hints_open `{hid_usb_constants} (calls : list kbd_call)
  : Z :=
  foldl (λ n call,
           match call with
           | hid_hw_power level ret =>
               if (level =? PM_HINT_FULLON)%Z && (ret =? 0)%Z then (n + 1)%Z
               else if (level =? PM_HINT_NORMAL)%Z then (n - 1)%Z
               else n
           | _ => n
           end) 0%Z calls.

(** The control messages among [calls], and the sleeps. *)
Definition control_messages (calls : list kbd_call) : list kbd_call :=
  omap (λ call, match call with
                | usb_control_msg _ _ _ _ _ _ _ _ => Some call
                | _ => None
                end) calls.

Definition sleeps (calls : list kbd_call) : list (Z * Z) :=
  omap (λ call, match call with usleep_range a b => Some (a, b)
                           | _ => None end) calls.

End AppletbKbd.

(** ** More sample inputs *)

Module MoreSamples.
Import Host Descriptor Samples.

(** Usage Page (1), Usage (6), then an extended Usage item whose four
    bytes hold 0x00200041, and an empty Collection (Application). *)
Definition extended_usage_rdesc : list Z :=
  [ 0x05; 0x01;  0x09; 0x06;  0x0b; 0x41; 0x00; 0x20; 0x00;
    0xa1; 0x01;  0xc0 ]%Z.

(** One top-level collection: Usage Page (0x20), Usage (0x41) and an
    empty Collection (Application). *)
Definition single_collection_rdesc : list Z :=
  [ 0x05; 0x20;  0x09; 0x41;  0xa1; 0x01;  0xc0 ]%Z.

End MoreSamples.

Module KbdSamples.
Import AppletbKbd.

(** The values of [linux/input-event-codes.h]. *)
Definition linux_input_event_codes : input_event_codes :=
  {| EV_KEY := 0x01;
     KEY_RESERVED := 0; KEY_ESC := 1;
     KEY_F1 := 59; KEY_F2 := 60; KEY_F3 := 61; KEY_F4 := 62; KEY_F5 := 63;
     KEY_F6 := 64; KEY_F7 := 65; KEY_F8 := 66; KEY_F9 := 67; KEY_F10 := 68;
     KEY_F11 := 87; KEY_F12 := 88;
     KEY_BRIGHTNESSDOWN := 224; KEY_BRIGHTNESSUP := 225;
     KEY_KBDILLUMDOWN := 229; KEY_KBDILLUMUP := 230;
     KEY_PREVIOUSSONG := 165; KEY_PLAYPAUSE := 164; KEY_NEXTSONG := 163;
     KEY_MUTE := 113; KEY_VOLUMEDOWN := 114; KEY_VOLUMEUP := 115 |}.

(** The values of [linux/hid.h], [linux/usb/ch9.h] and [linux/pm.h]. *)
Definition linux_hid_usb_constants : hid_usb_constants :=
  {| HID_USAGE_PAGE := 0xffff0000; HID_UP_KEYBOARD := 0x00070000;
     HID_REQ_SET_REPORT := 0x09;
     USB_DIR_OUT := 0; USB_TYPE_VENDOR := 0x40; USB_RECIP_DEVICE := 0;
     PM_HINT_FULLON := 0x20; PM_HINT_NORMAL := 0x02 |}.

(** A T1 Touch Bar in keyboard mode: the mode field sits in output
    report 0 (type 1, [HID_OUTPUT_REPORT]). *)
Definition t1_kbd (mode : Z) : appletb_kbd :=
  mk_appletb_kbd 0 1 0 APPLETB_KBD_QUIRK_IS_T1 0 mode.

(** A host whose first [n] control messages stall with [-EPIPE] and
    whose later ones transfer the one byte. *)
Definition stalls (n : nat) : set_mode_host :=
  mk_set_mode_host 0 true 2 (λ tries, if tries <? n then (- EPIPE)%Z else 1%Z)
                   0.

End KbdSamples.

(** * Properties of the scanner *)

Section scanner_facts.
Import HidCore Scanner Descriptor.
Context `{hid_host}.
Variable rdesc : list Z.
Variable e : nat.

(** Every fetched item is at least one byte long and ends inside the
    stream. *)
Lemma hid_fetch_item_bounds start next item :
  hid_fetch_item rdesc start e = Some (next, item) → start < next ≤ e.
Proof.
  unfold hid_fetch_item.
  destruct (e <=? start) eqn:He; [discriminate|].
  apply Nat.leb_gt in He.
  destruct (Z.land (Z.shiftr (byte_at rdesc start) 4) 15 =? _)%Z.
  - destruct (e - S start <? 2) eqn:H2; [discriminate|].
    apply Nat.ltb_ge in H2.
    destruct (Z.of_nat _ <? _)%Z eqn:H3; [discriminate|].
    apply Z.ltb_ge in H3. intros [= <- _]. lia.
  - destruct (Z.land (byte_at rdesc start) 3) as [|p|p]; try discriminate.
    + intros [= <- _]. lia.
    + destruct p as [[p|p|]|[p|p|]|]; try discriminate.
      * destruct (e - S start <? 4) eqn:H4; [discriminate|].
        apply Nat.ltb_ge in H4. intros [= <- _]. lia.
      * destruct (e - S start <? 2) eqn:H4; [discriminate|].
        apply Nat.ltb_ge in H4. intros [= <- _]. lia.
      * destruct (e - S start <? 1) eqn:H4; [discriminate|].
        apply Nat.ltb_ge in H4. intros [= <- _]. lia.
Qed.

Lemma hid_fetch_item_at_end start :
  e ≤ start → hid_fetch_item rdesc start e = None.
Proof.
  intros He. unfold hid_fetch_item.
  destruct (e <=? start) eqn:Hle; [done|]. apply Nat.leb_gt in Hle. lia.
Qed.

(** One turn of the scanner's loop, written with the item's class. *)
Lemma find_collection_loop_step fuel start depth usage :
  find_collection_loop rdesc e (S fuel) start depth usage =
  match hid_fetch_item rdesc start e with
  | None => Some (e, usage)
  | Some (next, item) =>
      match classify_item item with
      | collection_begin =>
          find_collection_loop rdesc e fuel next (depth + 1)%Z usage
      | collection_end =>
          if (depth - 1 <=? 0)%Z then Some (next, usage)
          else find_collection_loop rdesc e fuel next (depth - 1)%Z usage
      | global_usage_page value =>
          find_collection_loop rdesc e fuel next depth
            (if (depth =? 0)%Z
             then Z.lor (Z.land usage 0x0000ffff)
                        (Z.shiftl (Z.land value 0xffff) 16)
             else usage)
      | local_usage value =>
          find_collection_loop rdesc e fuel next depth
            (if (depth =? 0)%Z
             then Z.lor (Z.land usage 0xffff0000) (Z.land value 0xffff)
             else usage)
      | other => find_collection_loop rdesc e fuel next depth usage
      end
  end.
Proof.
  simpl. destruct (hid_fetch_item rdesc start e) as [[next item]|]; [|done].
  unfold classify_item.
  destruct (item_type item =? HID_ITEM_TYPE_MAIN)%Z eqn:Hmain.
  { destruct (item_tag item =? HID_MAIN_ITEM_TAG_BEGIN_COLLECTION)%Z; [done|].
    destruct (item_tag item =? HID_MAIN_ITEM_TAG_END_COLLECTION)%Z; done. }
  destruct (item_type item =? HID_ITEM_TYPE_GLOBAL)%Z eqn:Hglobal.
  { apply Z.eqb_eq in Hglobal.
    assert ((item_type item =? HID_ITEM_TYPE_LOCAL)%Z = false) as ->
      by (rewrite Hglobal; done).
    destruct (item_tag item =? HID_GLOBAL_ITEM_TAG_USAGE_PAGE)%Z; simpl;
      [|done].
    destruct (depth =? 0)%Z; done. }
  simpl.
  destruct (item_type item =? HID_ITEM_TYPE_LOCAL)%Z; simpl; [|done].
  destruct (item_tag item =? HID_LOCAL_ITEM_TAG_USAGE)%Z; simpl; [|done].
  destruct (depth =? 0)%Z; done.
Qed.

(** The fuel [appleib_find_collection] gives its loop is enough. *)
Lemma find_collection_loop_total fuel start depth usage :
  e - start < fuel →
  is_Some (find_collection_loop rdesc e fuel start depth usage).
Proof.
  revert start depth usage.
  induction fuel as [|fuel IH]; intros start depth usage Hfuel; [lia|].
  rewrite find_collection_loop_step.
  destruct (hid_fetch_item rdesc start e) as [[next item]|] eqn:Hfetch;
    [|by eexists].
  apply hid_fetch_item_bounds in Hfetch.
  destruct (classify_item item); try (apply IH; lia).
  destruct (depth - 1 <=? 0)%Z; [by eexists|apply IH; lia].
Qed.

(** More fuel does not change a result. *)
Lemma find_collection_loop_mono fuel fuel' start depth usage r :
  find_collection_loop rdesc e fuel start depth usage = Some r →
  fuel ≤ fuel' →
  find_collection_loop rdesc e fuel' start depth usage = Some r.
Proof.
  revert fuel' start depth usage.
  induction fuel as [|fuel IH]; intros fuel' start depth usage Hr Hle;
    [discriminate|].
  destruct fuel' as [|fuel']; [lia|].
  rewrite find_collection_loop_step in Hr |- *.
  destruct (hid_fetch_item rdesc start e) as [[next item]|]; [|done].
  destruct (classify_item item); try (apply IH; [done|lia]).
  destruct (depth - 1 <=? 0)%Z; [done|apply IH; [done|lia]].
Qed.

Lemma appleib_find_collection_fuel fuel start r :
  find_collection_loop rdesc e fuel start 0 0 = Some r →
  appleib_find_collection rdesc e start = r.
Proof.
  intros Hr. unfold appleib_find_collection.
  destruct (find_collection_loop_total (S (e - start)) start 0 0) as [r' Hr'];
    [lia|].
  rewrite Hr'. simpl.
  destruct (Nat.le_ge_cases fuel (S (e - start))) as [Hle|Hle].
  - apply (find_collection_loop_mono _ _ _ _ _ _ Hr) in Hle. congruence.
  - apply (find_collection_loop_mono _ _ _ _ _ _ Hr') in Hle. congruence.
Qed.

End scanner_facts.

(** ** The scanner's bit operations against the halves of a usage *)

Section usage_bits.
Import Descriptor.
Local Open Scope Z_scope.

Lemma land_low16 x : Z.land x 0xffff = x mod 2 ^ 16.
Proof. change 0xffff with (Z.ones 16). by rewrite Z.land_ones. Qed.

Lemma land_high16 x :
  Z.land x 0xffff0000 = ((x / 2 ^ 16) mod 2 ^ 16) * 2 ^ 16.
Proof.
  rewrite <- Z.shiftl_mul_pow2, <- Z.shiftr_div_pow2, <- Z.land_ones by lia.
  change 0xffff0000 with (Z.shiftl (Z.ones 16) 16).
  apply Z.bits_inj'. intros n Hn.
  rewrite Z.land_spec.
  destruct (Z.lt_ge_cases n 16) as [Hlt|Hge].
  - rewrite !Z.shiftl_spec_low by lia. apply andb_false_r.
  - rewrite !Z.shiftl_spec_high by lia.
    rewrite Z.land_spec, Z.shiftr_spec by lia.
    by replace (n - 16 + 16) with n by lia.
Qed.

Lemma lor_halves hi lo :
  0 ≤ lo < 2 ^ 16 → Z.lor (hi * 2 ^ 16) lo = hi * 2 ^ 16 + lo.
Proof.
  intros Hlo.
  assert (Z.land (hi * 2 ^ 16) lo = 0) as Hdisj.
  { rewrite <- Z.shiftl_mul_pow2 by lia.
    apply Z.bits_inj'. intros n Hn. rewrite Z.land_spec, Z.bits_0.
    destruct (Z.lt_ge_cases n 16) as [Hlt|Hge].
    - by rewrite Z.shiftl_spec_low.
    - rewrite <- (Z.mod_small lo (2 ^ 16)) by lia.
      rewrite Z.mod_pow2_bits_high by lia. apply andb_false_r. }
  rewrite (Z.add_nocarry_lxor _ _ Hdisj). symmetry. by apply Z.lxor_lor.
Qed.

(** [( *usage & 0x0000ffff) | ((udata & 0xffff) << 16)] replaces the
    high half. *)
Lemma usage_page_update usage value :
  Z.lor (Z.land usage 0x0000ffff) (Z.shiftl (Z.land value 0xffff) 16)
  = set_high16 usage value.
Proof.
  unfold set_high16, make_usage.
  change 0x0000ffff with 0xffff.
  rewrite !land_low16, Z.shiftl_mul_pow2, Z.lor_comm by lia.
  apply lor_halves, Z.mod_pos_bound. lia.
Qed.

(** [( *usage & 0xffff0000) | (udata & 0xffff)] replaces the low
    half. *)
Lemma usage_update usage value :
  Z.lor (Z.land usage 0xffff0000) (Z.land value 0xffff)
  = set_low16 usage value.
Proof.
  unfold set_low16, make_usage.
  rewrite land_low16, land_high16.
  apply lor_halves, Z.mod_pos_bound. lia.
Qed.

Lemma make_usage_range page id : 0 ≤ make_usage page id < 2 ^ 32.
Proof.
  unfold make_usage.
  pose proof (Z.mod_pos_bound page (2 ^ 16)).
  pose proof (Z.mod_pos_bound id (2 ^ 16)). lia.
Qed.
End usage_bits.

(** ** The scanner against the walk of section 4.2 *)

Section scanner_walk.
Import HidCore Scanner Descriptor.
Context `{hid_host}.
Variable rdesc : list Z.
Variable e : nat.

Lemma find_collection_loop_scan_items fuel start depth usage :
  e - start < fuel →
  find_collection_loop rdesc e fuel start depth usage
  = Some (scan_items e (items_loop rdesc e fuel start) depth usage).
Proof.
  revert start depth usage.
  induction fuel as [|fuel IH]; intros start depth usage Hfuel; [lia|].
  rewrite find_collection_loop_step. simpl.
  destruct (hid_fetch_item rdesc start e) as [[next item]|] eqn:Hfetch;
    [|done].
  apply hid_fetch_item_bounds in Hfetch. simpl.
  destruct (classify_item item).
  - apply IH; lia.
  - destruct (depth - 1 <=? 0)%Z; [done|apply IH; lia].
  - rewrite usage_page_update. apply IH; lia.
  - rewrite usage_update. apply IH; lia.
  - apply IH; lia.
Qed.

(** The fuel [descriptor_items] gives its loop is enough: more fuel
    finds no more items. *)
Lemma items_loop_fuel fuel fuel' start :
  e - start < fuel → e - start < fuel' →
  items_loop rdesc e fuel start = items_loop rdesc e fuel' start.
Proof.
  revert fuel' start.
  induction fuel as [|fuel IH]; intros fuel' start Hfuel Hfuel'; [lia|].
  destruct fuel' as [|fuel']; [lia|]. simpl.
  destruct (hid_fetch_item rdesc start e) as [[next item]|] eqn:Hfetch;
    [|done].
  apply hid_fetch_item_bounds in Hfetch. f_equal. apply IH; lia.
Qed.

Lemma appleib_find_collection_scan_items start :
  appleib_find_collection rdesc e start
  = scan_items e (descriptor_items rdesc e start) 0 0.
Proof.
  unfold appleib_find_collection, descriptor_items.
  rewrite find_collection_loop_scan_items by lia. done.
Qed.

Local Abbreviation scans := (Scanner.scans rdesc e).

Lemma scans_find_collection start r :
  scans start 0 0 r → appleib_find_collection rdesc e start = r.
Proof. intros [fuel Hr]. by eapply appleib_find_collection_fuel. Qed.

Lemma scans_item a b item depth usage r :
  hid_fetch_item rdesc a e = Some (b, item) →
  scans b
    (match classify_item item with
     | collection_begin => depth + 1
     | collection_end => depth - 1
     | _ => depth
     end)%Z
    (if (depth =? 0)%Z then header_step usage item else usage) r →
  (classify_item item = collection_end → (0 < depth - 1)%Z) →
  scans a depth usage r.
Proof.
  intros Hfetch [fuel Hr] Hend. exists (S fuel).
  rewrite find_collection_loop_step, Hfetch.
  unfold header_step in Hr.
  destruct (classify_item item).
  - by destruct (depth =? 0)%Z.
  - destruct (depth - 1 <=? 0)%Z eqn:Hd.
    + apply Z.leb_le in Hd. specialize (Hend eq_refl). lia.
    + by destruct (depth =? 0)%Z.
  - rewrite usage_page_update. by destruct (depth =? 0)%Z.
  - rewrite usage_update. by destruct (depth =? 0)%Z.
  - by destruct (depth =? 0)%Z.
Qed.

Lemma scans_end a b item depth usage :
  hid_fetch_item rdesc a e = Some (b, item) →
  classify_item item = collection_end →
  (depth - 1 ≤ 0)%Z →
  scans a depth usage (b, usage).
Proof.
  intros Hfetch Hend Hd. exists 1.
  rewrite find_collection_loop_step, Hfetch, Hend.
  apply Z.leb_le in Hd. by rewrite Hd.
Qed.

Lemma fetches_app_inv a c items1 items2 :
  fetches rdesc e a (items1 ++ items2) c →
  ∃ b, fetches rdesc e a items1 b ∧ fetches rdesc e b items2 c.
Proof.
  revert a. induction items1 as [|item items1 IH]; intros a Hf; simpl in *.
  - exists a. split; [constructor|done].
  - inversion Hf as [|? b ? ? ? Hfetch Hrest]; subst.
    destruct (IH _ Hrest) as (b' & H1 & H2).
    exists b'. split; [by econstructor|done].
Qed.

Lemma fetches_app a b c items1 items2 :
  fetches rdesc e a items1 b → fetches rdesc e b items2 c →
  fetches rdesc e a (items1 ++ items2) c.
Proof.
  induction 1; intros Hrest; simpl; [done|].
  econstructor; [done|]. auto.
Qed.

Lemma fetches_le a b items : fetches rdesc e a items b → a ≤ b.
Proof.
  induction 1 as [|a b c item items Hfetch _ IH]; [done|].
  apply hid_fetch_item_bounds in Hfetch. lia.
Qed.

(** Header items at depth 0 only move the usage. *)
Lemma scans_header a p header usage r :
  fetches rdesc e a header p →
  Forall (λ item, ¬ is_delimiter item) header →
  scans p 0 (foldl header_step usage header) r →
  scans a 0 usage r.
Proof.
  intros Hf. revert usage.
  induction Hf as [|a b c item items Hfetch _ IH]; intros usage Hnd Hr;
    [done|].
  inversion Hnd as [|? ? Hitem Hitems]; subst.
  eapply scans_item; [done| |].
  - unfold is_delimiter in Hitem.
    destruct (classify_item item) eqn:Hc; try (by apply IH);
      exfalso; apply Hitem; auto.
  - intros Hc. exfalso. apply Hitem. by right.
Qed.

(** A properly bracketed run of items below the top level changes
    neither the depth nor the usage. *)
Lemma scans_nested body :
  nested body →
  ∀ a p depth usage r,
    fetches rdesc e a body p →
    (1 ≤ depth)%Z →
    scans p depth usage r →
    scans a depth usage r.
Proof.
  induction 1 as [|item items Hitem _ IH
                  |b inner c items Hb _ IHinner Hc _ IHitems];
    intros a p depth usage r Hf Hd Hr.
  - by inversion Hf; subst.
  - inversion Hf as [|? a' ? ? ? Hfetch Hrest]; subst.
    eapply scans_item; [done| |].
    + assert ((depth =? 0)%Z = false) as -> by (apply Z.eqb_neq; lia).
      unfold is_delimiter in Hitem.
      destruct (classify_item item) eqn:Hcl; try (by eapply IH);
        exfalso; apply Hitem; auto.
    + intros Hcl. exfalso. apply Hitem. by right.
  - inversion Hf as [|? a1 ? ? ? Hfetchb Hrest]; subst.
    apply fetches_app_inv in Hrest as (a2 & Hinner & Hrest).
    inversion Hrest as [|? a3 ? ? ? Hfetchc Hitems]; subst.
    assert ((depth =? 0)%Z = false) as Hd0 by (apply Z.eqb_neq; lia).
    eapply scans_item; [exact Hfetchb| |congruence].
    rewrite Hb, Hd0.
    eapply IHinner; [exact Hinner|lia|].
    eapply scans_item; [exact Hfetchc| |lia].
    rewrite Hc.
    assert ((depth + 1 =? 0)%Z = false) as -> by (apply Z.eqb_neq; lia).
    replace (depth + 1 - 1)%Z with depth by lia.
    by eapply IHitems.
Qed.

(** On a well-formed top-level collection the scanner returns the
    offset just past the collection's end and the usage its header
    declares. *)
Lemma find_collection_collection_at a b usage :
  collection_at rdesc e a b usage →
  appleib_find_collection rdesc e a = (b, usage).
Proof.
  intros (header & body & (p1 & bgn & p2 & p3 & endc
          & Hhdr & Hnd & Hbgn & Hcb & Hbody & Hnest & Hend & Hce) & ->).
  apply scans_find_collection.
  eapply scans_header; [exact Hhdr|exact Hnd|].
  fold (header_usage header).
  eapply scans_item; [exact Hbgn| |congruence].
  rewrite Hcb. simpl.
  assert (header_step (header_usage header) bgn = header_usage header) as ->
    by (unfold header_step; by rewrite Hcb).
  eapply scans_nested; [exact Hnest|exact Hbody|lia|].
  eapply scans_end; [exact Hend|exact Hce|lia].
Qed.

End scanner_walk.

(** * The scanner's contract *)

Section scanner_contract.
Import HidCore Scanner Descriptor.

(** C1, amended.  For every byte stream and every start offset the
    scanner computes the walk of section 4.2 over the stream's items:
    depth from 0, up on a collection begin, down on a collection end,
    stopping just past the end that brings the depth to 0 or below, a
    usage-page item seen at depth 0 replacing the high 16 bits of the
    usage and a usage item seen at depth 0 the low 16 bits.  Hence on a
    well-formed collection it returns the offset just past the
    collection's own end, whatever sub-collections are nested inside,
    and the usage declared by the items in front of the collection's
    begin; for the header [UsagePage 0xFF12][Usage 0x0001] that usage is
    0xFF120001.  Usage items placed after the begin are at depth 1 and
    do not count. *)
Theorem find_collection_walks_items `{hid_host} (rdesc : list Z) (e : nat) :
  (∀ start,
     appleib_find_collection rdesc e start
     = scan_items e (descriptor_items rdesc e start) 0 0)
  ∧ (∀ a b usage,
       collection_at rdesc e a b usage →
       appleib_find_collection rdesc e a = (b, usage))
  ∧ (∀ page usage,
       classify_item page = global_usage_page 0xFF12 →
       classify_item usage = local_usage 0x0001 →
       header_usage [page; usage] = 0xFF120001%Z).
Proof.
  split; [apply appleib_find_collection_scan_items|].
  split; [apply find_collection_collection_at|].
  intros page usage Hpage Husage.
  unfold header_usage. simpl. unfold header_step.
  rewrite Hpage, Husage. reflexivity.
Qed.

(** The sample stream, with a nested collection inside the first
    top-level one: the scanner stops at offset 13 with 0xFF120001. *)
Lemma find_collection_walks_items_witness :
  appleib_find_collection (H := example_host) example_rdesc 20 0
  = (13, 0xFF120001%Z).
Proof.
  destruct (find_collection_walks_items (H := example_host) example_rdesc 20)
    as (_ & Hcollection & Hheader).
  apply Hcollection.
  exists [mk_hid_item HID_ITEM_FORMAT_SHORT 2 1 0 0xff12;
          mk_hid_item HID_ITEM_FORMAT_SHORT 1 2 0 0x01],
         [mk_hid_item HID_ITEM_FORMAT_SHORT 1 0 10 0x02;
          mk_hid_item HID_ITEM_FORMAT_SHORT 1 2 0 0x05;
          mk_hid_item HID_ITEM_FORMAT_SHORT 0 0 12 0].
  split; [|symmetry; by apply Hheader].
  exists 5, (mk_hid_item HID_ITEM_FORMAT_SHORT 1 0 10 0x01), 7,
         12, (mk_hid_item HID_ITEM_FORMAT_SHORT 0 0 12 0).
  split; [repeat (econstructor; [reflexivity|]); constructor|].
  split; [repeat constructor; intros [?|?]; discriminate|].
  split; [reflexivity|].
  split; [reflexivity|].
  split; [repeat (econstructor; [reflexivity|]); constructor|].
  split.
  { apply (nested_collection _ [_] _ []); try reflexivity;
      repeat constructor. intros [?|?]; discriminate. }
  split; reflexivity.
Defined.

(** C1 as written fails on the stream it names:
    [BeginCollection][UsagePage 0xFF12][Usage 0x0001][EndCollection]
    yields usage 0, not 0xFF120001. *)
Lemma find_collection_usage_inside_counterexample :
  map (classify_item ∘ fst)
      (descriptor_items (H := example_host) usage_inside_rdesc 8 0)
  = [collection_begin; global_usage_page 0xFF12; local_usage 0x0001;
     collection_end]
  ∧ appleib_find_collection (H := example_host) usage_inside_rdesc 8 0
    = (8, 0%Z)
  ∧ (appleib_find_collection (H := example_host) usage_inside_rdesc 8 0).2
    ≠ 0xFF120001%Z.
Proof. split; [reflexivity|]. split; [reflexivity|]. discriminate. Qed.

End scanner_contract.

(** * The descriptor fixup *)

Section fixup_facts.
Import HidCore Fixup.

Lemma byte_at_insert_ne (l : list Z) i j v :
  i ≠ j → byte_at (<[i := v]> l) j = byte_at l j.
Proof.
  intros Hne. unfold byte_at.
  by rewrite !nth_lookup, list_lookup_insert_ne.
Qed.

Lemma byte_at_insert_eq (l : list Z) i v :
  i < length l → byte_at (<[i := v]> l) i = v.
Proof.
  intros Hlt. unfold byte_at.
  by rewrite nth_lookup, list_lookup_insert_eq.
Qed.

Lemma first_field_matches_length rdesc :
  first_field_matches rdesc = true → length rdesc = 634.
Proof.
  unfold first_field_matches. rewrite !andb_true_iff.
  intros Hm. apply Nat.eqb_eq. tauto.
Qed.

Lemma second_field_matches_length rdesc :
  second_field_matches rdesc = true → length rdesc = 634.
Proof.
  unfold second_field_matches. rewrite !andb_true_iff.
  intros Hm. apply Nat.eqb_eq. tauto.
Qed.

(** The patch of either field leaves nothing for its own test to
    match. *)
Lemma first_field_patched rdesc :
  length rdesc = 634 →
  first_field_matches (<[435 := 2%Z]> (<[433 := 32%Z]> rdesc)) = false.
Proof.
  intros Hlen. unfold first_field_matches.
  rewrite (byte_at_insert_ne _ 435 433) by lia.
  rewrite byte_at_insert_eq by lia.
  simpl. rewrite !andb_false_r. done.
Qed.

Lemma second_field_patched rdesc :
  length rdesc = 634 →
  second_field_matches (<[630 := 2%Z]> (<[628 := 32%Z]> rdesc)) = false.
Proof.
  intros Hlen. unfold second_field_matches.
  rewrite (byte_at_insert_ne _ 630 628) by lia.
  rewrite byte_at_insert_eq by lia.
  simpl. rewrite !andb_false_r. done.
Qed.

(** The patch of one field is invisible to the test of the other. *)
Lemma first_field_after_second rdesc :
  first_field_matches (<[630 := 2%Z]> (<[628 := 32%Z]> rdesc))
  = first_field_matches rdesc.
Proof.
  unfold first_field_matches.
  rewrite !length_insert, !byte_at_insert_ne by lia. done.
Qed.

Lemma second_field_after_first rdesc :
  second_field_matches (<[435 := 2%Z]> (<[433 := 32%Z]> rdesc))
  = second_field_matches rdesc.
Proof.
  unfold second_field_matches.
  rewrite !length_insert, !byte_at_insert_ne by lia. done.
Qed.

Lemma appleib_report_fixup_no_match rdesc :
  first_field_matches (appleib_report_fixup rdesc) = false
  ∧ second_field_matches (appleib_report_fixup rdesc) = false.
Proof.
  unfold appleib_report_fixup.
  destruct (first_field_matches rdesc) eqn:H1.
  - pose proof (first_field_matches_length _ H1) as Hlen.
    rewrite second_field_after_first.
    destruct (second_field_matches rdesc) eqn:H2.
    + rewrite first_field_after_second, first_field_patched by done.
      split; [done|].
      apply second_field_patched. by rewrite !length_insert.
    + by rewrite first_field_patched, second_field_after_first.
  - destruct (second_field_matches rdesc) eqn:H2.
    + pose proof (second_field_matches_length _ H2) as Hlen.
      by rewrite first_field_after_second, second_field_patched.
    + done.
Qed.

(** C8.  The fixup is idempotent: the buffer it returns matches neither
    byte pattern any more, a buffer that matches neither pattern is
    returned as it is, and so a second pass returns what the first
    returned. *)
Theorem appleib_report_fixup_idempotent (rdesc : list Z) :
  appleib_report_fixup (appleib_report_fixup rdesc)
  = appleib_report_fixup rdesc
  ∧ first_field_matches (appleib_report_fixup rdesc) = false
  ∧ second_field_matches (appleib_report_fixup rdesc) = false
  ∧ (first_field_matches rdesc = false →
     second_field_matches rdesc = false →
     appleib_report_fixup rdesc = rdesc).
Proof.
  destruct (appleib_report_fixup_no_match rdesc) as [H1 H2].
  split; [|split; [done|split; [done|]]].
  - unfold appleib_report_fixup at 1. by rewrite H1, H2.
  - intros Hn1 Hn2. unfold appleib_report_fixup. by rewrite Hn1, Hn2.
Qed.

End fixup_facts.

(** * Open/close tracking and report fan-out, [hid-appleib.c] *)

Section appleib_open_facts.
Import Host HidAppleib.

(** The loop of [appleib_set_open] acts on the first slot that holds the
    device or is empty. *)
Lemma set_open_loop_first before i after info vdev open :
  (∀ j, j ∈ before →
        sub_hdevs info !!! j ≠ Dev vdev ∧ sub_hdevs info !!! j ≠ NULL) →
  sub_hdevs info !!! i = Dev vdev ∨ sub_hdevs info !!! i = NULL →
  set_open_loop (before ++ i :: after) info vdev open
  = (mk_info (hdev info) (sub_hdevs info)
             (if open then Z.setbit (sub_open info) (Z.of_nat i)
              else Z.clearbit (sub_open info) (Z.of_nat i)),
     0%Z).
Proof.
  intros Hbefore Hi.
  induction before as [|j before IH]; simpl.
  - destruct Hi as [-> | ->]; simpl; [|done].
    by rewrite bool_decide_eq_true_2.
  - destruct (Hbefore j) as [Hdev Hnull]; [by left|].
    rewrite (bool_decide_eq_false_2 _ Hdev), (bool_decide_eq_false_2 _ Hnull).
    simpl. apply IH. intros k Hk. apply Hbefore. by right.
Qed.

Lemma set_open_loop_none idxs info vdev open :
  (∀ j, j ∈ idxs →
        sub_hdevs info !!! j ≠ Dev vdev ∧ sub_hdevs info !!! j ≠ NULL) →
  set_open_loop idxs info vdev open = (info, (- ENODEV)%Z).
Proof.
  induction idxs as [|j idxs IH]; intros Hall; simpl; [done|].
  destruct (Hall j) as [Hdev Hnull]; [by left|].
  rewrite (bool_decide_eq_false_2 _ Hdev), (bool_decide_eq_false_2 _ Hnull).
  simpl. apply IH. intros k Hk. apply Hall. by right.
Qed.

Lemma seq_split_at i n :
  i < n → seq 0 n = seq 0 i ++ i :: seq (S i) (n - S i).
Proof.
  intros Hlt. replace n with (i + S (n - S i)) at 1 by lia.
  by rewrite seq_app.
Qed.

Lemma appleib_set_open_first info vdev open i :
  i < NUM_SUB_HDEVS →
  (∀ j, j < i →
        sub_hdevs info !!! j ≠ Dev vdev ∧ sub_hdevs info !!! j ≠ NULL) →
  sub_hdevs info !!! i = Dev vdev ∨ sub_hdevs info !!! i = NULL →
  appleib_set_open info vdev open
  = (mk_info (hdev info) (sub_hdevs info)
             (if open then Z.setbit (sub_open info) (Z.of_nat i)
              else Z.clearbit (sub_open info) (Z.of_nat i)),
     0%Z).
Proof.
  intros Hi Hbefore Hslot. unfold appleib_set_open.
  rewrite (seq_split_at i) by done.
  apply set_open_loop_first; [|done].
  intros j Hj. apply Hbefore.
  apply elem_of_seq in Hj. lia.
Qed.

(** [hid-appleib.c]: an open call for a device that no slot of the
    table holds is not rejected: it returns 0 and sets the open bit of
    the first empty slot, the slot the device being registered is about
    to take, leaving every other bit as it was.  A close call for a
    device the table holds, the slots in front of it holding other
    devices, returns 0 and clears the bit of the device's own slot and
    no other. *)
Lemma appleib_set_open_tracks_registration :
  (∀ info vdev i,
     i < NUM_SUB_HDEVS →
     sub_hdevs info !!! i = NULL →
     (∀ j, j < i → sub_hdevs info !!! j ≠ NULL) →
     (∀ j, j < NUM_SUB_HDEVS → sub_hdevs info !!! j ≠ Dev vdev) →
     ∃ info',
       appleib_ll_open info vdev = (info', 0%Z)
       ∧ hdev info' = hdev info
       ∧ sub_hdevs info' = sub_hdevs info
       ∧ Z.testbit (sub_open info') (Z.of_nat i) = true
       ∧ ∀ k, k ≠ i →
              Z.testbit (sub_open info') (Z.of_nat k)
              = Z.testbit (sub_open info) (Z.of_nat k))
  ∧ (∀ info vdev i,
       i < NUM_SUB_HDEVS →
       sub_hdevs info !!! i = Dev vdev →
       (∀ j, j < i →
             sub_hdevs info !!! j ≠ NULL ∧ sub_hdevs info !!! j ≠ Dev vdev) →
       ∃ info',
         appleib_set_open info vdev false = (info', 0%Z)
         ∧ appleib_ll_close info vdev = info'
         ∧ hdev info' = hdev info
         ∧ sub_hdevs info' = sub_hdevs info
         ∧ Z.testbit (sub_open info') (Z.of_nat i) = false
         ∧ ∀ k, k ≠ i →
                Z.testbit (sub_open info') (Z.of_nat k)
                = Z.testbit (sub_open info) (Z.of_nat k)).
Proof.
  split.
  - intros info vdev i Hi Hnull Hbefore Hfresh.
    eexists. split.
    { unfold appleib_ll_open. apply (appleib_set_open_first _ _ _ i); auto.
      intros j Hj. split; [apply Hfresh; lia|by apply Hbefore]. }
    simpl. repeat split.
    + apply Z.setbit_eq. lia.
    + intros k Hk. apply Z.setbit_neq; lia.
  - intros info vdev i Hi Hdev Hbefore.
    assert (appleib_set_open info vdev false
            = (mk_info (hdev info) (sub_hdevs info)
                       (Z.clearbit (sub_open info) (Z.of_nat i)), 0%Z))
      as Hclose.
    { apply (appleib_set_open_first _ _ false i); auto.
      intros j Hj. destruct (Hbefore j Hj). done. }
    eexists. split; [exact Hclose|].
    unfold appleib_ll_close. rewrite Hclose. simpl. repeat split.
    + apply Z.clearbit_eq.
    + intros k Hk. apply Z.clearbit_neq. lia.
Qed.

End appleib_open_facts.

Section appleib_fan_out_facts.
Import Host HidAppleib.

Lemma appleib_hid_raw_event_calls info report_type data size :
  (appleib_hid_raw_event info report_type data size).1
  = map (λ i, mk_input_report (sub_hdevs info !!! i) report_type data size)
        (filter (λ i, Z.testbit (sub_open info) (Z.of_nat i) = true)
                (seq 0 NUM_SUB_HDEVS)).
Proof.
  unfold appleib_hid_raw_event. cbn [fst].
  induction (seq 0 NUM_SUB_HDEVS) as [|i idxs IH]; [done|].
  simpl. rewrite filter_cons.
  destruct (Z.testbit (sub_open info) (Z.of_nat i)) eqn:Hbit.
  - rewrite decide_True by done. simpl. by f_equal.
  - rewrite decide_False by done. done.
Qed.

Lemma copies_to_map_slots (slots : list hid_device_ptr)
    report_type data size h i idxs :
  NoDup idxs →
  slots !!! i = Dev h →
  (∀ j, j ∈ idxs → j ≠ i → slots !!! j ≠ Dev h) →
  copies_to (Dev h)
    (map (λ i, mk_input_report (slots !!! i) report_type data size) idxs)
  = if bool_decide (i ∈ idxs) then 1 else 0.
Proof.
  intros Hnodup Hi Hother. unfold copies_to.
  induction idxs as [|j idxs IH]; [done|].
  apply NoDup_cons in Hnodup as [Hj Hnodup].
  simpl. rewrite filter_cons. simpl.
  destruct (decide (j = i)) as [->|Hne].
  - rewrite decide_True by done.
    rewrite bool_decide_eq_true_2 by (by left).
    simpl. rewrite IH; [|done|].
    + by rewrite bool_decide_eq_false_2.
    + intros k Hk. apply Hother. by right.
  - rewrite decide_False by (apply Hother; [by left|done]).
    rewrite IH; [|done|].
    + rewrite (bool_decide_ext (i ∈ j :: idxs) (i ∈ idxs)); [done|].
      split; [|by right].
      intros [?|?]%elem_of_cons; [congruence|done].
    + intros k Hk. apply Hother. by right.
Qed.

(** [hid-appleib.c]: a raw report delivered on the real device is
    handed on with its type, bytes and size unchanged, and the virtual
    device in slot [i] gets exactly one copy when bit [i] of [sub_open]
    is set at that moment and none when it is clear. *)
Lemma appleib_hid_raw_event_fan_out info report_type data size h i :
  i < NUM_SUB_HDEVS →
  sub_hdevs info !!! i = Dev h →
  (∀ j, j < NUM_SUB_HDEVS → j ≠ i → sub_hdevs info !!! j ≠ Dev h) →
  let calls := (appleib_hid_raw_event info report_type data size).1 in
  copies_to (Dev h) calls
  = (if Z.testbit (sub_open info) (Z.of_nat i) then 1 else 0)
  ∧ (∀ c, c ∈ calls →
          rep_type c = report_type ∧ rep_data c = data ∧ rep_size c = size)
  ∧ (appleib_hid_raw_event info report_type data size).2 = 0%Z.
Proof.
  intros Hi Hslot Hother calls. subst calls.
  rewrite appleib_hid_raw_event_calls.
  split; [|split; [|done]].
  - rewrite (copies_to_map_slots _ _ _ _ h i); [|by apply NoDup_filter, NoDup_seq|done|].
    + destruct (Z.testbit (sub_open info) (Z.of_nat i)) eqn:Hbit.
      * rewrite bool_decide_eq_true_2; [done|].
        apply list_elem_of_filter.
        split; [done|]. apply elem_of_seq. lia.
      * rewrite bool_decide_eq_false_2; [done|].
        intros [Hopen _]%list_elem_of_filter. congruence.
    + intros j [_ Hj]%list_elem_of_filter Hne. apply Hother; [|done].
      apply elem_of_seq in Hj. lia.
  - intros c (j & -> & _)%list_elem_of_fmap. done.
Qed.

End appleib_fan_out_facts.

(** * Splitting the descriptor, [hid-appleib.c] *)

Section scanner_progress.
Import HidCore Scanner.
Context `{hid_host}.
Variable rdesc : list Z.
Variable e : nat.

Lemma find_collection_loop_bounds fuel start depth usage pos usage' :
  find_collection_loop rdesc e fuel start depth usage = Some (pos, usage') →
  start ≤ e →
  start ≤ pos ≤ e ∧ (start < e → start < pos).
Proof.
  revert start depth usage.
  induction fuel as [|fuel IH]; intros start depth usage Hr Hle;
    [discriminate|].
  rewrite find_collection_loop_step in Hr.
  destruct (hid_fetch_item rdesc start e) as [[next item]|] eqn:Hfetch.
  - apply hid_fetch_item_bounds in Hfetch.
    assert (∀ d u, find_collection_loop rdesc e fuel next d u
                   = Some (pos, usage') →
                   start ≤ pos ≤ e ∧ (start < e → start < pos)) as Hrec.
    { intros d u Hd. destruct (IH _ _ _ Hd); lia. }
    destruct (Descriptor.classify_item item); eauto.
    destruct (depth - 1 <=? 0)%Z; eauto.
    injection Hr as <- <-. lia.
  - injection Hr as <- <-. lia.
Qed.

Lemma appleib_find_collection_bounds start pos usage :
  appleib_find_collection rdesc e start = (pos, usage) →
  start ≤ e →
  start ≤ pos ≤ e ∧ (start < e → start < pos).
Proof.
  unfold appleib_find_collection. intros Hr Hle.
  destruct (find_collection_loop_total rdesc e (S (e - start)) start 0 0)
    as [[pos' usage'] Hloop]; [lia|].
  rewrite Hloop in Hr. simpl in Hr. injection Hr as -> ->.
  by eapply find_collection_loop_bounds.
Qed.

End scanner_progress.

Section scan_loop_facts.
Import HidCore Scanner.
Context `{hid_host}.
Variable rdesc : list Z.


End scan_loop_facts.

Section appleib_attach_loop.
Import HidCore Scanner Host HidAppleib.
Context `{hid_host}.
Variable outcomes : nat → host_outcome.
Variable rdesc : list Z.
Local Abbreviation e := (length rdesc).

(** The loop takes the turns of [run_segments] over the scanner calls of
    [scan_loop], and the fuel given to it is enough. *)
Lemma add_sub_devs_loop_run fuel start i st :
  start ≤ e → e - start < fuel →
  add_sub_devs_loop outcomes rdesc fuel start i st
  = Some (attach_result
            (run_segments outcomes rdesc (scan_loop rdesc fuel start) i st)).
Proof.
  revert start i st.
  induction fuel as [|fuel IH]; intros start i st Hle Hfuel; [lia|].
  simpl.
  destruct (appleib_find_collection rdesc e start) as [pos usage] eqn:Hfind.
  apply appleib_find_collection_bounds in Hfind as [Hpos Hprogress]; [|done].
  simpl.
  destruct (add_sub_devs_turn outcomes rdesc start pos usage i st)
    as [[ret|i'] st']; [done|].
  destruct (e <=? pos) eqn:Hend; [done|].
  apply Nat.leb_gt in Hend.
  apply IH; lia.
Qed.

Lemma add_sub_devs_loop_total fuel start i st :
  start ≤ e → e - start < fuel →
  is_Some (add_sub_devs_loop outcomes rdesc fuel start i st).
Proof. intros. rewrite add_sub_devs_loop_run by done. by eexists. Qed.

End appleib_attach_loop.

Section appleib_attach_run.
Import HidCore Scanner Host HidAppleib.
Context `{hid_host}.

Lemma appleib_add_sub_devs_run outcomes st :
  appleib_add_sub_devs outcomes st
  = attach_result
      (run_segments outcomes (dev_rdesc (hdev (st_info st)))
                    (scan_segments (dev_rdesc (hdev (st_info st)))) 0 st).
Proof.
  unfold appleib_add_sub_devs, scan_segments.
  rewrite add_sub_devs_loop_run by lia. done.
Qed.

End appleib_attach_run.

Section appleib_attach_success.
Import HidCore Scanner Host HidAppleib.
Context `{hid_host}.
Variable outcomes : nat → host_outcome.
Variable rdesc : list Z.
Local Opaque NUM_SUB_HDEVS.

Lemma set_open_loop_table idxs info vdev open :
  hdev (set_open_loop idxs info vdev open).1 = hdev info
  ∧ sub_hdevs (set_open_loop idxs info vdev open).1 = sub_hdevs info.
Proof.
  induction idxs as [|i idxs IH]; simpl; [done|].
  destruct (_ || _); done.
Qed.

(** A virtual device the host accepts: it gets the next handle, is
    registered, and the table is not touched. *)
Lemma appleib_add_sub_dev_ok out info usage slice bus :
  outcome_ok out = true →
  ∃ info',
    appleib_add_sub_dev out info usage slice bus
    = (Dev (bus_next bus), info',
       mk_hid_bus (S (bus_next bus))
                  (bus_registered bus
                   ++ [(bus_next bus,
                        mk_hid_device (dev_bus (hdev info)) 0
                                      (dev_vendor (hdev info))
                                      (dev_product (hdev info))
                                      [usage] slice)])
                  (bus_destroyed bus))
    ∧ hdev info' = hdev info
    ∧ sub_hdevs info' = sub_hdevs info.
Proof.
  destruct out as [err|err|err|opens]; try discriminate. intros _.
  unfold appleib_add_sub_dev, hid_allocate_device, hid_add_device. simpl.
  eexists. split; [reflexivity|].
  destruct opens; [|done].
  apply set_open_loop_table.
Qed.

Lemma exposed_nil n : exposed n [] = [].
Proof. unfold exposed. by rewrite filter_nil, take_nil. Qed.

Lemma exposed_0 segs : exposed 0 segs = [].
Proof. unfold exposed. by rewrite take_0. Qed.

Lemma exposed_cons_recognized n seg segs :
  recognized seg → exposed (S n) (seg :: segs) = seg :: exposed n segs.
Proof. intros Hr. unfold exposed. by rewrite filter_cons, decide_True. Qed.

Lemma exposed_cons_unrecognized n seg segs :
  ¬ recognized seg → exposed n (seg :: segs) = exposed n segs.
Proof. intros Hr. unfold exposed. by rewrite filter_cons, decide_False. Qed.

(** As long as the host accepts every virtual device, the turns never
    return from inside the loop: they give the first free slots to the
    first recognized segments, register one device for each, and print
    one diagnostic for every other segment. *)
Lemma run_segments_ok segs :
  ∀ i st,
    i ≤ NUM_SUB_HDEVS →
    length (sub_hdevs (st_info st)) = NUM_SUB_HDEVS →
    (∀ j, i ≤ j < i + length (exposed (NUM_SUB_HDEVS - i) segs) →
          outcome_ok (outcomes j) = true) →
    let new := exposed (NUM_SUB_HDEVS - i) segs in
    let handles := seq (bus_next (st_bus st)) (length new) in
    ∃ st',
      run_segments outcomes rdesc segs i st = (inr (i + length new), st')
      ∧ hdev (st_info st') = hdev (st_info st)
      ∧ sub_hdevs (st_info st')
        = take i (sub_hdevs (st_info st)) ++ (Dev <$> handles)
          ++ drop (i + length new) (sub_hdevs (st_info st))
      ∧ bus_next (st_bus st') = bus_next (st_bus st) + length new
      ∧ bus_registered (st_bus st')
        = bus_registered (st_bus st)
          ++ zip handles (sub_device (hdev (st_info st)) rdesc <$> new)
      ∧ bus_destroyed (st_bus st') = bus_destroyed (st_bus st)
      ∧ st_log st' = st_log st ++ expected_log i segs.
Proof.
  induction segs as [|[[start pos] usage] segs IH];
    intros i st Hi Hlen Hok new handles.
  - exists st. subst new handles. rewrite exposed_nil. simpl.
    rewrite Nat.add_0_r, take_drop, !app_nil_r. done.
  - simpl. unfold add_sub_devs_turn.
    destruct (appleib_usage_in_list usage) eqn:Hrec; simpl.
    2:{ (* unknown collection *)
      assert (¬ recognized (start, pos, usage)) as Hnr
        by (unfold recognized; simpl; congruence).
      subst new handles.
      rewrite exposed_cons_unrecognized in Hok |- * by done.
      rewrite decide_False by done.
      destruct (IH i (mk_probe_state (st_info st) (st_bus st)
                        (st_log st ++ [Unknown_collection usage]))
                  Hi Hlen Hok)
        as (st' & Hrun & Hhdev & Hsub & Hnext & Hreg & Hdes & Hlog).
      exists st'. simpl in *. rewrite Hrun, Hlog, <- app_assoc. done. }
    assert (recognized (start, pos, usage)) as Hr by done.
    rewrite (decide_True _ _ Hr).
    destruct (NUM_SUB_HDEVS <=? i) eqn:Hfull.
    { (* too many collections *)
      apply Nat.leb_le in Hfull.
      assert (i = NUM_SUB_HDEVS) as -> by lia.
      rewrite decide_False by lia.
      subst new handles.
      destruct (IH NUM_SUB_HDEVS
                  (mk_probe_state (st_info st) (st_bus st)
                     (st_log st ++ [Too_many_collections usage]))
                  Hi Hlen)
        as (st' & Hrun & Hhdev & Hsub & Hnext & Hreg & Hdes & Hlog).
      { intros j Hj. rewrite Nat.sub_diag, exposed_0 in Hj.
        cbn [length] in Hj. lia. }
      revert Hrun Hsub Hnext Hreg.
      rewrite Nat.sub_diag, !exposed_0. intros Hrun Hsub Hnext Hreg.
      exists st'. simpl in *. rewrite Hrun, Hlog, <- app_assoc. done. }
    (* a virtual device is made *)
    apply Nat.leb_gt in Hfull.
    rewrite decide_True by done.
    subst new handles.
    replace (NUM_SUB_HDEVS - i) with (S (NUM_SUB_HDEVS - S i)) in * by lia.
    rewrite exposed_cons_recognized in Hok |- * by done.
    set (new := exposed (NUM_SUB_HDEVS - S i) segs) in *.
    simpl length in *.
    destruct (appleib_add_sub_dev_ok (outcomes i) (st_info st) usage
                (slice rdesc start pos) (st_bus st))
      as (info' & Hadd & Hhdev' & Hsub'); [apply Hok; lia|].
    rewrite Hadd. cbn [IS_ERR].
    match goal with
    | |- context [run_segments _ _ _ (S i) ?st1] =>
        destruct (IH (S i) st1)
          as (st' & Hrun & Hhdev & Hsub & Hnext & Hreg & Hdes & Hlog)
    end.
    { lia. }
    { simpl. by rewrite length_insert, Hsub'. }
    { intros j Hj. apply Hok. fold new in Hj. lia. }
    fold new in Hrun, Hsub, Hnext, Hreg.
    exists st'. simpl in *.
    rewrite Hrun, Hhdev, Hhdev', Hsub, Hnext, Hreg, Hdes, Hlog, Hsub'.
    replace (i + S (length new)) with (S (i + length new)) by lia.
    split; [done|]. split; [done|].
    split.
    { rewrite (take_S_r _ _ (Dev (bus_next (st_bus st))))
        by (apply list_lookup_insert_eq; lia).
      rewrite take_insert_ge by lia.
      rewrite drop_insert_lt by lia.
      by rewrite <- app_assoc. }
    split; [lia|].
    split; [by rewrite Hhdev', <- app_assoc|done].
Qed.

End appleib_attach_success.

(** * What the split leaves behind, [hid-appleib.c] *)

Section appleib_attach_outcome.
Import HidCore Scanner Host HidAppleib.
Context `{hid_host}.
Local Opaque NUM_SUB_HDEVS.

Lemma length_exposed n segs : length (exposed n segs) ≤ n.
Proof. unfold exposed. rewrite length_take. lia. Qed.

Lemma exposed_recognized n segs seg :
  seg ∈ exposed n segs → recognized seg ∧ seg ∈ segs.
Proof.
  unfold exposed. intros Hin.
  apply (list_elem_of_filter recognized).
  apply elem_of_take in Hin as (i & Hi & _).
  by eapply list_elem_of_lookup_2.
Qed.

(** When the host accepts every virtual device it is handed, the split
    succeeds and leaves one device per exposed segment, in scan order, in
    the first slots of the table. *)
Lemma appleib_add_sub_devs_ok outcomes parent bus :
  let rdesc := dev_rdesc parent in
  let segs := scan_segments rdesc in
  let new := exposed NUM_SUB_HDEVS segs in
  let handles := seq (bus_next bus) (length new) in
  (∀ j, j < length new → outcome_ok (outcomes j) = true) →
  ∃ st',
    appleib_add_sub_devs outcomes (probe_start parent bus) = (0%Z, st')
    ∧ hdev (st_info st') = parent
    ∧ sub_hdevs (st_info st')
      = (Dev <$> handles) ++ replicate (NUM_SUB_HDEVS - length new) NULL
    ∧ bus_next (st_bus st') = bus_next bus + length new
    ∧ bus_registered (st_bus st')
      = bus_registered bus ++ zip handles (sub_device parent rdesc <$> new)
    ∧ bus_destroyed (st_bus st') = bus_destroyed bus
    ∧ st_log st' = expected_log 0 segs.
Proof.
  intros rdesc segs new handles Hok.
  rewrite appleib_add_sub_devs_run.
  destruct (run_segments_ok outcomes rdesc segs 0 (probe_start parent bus))
    as (st' & Hrun & Hhdev & Hsub & Hnext & Hreg & Hdes & Hlog).
  { lia. }
  { simpl. apply length_replicate. }
  { rewrite Nat.sub_0_r. intros j Hj. apply Hok. subst new. lia. }
  rewrite Nat.sub_0_r in *. simpl in Hrun, Hhdev, Hsub, Hnext, Hreg, Hdes, Hlog.
  exists st'. simpl. fold rdesc segs. rewrite Hrun. simpl.
  rewrite drop_replicate in Hsub.
  done.
Qed.

Lemma run_segments_app outcomes rdesc segs1 segs2 i st :
  run_segments outcomes rdesc (segs1 ++ segs2) i st
  = match run_segments outcomes rdesc segs1 i st with
    | (inl ret, st') => (inl ret, st')
    | (inr i', st') => run_segments outcomes rdesc segs2 i' st'
    end.
Proof.
  revert i st.
  induction segs1 as [|[[start pos] usage] segs1 IH]; intros i st; [done|].
  simpl.
  destruct (add_sub_devs_turn outcomes rdesc start pos usage i st)
    as [[ret|i'] st']; [done|apply IH].
Qed.

Lemma filter_split_at {A} (P : A → Prop) `{!∀ x, Decision (P x)} l k :
  k < length (filter P l) →
  ∃ l1 x l2, l = l1 ++ x :: l2 ∧ P x ∧ length (filter P l1) = k.
Proof.
  revert k. induction l as [|y l IH]; intros k Hk.
  - rewrite filter_nil in Hk. simpl in Hk. lia.
  - rewrite filter_cons in Hk. destruct (decide (P y)) as [Hy|Hy].
    + destruct k as [|k].
      * exists [], y, l. by rewrite filter_nil.
      * simpl in Hk. destruct (IH k) as (l1 & x & l2 & -> & Hx & Hlen); [lia|].
        exists (y :: l1), x, l2.
        rewrite filter_cons_True by done. simpl. auto.
    + destruct (IH k Hk) as (l1 & x & l2 & -> & Hx & Hlen).
      exists (y :: l1), x, l2.
      rewrite filter_cons_False by done. auto.
Qed.

(** A virtual device the host refuses: the error comes back wrapped in
    a pointer, the table is not touched, and the device, when it was
    allocated at all, is destroyed again. *)
Lemma appleib_add_sub_dev_fails out info usage slice bus err :
  outcome_error out = Some err →
  appleib_add_sub_dev out info usage slice bus
  = (ERR_PTR err, info,
     if outcome_allocates out
     then hid_destroy_device (Dev (bus_next bus)) (hid_allocate_device bus).2
     else bus).
Proof. destruct out; intros [= <-]; done. Qed.

(** The roll-back loop destroys the devices of the slots below [k]. *)
Lemma destroy_below_handles k info bus n0 :
  (∀ j, j < k → sub_hdevs info !!! j = Dev (n0 + j)) →
  destroy_below k info bus
  = mk_hid_bus (bus_next bus)
      (filter (λ r, ¬ (n0 ≤ r.1 < n0 + k)) (bus_registered bus))
      (bus_destroyed bus ++ reverse (seq n0 k)).
Proof.
  revert bus. induction k as [|k IH]; intros bus Hslots.
  - simpl. rewrite app_nil_r. destruct bus as [next reg des]. simpl. f_equal.
    induction reg as [|r reg IHreg]; [done|].
    rewrite filter_cons_True by lia. by rewrite <- IHreg at 1.
  - cbn [destroy_below]. rewrite (Hslots k) by lia.
    rewrite IH by (intros; apply Hslots; lia).
    cbn [hid_destroy_device bus_next bus_registered bus_destroyed]. f_equal.
    + rewrite list_filter_filter. apply list_filter_iff. intros r. lia.
    + rewrite seq_S, reverse_snoc, <- app_assoc. done.
Qed.

Lemma filter_fresh_registered bus n :
  bus_fresh bus →
  filter (λ r : nat * hid_device, ¬ (bus_next bus ≤ r.1 < bus_next bus + n))
         (bus_registered bus)
  = bus_registered bus.
Proof.
  unfold bus_fresh. generalize (bus_next bus) as n0.
  induction (bus_registered bus) as [|r reg IH]; intros n0 Hfresh; [done|].
  rewrite filter_cons_True.
  - f_equal. apply IH. intros r' Hr'. apply Hfresh. by right.
  - assert (r.1 < n0) by (apply Hfresh; by left). lia.
Qed.

Lemma filter_new_registered {A} n0 n k (devs : list A) :
  n ≤ k →
  filter (λ r : nat * A, ¬ (n0 ≤ r.1 < n0 + k)) (zip (seq n0 n) devs) = [].
Proof.
  intros Hle.
  assert (∀ m, n0 ≤ m → m + n ≤ n0 + k →
               filter (λ r : nat * A, ¬ (n0 ≤ r.1 < n0 + k))
                      (zip (seq m n) devs) = []) as Hgen.
  { clear Hle. revert devs. induction n as [|n IH]; intros devs m Hm Hmk;
      [done|].
    destruct devs as [|d devs]; [done|].
    simpl. rewrite filter_cons_False by (simpl; lia).
    apply IH; lia. }
  apply Hgen; lia.
Qed.

(** The statement of C5 for [hid-appleib.c].  If the host refuses the
    device for slot [k], the ones for the slots below having been
    accepted, the split returns the errno of the refusal, having
    destroyed the refused device and then the devices of the slots
    below, last made first: none of them stays registered. *)
Lemma appleib_add_sub_devs_rolls_back outcomes parent bus k err :
  let rdesc := dev_rdesc parent in
  let segs := scan_segments rdesc in
  bus_fresh bus →
  k < length (exposed NUM_SUB_HDEVS segs) →
  (∀ j, j < k → outcome_ok (outcomes j) = true) →
  outcome_error (outcomes k) = Some err →
  is_errno err →
  ∃ st',
    appleib_add_sub_devs outcomes (probe_start parent bus) = (err, st')
    ∧ bus_registered (st_bus st') = bus_registered bus
    ∧ bus_destroyed (st_bus st')
      = bus_destroyed bus
        ++ (if outcome_allocates (outcomes k) then [bus_next bus + k] else [])
        ++ reverse (seq (bus_next bus) k).
Proof.
  intros rdesc segs Hfresh Hk Hok Herr Herrno.
  rewrite appleib_add_sub_devs_run. simpl hdev. fold rdesc segs.
  pose proof (length_exposed NUM_SUB_HDEVS segs) as Hcap.
  unfold exposed in Hk. rewrite length_take in Hk.
  destruct (filter_split_at recognized segs k) as (segs1 & seg & segs2 & Hsegs & Hseg & Hlen);
    [lia|].
  rewrite Hsegs, run_segments_app.
  assert (exposed (NUM_SUB_HDEVS - 0) segs1 = filter recognized segs1) as Hexp.
  { unfold exposed. apply take_ge. lia. }
  destruct (run_segments_ok outcomes rdesc segs1 0 (probe_start parent bus))
    as (st1 & Hrun & Hhdev & Hsub & Hnext & Hreg & Hdes & Hlog).
  { lia. }
  { simpl. apply length_replicate. }
  { rewrite Hexp, Hlen. intros j Hj. apply Hok. lia. }
  rewrite Hexp, Hlen in *. simpl in Hrun, Hhdev, Hsub, Hnext, Hreg, Hdes, Hlog.
  rewrite Hrun. destruct seg as [[start pos] usage].
  simpl. unfold add_sub_devs_turn.
  unfold recognized in Hseg. simpl in Hseg. rewrite Hseg. simpl.
  assert ((NUM_SUB_HDEVS <=? k) = false) as -> by (apply Nat.leb_gt; lia).
  rewrite (appleib_add_sub_dev_fails _ _ _ _ _ err Herr).
  cbn [IS_ERR PTR_ERR]. rewrite (bool_decide_eq_true_2 _ Herrno).
  eexists. split; [reflexivity|]. simpl.
  rewrite (destroy_below_handles k _ _ (bus_next bus)).
  2:{ intros j Hj. simpl. apply list_lookup_total_correct.
      rewrite list_lookup_insert_ne by lia.
      rewrite Hsub, lookup_app_l by (rewrite length_fmap, length_seq; lia).
      rewrite list_lookup_fmap, lookup_seq_lt by lia. done. }
  simpl.
  destruct (outcome_allocates (outcomes k)); simpl.
  - rewrite Hnext, Hreg, Hdes. split.
    + rewrite list_filter_filter, filter_app.
      rewrite (list_filter_iff _ (λ r, ¬ (bus_next bus ≤ r.1 < bus_next bus + S k)))
        by (intros r; lia).
      rewrite (filter_fresh_registered bus (S k) Hfresh).
      rewrite (list_filter_iff _ (λ r, ¬ (bus_next bus ≤ r.1 < bus_next bus + S k)))
        by (intros r; lia).
      rewrite filter_new_registered by lia. apply app_nil_r.
    + by rewrite <- !app_assoc.
  - rewrite Hreg, Hdes. split; [|done].
    rewrite filter_app, (filter_fresh_registered bus k Hfresh).
    rewrite filter_new_registered by lia. apply app_nil_r.
Qed.

End appleib_attach_outcome.

(** * Anomalies, capacity and usage identities, [hid-appleib.c] *)

Section appleib_anomalies.
Import HidCore Scanner Host HidAppleib Descriptor.
Context `{hid_host}.
Local Opaque NUM_SUB_HDEVS.

Lemma expected_log_unknown taken segs seg :
  seg ∈ segs → ¬ recognized seg →
  Unknown_collection seg.2 ∈ expected_log taken segs.
Proof.
  revert taken. induction segs as [|s segs IH]; intros taken Hin Hnr.
  - by apply elem_of_nil in Hin.
  - simpl. apply elem_of_cons in Hin as [->|Hin].
    + rewrite decide_False by done. by left.
    + repeat case_decide; try right; by apply IH.
Qed.

Lemma expected_log_too_many taken segs k seg :
  filter recognized segs !! k = Some seg →
  NUM_SUB_HDEVS ≤ taken + k →
  Too_many_collections seg.2 ∈ expected_log taken segs.
Proof.
  revert taken k. induction segs as [|s segs IH]; intros taken k Hk Hfull.
  - by rewrite filter_nil in Hk.
  - rewrite filter_cons in Hk. simpl.
    destruct (decide (recognized s)) as [Hs|Hs].
    + destruct k as [|k]; simpl in Hk.
      * injection Hk as ->. rewrite decide_False by lia. by left.
      * case_decide; [|right]; eapply IH; try done; lia.
    + right. by eapply IH.
Qed.

Lemma expected_log_length taken segs :
  taken ≤ NUM_SUB_HDEVS →
  length (expected_log taken segs)
  + length (exposed (NUM_SUB_HDEVS - taken) segs)
  = length segs.
Proof.
  revert taken. induction segs as [|s segs IH]; intros taken Htaken.
  - by rewrite exposed_nil.
  - simpl. destruct (decide (recognized s)) as [Hs|Hs].
    + destruct (decide (taken < NUM_SUB_HDEVS)) as [Hlt|Hge].
      * replace (NUM_SUB_HDEVS - taken) with (S (NUM_SUB_HDEVS - S taken))
          by lia.
        rewrite exposed_cons_recognized by done. simpl.
        rewrite <- (IH (S taken)) by lia. lia.
      * replace (NUM_SUB_HDEVS - taken) with 0 in * by lia.
        rewrite exposed_0. simpl.
        specialize (IH taken Htaken).
        replace (NUM_SUB_HDEVS - taken) with 0 in IH by lia.
        rewrite exposed_0 in IH. simpl in IH. lia.
    + rewrite exposed_cons_unrecognized by done. simpl.
      rewrite <- (IH taken) by lia. lia.
Qed.

(** [hid-appleib.c]: as long as the host accepts the virtual devices,
    the split does not fail whatever the descriptor holds: it returns 0,
    registers a virtual device for each of the first [NUM_SUB_HDEVS]
    recognized segments in scan order and for nothing else, warns
    "Unknown collection" for every segment whose usage is not in the
    table and "Too many collections" for every recognized segment after
    the first [NUM_SUB_HDEVS], and so accounts for every segment by a
    device or by a warning. *)
Lemma appleib_add_sub_devs_skips_anomalies outcomes parent bus :
  let rdesc := dev_rdesc parent in
  let segs := scan_segments rdesc in
  let new := exposed NUM_SUB_HDEVS segs in
  (∀ j, j < length new → outcome_ok (outcomes j) = true) →
  ∃ st',
    appleib_add_sub_devs outcomes (probe_start parent bus) = (0%Z, st')
    ∧ bus_registered (st_bus st')
      = bus_registered bus
        ++ zip (seq (bus_next bus) (length new))
               (sub_device parent rdesc <$> new)
    ∧ length new ≤ NUM_SUB_HDEVS
    ∧ st_log st' = expected_log 0 segs
    ∧ (∀ seg, seg ∈ segs → ¬ recognized seg →
              Unknown_collection seg.2 ∈ st_log st')
    ∧ (∀ k seg, filter recognized segs !! k = Some seg →
                NUM_SUB_HDEVS ≤ k →
                Too_many_collections seg.2 ∈ st_log st')
    ∧ length (st_log st') + length new = length segs.
Proof.
  intros rdesc segs new Hok.
  destruct (appleib_add_sub_devs_ok outcomes parent bus Hok)
    as (st' & Hrun & _ & _ & _ & Hreg & _ & Hlog).
  exists st'. fold rdesc segs new in Hreg, Hlog. rewrite Hlog.
  split; [done|]. split; [done|].
  split; [apply length_exposed|]. split; [done|].
  split; [intros; by apply expected_log_unknown|].
  split; [intros; by eapply expected_log_too_many|].
  pose proof (expected_log_length 0 segs) as Hlen.
  rewrite Nat.sub_0_r in Hlen. apply Hlen. lia.
Qed.

(** [hid-appleib.c]: after a successful split at most [NUM_SUB_HDEVS]
    virtual devices exist, they fill the first slots of the table, each
    was made for a usage of the classification table, and their usages
    are those of the first [NUM_SUB_HDEVS] recognized segments in scan
    order, repeated when the descriptor repeats them: nothing keeps two
    slots from carrying the same usage. *)
Lemma appleib_sub_devices_follow_segments outcomes parent bus :
  let rdesc := dev_rdesc parent in
  let segs := scan_segments rdesc in
  let new := exposed NUM_SUB_HDEVS segs in
  (∀ j, j < length new → outcome_ok (outcomes j) = true) →
  ∃ st' created,
    appleib_add_sub_devs outcomes (probe_start parent bus) = (0%Z, st')
    ∧ bus_registered (st_bus st') = bus_registered bus ++ created
    ∧ length created ≤ NUM_SUB_HDEVS
    ∧ sub_hdevs (st_info st')
      = (Dev <$> created.*1)
        ++ replicate (NUM_SUB_HDEVS - length created) NULL
    ∧ Forall (λ r, ∃ usage, dev_name_args r.2 = [usage]
                            ∧ appleib_usage_in_list usage = true) created
    ∧ (dev_name_args <$> created.*2) = ((λ seg, [seg.2]) <$> new).
Proof.
  intros rdesc segs new Hok.
  destruct (appleib_add_sub_devs_ok outcomes parent bus Hok)
    as (st' & Hrun & _ & Hsub & _ & Hreg & _ & _).
  fold rdesc segs new in Hsub, Hreg.
  set (handles := seq (bus_next bus) (length new)) in *.
  set (devs := sub_device parent rdesc <$> new) in *.
  assert (length handles = length new) as Hh
    by (subst handles; apply length_seq).
  assert (length devs = length new) as Hd
    by (subst devs; apply length_fmap).
  exists st', (zip handles devs).
  split; [done|]. split; [done|].
  split; [rewrite length_zip_with, Hh, Hd; pose proof (length_exposed NUM_SUB_HDEVS segs); subst new; lia|].
  rewrite fst_zip, snd_zip by lia.
  split; [by rewrite length_zip_with, Hh, Hd, Nat.min_id|].
  split.
  - apply Forall_forall. intros [h d] Hin.
    apply elem_of_zip_r in Hin. subst devs.
    apply list_elem_of_fmap in Hin as (seg & -> & Hseg).
    exists seg.2. split; [done|].
    by apply exposed_recognized in Hseg as [Hr _].
  - subst devs. rewrite <- list_fmap_compose. done.
Qed.

End appleib_anomalies.

(** * Descriptors made of top-level collections *)

Section composed_descriptors.
Import HidCore Scanner Host HidAppleib Descriptor.
Context `{hid_host}.
Variable rdesc : list Z.
Local Abbreviation e := (length rdesc).

Lemma collection_at_bounds e' a b usage :
  collection_at rdesc e' a b usage → a < b ≤ e'.
Proof.
  intros (header & body & (p1 & bgn & p2 & p3 & endc
          & Hhdr & _ & Hbgn & _ & Hbody & _ & Hend & _) & _).
  apply fetches_le in Hhdr, Hbody.
  apply hid_fetch_item_bounds in Hbgn, Hend. lia.
Qed.

Lemma composed_from_lengths a bounds usages :
  composed_from rdesc a bounds usages → length usages = length bounds.
Proof.
  revert a usages. induction bounds as [|b bounds IH]; intros a [|u usages];
    simpl; try done.
  intros [_ Hrest]. f_equal. by eapply IH.
Qed.

Lemma length_segments_of a bounds usages :
  length usages = length bounds →
  length (segments_of a bounds usages) = length bounds.
Proof.
  revert a usages. induction bounds as [|b bounds IH]; intros a [|u usages];
    simpl; try done.
  intros [= Hlen]. f_equal. by apply IH.
Qed.

(** On a descriptor made of collections the scanner is called once per
    collection, each call starting where the one before stopped. *)
Lemma scan_loop_composed bounds :
  ∀ usages fuel a,
    bounds ≠ [] →
    composed_from rdesc a bounds usages →
    e - a < fuel →
    scan_loop rdesc fuel a = segments_of a bounds usages.
Proof.
  induction bounds as [|b bounds IH]; intros usages fuel a Hne Hcomp Hfuel;
    [done|].
  destruct usages as [|u usages]; [done|].
  destruct Hcomp as [Hcol Hrest].
  destruct fuel as [|fuel]; [lia|].
  pose proof (collection_at_bounds _ _ _ _ Hcol) as Hab.
  simpl. rewrite (find_collection_collection_at _ _ _ _ _ Hcol).
  f_equal.
  destruct bounds as [|b' bounds].
  - destruct usages; [|done]. simpl in Hrest. subst b.
    by rewrite Nat.leb_refl.
  - destruct usages as [|u' usages]; [done|].
    pose proof (collection_at_bounds _ _ _ _ (proj1 Hrest)) as Hbb.
    assert ((e <=? b) = false) as -> by (apply Nat.leb_gt; lia).
    apply IH; [done|done|lia].
Qed.

Lemma slice_app_drop a b :
  a ≤ b → slice rdesc a b ++ drop b rdesc = drop a rdesc.
Proof.
  intros Hab. unfold slice.
  replace (drop b rdesc) with (drop (b - a) (drop a rdesc))
    by (rewrite drop_drop; f_equal; lia).
  apply take_drop.
Qed.

Lemma concat_slices_composed bounds :
  ∀ usages a,
    composed_from rdesc a bounds usages →
    concat ((λ seg, slice rdesc seg.1.1 seg.1.2)
              <$> segments_of a bounds usages)
    = drop a rdesc.
Proof.
  induction bounds as [|b bounds IH]; intros [|u usages] a Hcomp; try done.
  - simpl in *. subst a. by rewrite drop_all.
  - destruct Hcomp as [Hcol Hrest].
    cbn [segments_of]. rewrite fmap_cons. cbn [concat fst snd].
    rewrite (IH _ _ Hrest).
    apply slice_app_drop.
    apply collection_at_bounds in Hcol. lia.
Qed.

Lemma segments_of_usages a bounds usages :
  length usages = length bounds →
  (λ seg : nat * nat * Z, seg.2) <$> segments_of a bounds usages = usages.
Proof.
  revert a usages. induction bounds as [|b bounds IH]; intros a [|u usages];
    simpl; try done.
  intros [= Hlen]. f_equal. by apply IH.
Qed.

(** For a descriptor made of N >= 1 well-formed top-level collections
    laid end to end, the scanner, called from offset 0 and then from
    where each call stopped, is called exactly N times and delimits
    exactly the N collections; the segments it delimits, concatenated,
    are the descriptor.  When moreover the usages are all in the table
    of [hid-appleib.c] and N is at most the size of the sub-device
    array, every one of the segments is among those given a device. *)
Lemma scan_segments_composed bounds usages :
  bounds ≠ [] →
  composed_from rdesc 0 bounds usages →
  Forall (λ usage, appleib_usage_in_list usage = true) usages →
  length bounds ≤ NUM_SUB_HDEVS →
  let segs := scan_segments rdesc in
  segs = segments_of 0 bounds usages
  ∧ length segs = length bounds
  ∧ concat ((λ seg, slice rdesc seg.1.1 seg.1.2) <$> segs) = rdesc
  ∧ exposed NUM_SUB_HDEVS segs = segs.
Proof.
  intros Hne Hcomp Hrec Hcap segs.
  pose proof (composed_from_lengths _ _ _ Hcomp) as Hlen.
  assert (segs = segments_of 0 bounds usages) as Hsegs.
  { subst segs. unfold scan_segments. apply scan_loop_composed; [done|done|lia]. }
  assert (length segs = length bounds) as Hn
    by (rewrite Hsegs; by apply length_segments_of).
  split; [done|]. split; [done|].
  split; [rewrite Hsegs; by rewrite (concat_slices_composed _ _ _ Hcomp)|].
  unfold exposed.
  assert (filter recognized segs = segs) as ->.
  { assert (Forall recognized segs) as Hall.
    { apply Forall_forall. intros seg Hseg. unfold recognized.
      rewrite Forall_forall in Hrec. apply Hrec.
      rewrite <- (segments_of_usages 0 bounds usages Hlen), <- Hsegs.
      by apply (list_elem_of_fmap_2 (λ seg : nat * nat * Z, seg.2)). }
    clear -Hall. induction Hall as [|seg segs Hseg _ IH]; [done|].
    by rewrite filter_cons_True, IH. }
  apply take_ge. lia.
Qed.

End composed_descriptors.

(** * One usage per scanner call *)

Section usage_per_call.
Import HidCore Scanner Host Descriptor.
Context `{hid_host}.

(** The item fetch reads nothing outside [start .. e). *)
Lemma hid_fetch_item_ext rdesc rdesc' start e :
  (∀ p, start ≤ p < e → byte_at rdesc p = byte_at rdesc' p) →
  hid_fetch_item rdesc start e = hid_fetch_item rdesc' start e.
Proof.
  intros Hagree. unfold hid_fetch_item.
  destruct (e <=? start) eqn:He; [done|]. apply Nat.leb_gt in He.
  rewrite (Hagree start) by lia.
  destruct (Z.land (Z.shiftr (byte_at rdesc' start) 4) 15 =? _)%Z.
  - destruct (e - S start <? 2) eqn:H2; [done|]. apply Nat.ltb_ge in H2.
    rewrite (Hagree (S start)), (Hagree (S (S start))) by lia. done.
  - destruct (Z.land (byte_at rdesc' start) 3) as [|p|p]; try done.
    destruct p as [[p|p|]|[p|p|]|]; try done.
    + destruct (e - S start <? 4) eqn:H4; [done|]. apply Nat.ltb_ge in H4.
      unfold get_unaligned_le32.
      rewrite (Hagree (S start)), (Hagree (S start + 1)),
        (Hagree (S start + 2)), (Hagree (S start + 3)) by lia. done.
    + destruct (e - S start <? 2) eqn:H4; [done|]. apply Nat.ltb_ge in H4.
      unfold get_unaligned_le16.
      rewrite (Hagree (S start)), (Hagree (S start + 1)) by lia. done.
    + destruct (e - S start <? 1) eqn:H4; [done|]. apply Nat.ltb_ge in H4.
      rewrite (Hagree (S start)) by lia. done.
Qed.

Lemma find_collection_loop_ext rdesc rdesc' e fuel start depth usage :
  (∀ p, start ≤ p < e → byte_at rdesc p = byte_at rdesc' p) →
  find_collection_loop rdesc e fuel start depth usage
  = find_collection_loop rdesc' e fuel start depth usage.
Proof.
  revert start depth usage.
  induction fuel as [|fuel IH]; intros start depth usage Hagree; [done|].
  rewrite !find_collection_loop_step.
  rewrite <- (hid_fetch_item_ext rdesc rdesc' start e Hagree).
  destruct (hid_fetch_item rdesc start e) as [[next item]|] eqn:Hfetch;
    [|done].
  apply hid_fetch_item_bounds in Hfetch.
  assert (∀ p, next ≤ p < e → byte_at rdesc p = byte_at rdesc' p) as Hnext
    by (intros; apply Hagree; lia).
  destruct (classify_item item); try by apply IH.
  destruct (depth - 1 <=? 0)%Z; [done|by apply IH].
Qed.

Lemma header_usage_other header :
  Forall (λ item, classify_item item = other) header →
  header_usage header = 0%Z.
Proof.
  intros Hall. unfold header_usage. generalize 0%Z.
  induction Hall as [|item header Hitem _ IH]; intros usage; [done|].
  simpl. unfold header_step at 2. rewrite Hitem. apply IH.
Qed.

(** C10.  A call of the scanner starts from usage 0 and reads nothing
    in front of its start offset, so what it returns is decided by the
    bytes from its start offset on: two descriptors that agree there give
    the same offset and the same usage, whatever segments come before.
    A top-level collection with no usage-page and no usage item in front
    of its begin therefore reports usage 0; neither classification table
    has usage 0, and the split skips such a segment with an "Unknown
    collection" warning, making no virtual device for it. *)
Theorem find_collection_usage_is_per_call :
  (∀ rdesc rdesc' e start,
     (∀ p, start ≤ p < e → byte_at rdesc p = byte_at rdesc' p) →
     appleib_find_collection rdesc e start
     = appleib_find_collection rdesc' e start)
  ∧ (∀ rdesc e a b header body,
       collection_items rdesc e a b header body →
       Forall (λ item, classify_item item = other) header →
       appleib_find_collection rdesc e a = (b, 0%Z))
  ∧ HidAppleib.appleib_usage_in_list 0 = false
  ∧ AppleIbridge.appleib_find_dev_id_for_usage 0 = None
  ∧ (∀ outcomes rdesc start pos i st,
       HidAppleib.add_sub_devs_turn outcomes rdesc start pos 0 i st
       = (inr i,
          HidAppleib.mk_probe_state
            (HidAppleib.st_info st) (HidAppleib.st_bus st)
            (HidAppleib.st_log st ++ [Unknown_collection 0])))
  ∧ (∀ outcomes rdesc start pos i st,
       AppleIbridge.add_device_turn outcomes rdesc start pos 0 i st
       = (inr i,
          AppleIbridge.mk_probe_state
            (AppleIbridge.st_info st) (AppleIbridge.st_bus st)
            (AppleIbridge.st_log st ++ [Unknown_collection 0]))).
Proof.
  split.
  { intros rdesc rdesc' e start Hagree. unfold appleib_find_collection.
    by rewrite (find_collection_loop_ext rdesc rdesc'). }
  split.
  { intros rdesc e a b header body Hitems Hother.
    apply find_collection_collection_at.
    exists header, body. split; [done|].
    symmetry. by apply header_usage_other. }
  repeat split.
Qed.

End usage_per_call.

(** * Power-management forwarding *)

Section pm_forwarding.
Import Host Samples.
Variable world : Type.
Variable driver_of : nat → option (hid_driver world).

(** [hid-appleib.c]: the slots are visited in order, and a slot is
    visited only if every slot in front of it returned 0. *)
Lemma forward_func_loop_app info function before after (w : world) :
  HidAppleib.forward_func_loop world info function (before ++ after) w
  = match HidAppleib.forward_func_loop world info function before w with
    | Some (ret, w') =>
        if negb (ret =? 0)%Z then Some (ret, w')
        else HidAppleib.forward_func_loop world info function after w'
    | None => None
    end.
Proof.
  revert w. induction before as [|i before IH]; intros w; [done|].
  simpl.
  destruct (function (HidAppleib.sub_hdevs info !!! i) w) as [[ret w']|];
    [|done].
  destruct (negb (ret =? 0)%Z) eqn:Hret; [|apply IH].
  by rewrite Hret.
Qed.

(** [hid-appleib.c]: the first callback that returns an error ends the
    forwarding, its error is the result, and what the callbacks in front
    of it did stays done. *)
Lemma forward_func_loop_first_error info function before i after
    (w w1 w2 : world) err :
  HidAppleib.forward_func_loop world info function before w
  = Some (0%Z, w1) →
  function (HidAppleib.sub_hdevs info !!! i) w1 = Some (err, w2) →
  err ≠ 0%Z →
  HidAppleib.forward_func_loop world info function (before ++ i :: after) w
  = Some (err, w2).
Proof.
  intros Hbefore Hi Herr.
  rewrite forward_func_loop_app, Hbefore. simpl. rewrite Hi.
  apply Z.eqb_neq in Herr. by rewrite Herr.
Qed.

(** [hid-appleib.c]: when every callback returns 0 the result is 0. *)
Lemma forward_func_loop_result info function idxs (w w' : world) ret :
  HidAppleib.forward_func_loop world info function idxs w = Some (ret, w') →
  ret ≠ 0%Z →
  ∃ before i after w1,
    idxs = before ++ i :: after
    ∧ HidAppleib.forward_func_loop world info function before w
      = Some (0%Z, w1)
    ∧ function (HidAppleib.sub_hdevs info !!! i) w1 = Some (ret, w').
Proof.
  revert w. induction idxs as [|i idxs IH]; intros w Hrun Hret.
  - injection Hrun as <- _. done.
  - simpl in Hrun.
    destruct (function (HidAppleib.sub_hdevs info !!! i) w)
      as [[r w1]|] eqn:Hi; [|done].
    destruct (negb (r =? 0)%Z) eqn:Hr.
    + injection Hrun as -> ->. by exists [], i, idxs, w.
    + apply negb_false_iff, Z.eqb_eq in Hr. subst r.
      destruct (IH _ Hrun Hret) as (before & j & after & w2 & -> & Hb & Hj).
      exists (i :: before), j, after, w2. split; [done|]. split; [|done].
      simpl. by rewrite Hi.
Qed.

(** [appleib_forward_int_op] of [apple-ibridge.c] never goes
    past slot 0, whatever the table holds: its result is that of the
    first slot's callback, or 0 when the first device has no driver, and
    no other slot's callback runs. *)
Lemma appleib_forward_int_op_first_slot info forward (w : world) :
  AppleIbridge.appleib_forward_int_op world driver_of info forward w
  = match AppleIbridge.sub_hdevs info !!! 0 with
    | Dev h =>
        match driver_of h with
        | Some drv => Some (forward drv h w)
        | None => Some (0%Z, w)
        end
    | _ => None
    end.
Proof.
  unfold AppleIbridge.appleib_forward_int_op,
    AppleIbridge.forward_int_op_loop. simpl.
  destruct (AppleIbridge.sub_hdevs info !!! 0) as [|h|err]; try done.
  destruct (driver_of h) as [drv|]; [|done].
  destruct (forward drv h w) as [rc w'].
  by destruct (negb (rc =? 0)%Z).
Qed.

End pm_forwarding.

Section pm_forwarding_two_devices.
Import Host Samples.

(** C3, at two virtual devices of which the second one's suspend
    callback fails with [-EIO].  [apple-ibridge.c] calls the first
    device's callback, leaves the loop, and reports success: the second
    callback never runs and its error is lost.  [hid-appleib.c] on the
    same table calls both in order and reports [-EIO], the first
    device staying suspended. *)
Theorem appleib_hid_suspend_second_errors :
  AppleIbridge.appleib_hid_suspend suspended second_errors
    (AppleIbridge.mk_info (ibridge_hdev []) [Dev 1; Dev 2] [true; true])
    2 []
  = Some (0%Z, [1])
  ∧ HidAppleib.appleib_hid_suspend suspended second_errors
      (HidAppleib.mk_info (ibridge_hdev []) [Dev 1; Dev 2] 3)
      2 []
    = Some ((- EIO)%Z, [1; 2]).
Proof. split; reflexivity. Qed.

End pm_forwarding_two_devices.

(** * A refused virtual device, [apple-ibridge.c] *)

Section ibridge_refusal.
Import HidCore Host AppleIbridge Descriptor Samples.
Context `{hid_host}.

Lemma destroy_down_index i info bus : (destroy_down i info bus).1 = (-1)%Z.
Proof. revert bus. induction i as [|i IH]; intros bus; [done|apply IH]. Qed.

(** Whenever [appleib_add_device] returns from inside its loop, what it
    returns is read at index -1 of [sub_hdevs]: never the error
    pointer, which sits at the index the roll-back loop started from. *)
Lemma add_device_turn_return outcomes rdesc start pos usage i st ret st' :
  add_device_turn outcomes rdesc start pos usage i st = (inl ret, st') →
  ret = ret_outside_sub_hdevs (-1).
Proof.
  unfold add_device_turn.
  destruct (appleib_find_dev_id_for_usage usage) as [dev_id|]; [|done].
  destruct (NUM_SUB_HDEVS <=? i); [done|].
  destruct (appleib_add_sub_dev _ _ _ _ _) as [[p info] bus].
  destruct (IS_ERR p); [|done].
  pose proof (destroy_down_index i
    (mk_info (hdev info) (<[i:=p]> (sub_hdevs info))
             (sub_open info)) bus) as Hidx.
  destruct (destroy_down _ _ _) as [idx bus']. simpl in Hidx. subst idx.
  by intros [= <- _].
Qed.

(** C5, at the sample descriptor of two recognized collections when the
    host refuses the descriptor of the second virtual device with
    [-EINVAL].  Both generations destroy the refused device and then the
    first one, so that none stays registered, but only [hid-appleib.c]
    returns the error; [apple-ibridge.c] returns what sits in front of
    the [sub_hdevs] array. *)
Theorem appleib_add_device_second_refused :
  (let '(ret, st) :=
     AppleIbridge.appleib_add_device (H := example_host) (refuses_slot 1)
       true (ibridge_hdev example_rdesc) empty_bus in
   ret = ret_outside_sub_hdevs (-1)
   ∧ sub_hdevs (st_info st) = [Dev 1; ERR_PTR (-22)]
   ∧ bus_registered (st_bus st) = []
   ∧ bus_destroyed (st_bus st) = [2; 1])
  ∧ (let '(ret, st) :=
       HidAppleib.appleib_add_sub_devs (H := example_host) (refuses_slot 1)
         (HidAppleib.probe_start (ibridge_hdev example_rdesc) empty_bus) in
     ret = (-22)%Z
     ∧ HidAppleib.sub_hdevs (HidAppleib.st_info st) = [Dev 1; ERR_PTR (-22)]
     ∧ bus_registered (HidAppleib.st_bus st) = []
     ∧ bus_destroyed (HidAppleib.st_bus st) = [2; 1]).
Proof. split; vm_compute; repeat split. Qed.

End ibridge_refusal.

(** * Open/close tracking and report fan-out, [apple-ibridge.c] *)

Section ib_open_facts.
Import Host AppleIbridge.

Lemma ib_set_open_loop_first before i after info vdev open :
  (∀ j, j ∈ before →
        sub_hdevs info !!! j ≠ Dev vdev ∧ sub_hdevs info !!! j ≠ NULL) →
  sub_hdevs info !!! i = Dev vdev ∨ sub_hdevs info !!! i = NULL →
  set_open_loop (before ++ i :: after) info vdev open
  = (mk_info (hdev info) (sub_hdevs info) (<[i := open]> (sub_open info)),
     0%Z).
Proof.
  intros Hbefore Hi.
  induction before as [|j before IH]; simpl.
  - destruct Hi as [-> | ->]; simpl; [|done].
    by rewrite bool_decide_eq_true_2.
  - destruct (Hbefore j) as [Hdev Hnull]; [by left|].
    rewrite (bool_decide_eq_false_2 _ Hdev), (bool_decide_eq_false_2 _ Hnull).
    simpl. apply IH. intros k Hk. apply Hbefore. by right.
Qed.

Lemma ib_set_open_first info vdev open i :
  i < NUM_SUB_HDEVS →
  (∀ j, j < i →
        sub_hdevs info !!! j ≠ Dev vdev ∧ sub_hdevs info !!! j ≠ NULL) →
  sub_hdevs info !!! i = Dev vdev ∨ sub_hdevs info !!! i = NULL →
  appleib_set_open info vdev open
  = (mk_info (hdev info) (sub_hdevs info) (<[i := open]> (sub_open info)),
     0%Z).
Proof.
  intros Hi Hbefore Hslot. unfold appleib_set_open.
  rewrite (seq_split_at i) by done.
  apply ib_set_open_loop_first; [|done].
  intros j Hj. apply Hbefore.
  apply elem_of_seq in Hj. lia.
Qed.

(** [appleib_set_open] of [apple-ibridge.c], whose open flags
    are an array of [bool] as long as the table: an open for a device no
    slot holds returns 0 and sets the flag of the first empty slot, a
    close for a device held in slot i returns 0 and clears flag i, and
    neither touches another flag or the table. *)
Lemma ib_set_open_tracks_registration :
  (∀ info vdev i,
     length (sub_open info) = NUM_SUB_HDEVS →
     i < NUM_SUB_HDEVS →
     sub_hdevs info !!! i = NULL →
     (∀ j, j < i → sub_hdevs info !!! j ≠ NULL) →
     (∀ j, j < NUM_SUB_HDEVS → sub_hdevs info !!! j ≠ Dev vdev) →
     ∃ info',
       appleib_ll_open info vdev = (info', 0%Z)
       ∧ hdev info' = hdev info
       ∧ sub_hdevs info' = sub_hdevs info
       ∧ sub_open info' !!! i = true
       ∧ ∀ k, k ≠ i → sub_open info' !!! k = sub_open info !!! k)
  ∧ (∀ info vdev i,
       length (sub_open info) = NUM_SUB_HDEVS →
       i < NUM_SUB_HDEVS →
       sub_hdevs info !!! i = Dev vdev →
       (∀ j, j < i →
             sub_hdevs info !!! j ≠ NULL ∧ sub_hdevs info !!! j ≠ Dev vdev) →
       ∃ info',
         appleib_set_open info vdev false = (info', 0%Z)
         ∧ appleib_ll_close info vdev = info'
         ∧ hdev info' = hdev info
         ∧ sub_hdevs info' = sub_hdevs info
         ∧ sub_open info' !!! i = false
         ∧ ∀ k, k ≠ i → sub_open info' !!! k = sub_open info !!! k).
Proof.
  split.
  - intros info vdev i Hlen Hi Hnull Hbefore Hfresh.
    eexists. split.
    { unfold appleib_ll_open. apply (ib_set_open_first _ _ _ i); auto.
      intros j Hj. split; [apply Hfresh; lia|by apply Hbefore]. }
    simpl. repeat split.
    + apply list_lookup_total_insert_eq. lia.
    + intros k Hk. by apply list_lookup_total_insert_ne.
  - intros info vdev i Hlen Hi Hdev Hbefore.
    assert (appleib_set_open info vdev false
            = (mk_info (hdev info) (sub_hdevs info)
                       (<[i := false]> (sub_open info)), 0%Z))
      as Hclose.
    { apply (ib_set_open_first _ _ false i); auto.
      intros j Hj. destruct (Hbefore j Hj). done. }
    eexists. split; [exact Hclose|].
    unfold appleib_ll_close. rewrite Hclose. simpl. repeat split.
    + apply list_lookup_total_insert_eq. lia.
    + intros k Hk. by apply list_lookup_total_insert_ne.
Qed.

Lemma ib_hid_raw_event_calls info report_type data size :
  (appleib_hid_raw_event info report_type data size).1
  = map (λ i, mk_input_report (sub_hdevs info !!! i) report_type data size)
        (filter (λ i, sub_open info !!! i = true) (seq 0 NUM_SUB_HDEVS)).
Proof.
  unfold appleib_hid_raw_event. cbn [fst].
  induction (seq 0 NUM_SUB_HDEVS) as [|i idxs IH]; [done|].
  simpl. rewrite filter_cons.
  destruct (sub_open info !!! i) eqn:Hbit.
  - rewrite decide_True by done. simpl. by f_equal.
  - rewrite decide_False by done. done.
Qed.

(** [appleib_hid_raw_event] of [apple-ibridge.c]: the calls of
    [hid_input_report] carry the report's type, bytes and size
    unchanged, a device held by one slot is called once when the slot's
    open flag is set and not at all when it is clear, and
    [appleib_hid_raw_event] returns 0. *)
Lemma ib_hid_raw_event_fan_out info report_type data size h i :
  i < NUM_SUB_HDEVS →
  sub_hdevs info !!! i = Dev h →
  (∀ j, j < NUM_SUB_HDEVS → j ≠ i → sub_hdevs info !!! j ≠ Dev h) →
  let calls := (appleib_hid_raw_event info report_type data size).1 in
  copies_to (Dev h) calls = (if sub_open info !!! i : bool then 1 else 0)
  ∧ (∀ c, c ∈ calls →
          rep_type c = report_type ∧ rep_data c = data ∧ rep_size c = size)
  ∧ (appleib_hid_raw_event info report_type data size).2 = 0%Z.
Proof.
  intros Hi Hslot Hother calls. subst calls.
  rewrite ib_hid_raw_event_calls.
  split; [|split; [|done]].
  - rewrite (copies_to_map_slots _ _ _ _ h i);
      [|by apply NoDup_filter, NoDup_seq|done|].
    + destruct (sub_open info !!! i) eqn:Hbit.
      * rewrite bool_decide_eq_true_2; [done|].
        apply list_elem_of_filter.
        split; [done|]. apply elem_of_seq. lia.
      * rewrite bool_decide_eq_false_2; [done|].
        intros [Hopen _]%list_elem_of_filter. congruence.
    + intros j [_ Hj]%list_elem_of_filter Hne. apply Hother; [|done].
      apply elem_of_seq in Hj. lia.
  - intros c (j & -> & _)%list_elem_of_fmap. done.
Qed.

End ib_open_facts.

(** * Splitting the descriptor, [apple-ibridge.c] *)

Section ib_attach_loop.
Import HidCore Scanner Host AppleIbridge.
Context `{hid_host}.
Variable outcomes : nat → host_outcome.
Variable rdesc : list Z.
Local Abbreviation e := (length rdesc).

(** The loop takes the turns of [run_segments] over the scanner calls of
    [scan_loop], and the fuel given to it is enough. *)
Lemma ib_add_device_loop_run fuel start i st :
  start ≤ e → e - start < fuel →
  add_device_loop outcomes rdesc fuel start i st
  = Some (attach_result
            (run_segments outcomes rdesc (scan_loop rdesc fuel start) i st)).
Proof.
  revert start i st.
  induction fuel as [|fuel IH]; intros start i st Hle Hfuel; [lia|].
  simpl.
  destruct (appleib_find_collection rdesc e start) as [pos usage] eqn:Hfind.
  apply appleib_find_collection_bounds in Hfind as [Hpos Hprogress]; [|done].
  simpl.
  destruct (add_device_turn outcomes rdesc start pos usage i st)
    as [[ret|i'] st']; [done|].
  destruct (e <=? pos) eqn:Hend; [done|].
  apply Nat.leb_gt in Hend.
  apply IH; lia.
Qed.

Lemma ib_add_device_loop_total fuel start i st :
  start ≤ e → e - start < fuel →
  is_Some (add_device_loop outcomes rdesc fuel start i st).
Proof. intros. rewrite ib_add_device_loop_run by done. by eexists. Qed.

End ib_attach_loop.

Section ib_attach_run.
Import HidCore Scanner Host AppleIbridge.
Context `{hid_host}.

Lemma ib_add_device_run outcomes parent bus :
  appleib_add_device outcomes true parent bus
  = attach_result
      (run_segments outcomes (dev_rdesc parent)
                    (scan_segments (dev_rdesc parent)) 0
                    (mk_probe_state (new_info parent) bus [])).
Proof.
  unfold appleib_add_device, scan_segments. cbn [negb].
  rewrite ib_add_device_loop_run by lia. done.
Qed.

End ib_attach_run.

Section ib_attach_success.
Import HidCore Scanner Host AppleIbridge.
Context `{hid_host}.
Variable outcomes : nat → host_outcome.
Variable rdesc : list Z.
Local Opaque NUM_SUB_HDEVS.

Lemma ib_set_open_loop_table idxs info vdev open :
  hdev (set_open_loop idxs info vdev open).1 = hdev info
  ∧ sub_hdevs (set_open_loop idxs info vdev open).1 = sub_hdevs info.
Proof.
  induction idxs as [|i idxs IH]; simpl; [done|].
  destruct (_ || _); done.
Qed.

(** A virtual device the host accepts: it gets the next handle, is
    registered, and the table is not touched. *)
Lemma ib_add_sub_dev_ok out info dev_id slice bus :
  outcome_ok out = true →
  ∃ info',
    appleib_add_sub_dev out info dev_id slice bus
    = (Dev (bus_next bus), info',
       mk_hid_bus (S (bus_next bus))
                  (bus_registered bus
                   ++ [(bus_next bus,
                        mk_hid_device (id_bus dev_id) (id_group dev_id)
                                      (id_vendor dev_id) (id_product dev_id)
                                      [id_vendor dev_id; id_product dev_id]
                                      slice)])
                  (bus_destroyed bus))
    ∧ hdev info' = hdev info
    ∧ sub_hdevs info' = sub_hdevs info.
Proof.
  destruct out as [err|err|err|opens]; try discriminate. intros _.
  unfold appleib_add_sub_dev, hid_allocate_device, hid_add_device. simpl.
  eexists. split; [reflexivity|].
  destruct opens; [|done].
  apply ib_set_open_loop_table.
Qed.

Lemma ib_exposed_nil n : exposed n [] = [].
Proof. unfold exposed. by rewrite filter_nil, take_nil. Qed.

Lemma ib_exposed_0 segs : exposed 0 segs = [].
Proof. unfold exposed. by rewrite take_0. Qed.

Lemma ib_exposed_cons_recognized n seg segs :
  recognized seg → exposed (S n) (seg :: segs) = seg :: exposed n segs.
Proof. intros Hr. unfold exposed. by rewrite filter_cons, decide_True. Qed.

Lemma ib_exposed_cons_unrecognized n seg segs :
  ¬ recognized seg → exposed n (seg :: segs) = exposed n segs.
Proof. intros Hr. unfold exposed. by rewrite filter_cons, decide_False. Qed.

(** As long as the host accepts every virtual device, the turns never
    return from inside the loop: they give the first free slots to the
    first recognized segments, register one device for each, and print
    one diagnostic for every other segment. *)
Lemma ib_run_segments_ok segs :
  ∀ i st,
    i ≤ NUM_SUB_HDEVS →
    length (sub_hdevs (st_info st)) = NUM_SUB_HDEVS →
    (∀ j, i ≤ j < i + length (exposed (NUM_SUB_HDEVS - i) segs) →
          outcome_ok (outcomes j) = true) →
    let new := exposed (NUM_SUB_HDEVS - i) segs in
    let handles := seq (bus_next (st_bus st)) (length new) in
    ∃ st',
      run_segments outcomes rdesc segs i st = (inr (i + length new), st')
      ∧ hdev (st_info st') = hdev (st_info st)
      ∧ sub_hdevs (st_info st')
        = take i (sub_hdevs (st_info st)) ++ (Dev <$> handles)
          ++ drop (i + length new) (sub_hdevs (st_info st))
      ∧ bus_next (st_bus st') = bus_next (st_bus st) + length new
      ∧ bus_registered (st_bus st')
        = bus_registered (st_bus st)
          ++ zip handles (sub_device rdesc <$> new)
      ∧ bus_destroyed (st_bus st') = bus_destroyed (st_bus st)
      ∧ st_log st' = st_log st ++ expected_log i segs.
Proof.
  induction segs as [|[[start pos] usage] segs IH];
    intros i st Hi Hlen Hok new handles.
  - exists st. subst new handles. rewrite ib_exposed_nil. simpl.
    rewrite Nat.add_0_r, take_drop, !app_nil_r. done.
  - simpl. unfold add_device_turn.
    destruct (appleib_find_dev_id_for_usage usage) as [dev_id|] eqn:Hrec;
      simpl.
    2:{ (* unknown collection *)
      assert (¬ recognized (start, pos, usage)) as Hnr
        by (unfold recognized; simpl; rewrite Hrec; by intros [? ?]).
      subst new handles.
      rewrite ib_exposed_cons_unrecognized in Hok |- * by done.
      rewrite decide_False by done.
      destruct (IH i (mk_probe_state (st_info st) (st_bus st)
                        (st_log st ++ [Unknown_collection usage]))
                  Hi Hlen Hok)
        as (st' & Hrun & Hhdev & Hsub & Hnext & Hreg & Hdes & Hlog).
      exists st'. simpl in *. rewrite Hrun, Hlog, <- app_assoc. done. }
    assert (recognized (start, pos, usage)) as Hr
      by (unfold recognized; simpl; by rewrite Hrec).
    rewrite (decide_True _ _ Hr).
    destruct (NUM_SUB_HDEVS <=? i) eqn:Hfull.
    { (* too many collections *)
      apply Nat.leb_le in Hfull.
      assert (i = NUM_SUB_HDEVS) as -> by lia.
      rewrite decide_False by lia.
      subst new handles.
      destruct (IH NUM_SUB_HDEVS
                  (mk_probe_state (st_info st) (st_bus st)
                     (st_log st ++ [Too_many_collections usage]))
                  Hi Hlen)
        as (st' & Hrun & Hhdev & Hsub & Hnext & Hreg & Hdes & Hlog).
      { intros j Hj. rewrite Nat.sub_diag, ib_exposed_0 in Hj.
        cbn [length] in Hj. lia. }
      revert Hrun Hsub Hnext Hreg.
      rewrite Nat.sub_diag, !ib_exposed_0. intros Hrun Hsub Hnext Hreg.
      exists st'. simpl in *. rewrite Hrun, Hlog, <- app_assoc. done. }
    (* a virtual device is made *)
    apply Nat.leb_gt in Hfull.
    rewrite decide_True by done.
    subst new handles.
    replace (NUM_SUB_HDEVS - i) with (S (NUM_SUB_HDEVS - S i)) in * by lia.
    rewrite ib_exposed_cons_recognized in Hok |- * by done.
    set (new := exposed (NUM_SUB_HDEVS - S i) segs) in *.
    simpl length in *.
    destruct (ib_add_sub_dev_ok (outcomes i) (st_info st) dev_id
                (slice rdesc start pos) (st_bus st))
      as (info' & Hadd & Hhdev' & Hsub'); [apply Hok; lia|].
    rewrite Hadd. cbn [IS_ERR].
    match goal with
    | |- context [run_segments _ _ _ (S i) ?st1] =>
        destruct (IH (S i) st1)
          as (st' & Hrun & Hhdev & Hsub & Hnext & Hreg & Hdes & Hlog)
    end.
    { lia. }
    { simpl. by rewrite length_insert, Hsub'. }
    { intros j Hj. apply Hok. fold new in Hj. lia. }
    fold new in Hrun, Hsub, Hnext, Hreg.
    exists st'. simpl in *.
    rewrite Hrun, Hhdev, Hhdev', Hsub, Hnext, Hreg, Hdes, Hlog, Hsub'.
    replace (i + S (length new)) with (S (i + length new)) by lia.
    split; [done|]. split; [done|].
    split.
    { rewrite (take_S_r _ _ (Dev (bus_next (st_bus st))))
        by (apply list_lookup_insert_eq; lia).
      rewrite take_insert_ge by lia.
      rewrite drop_insert_lt by lia.
      by rewrite <- app_assoc. }
    split; [lia|].
    split; [|done].
    rewrite <- app_assoc. do 2 f_equal.
    unfold sub_device. simpl. by rewrite Hrec.
Qed.

End ib_attach_success.

Section ib_attach_outcome.
Import HidCore Scanner Host AppleIbridge.
Context `{hid_host}.
Local Opaque NUM_SUB_HDEVS.

Lemma ib_length_exposed n segs : length (exposed n segs) ≤ n.
Proof. unfold exposed. rewrite length_take. lia. Qed.

Lemma ib_exposed_recognized n segs seg :
  seg ∈ exposed n segs → recognized seg ∧ seg ∈ segs.
Proof.
  unfold exposed. intros Hin.
  apply (list_elem_of_filter recognized).
  apply elem_of_take in Hin as (i & Hi & _).
  by eapply list_elem_of_lookup_2.
Qed.

(** When the host accepts every virtual device it is handed, the split
    succeeds and leaves one device per exposed segment, in scan order, in
    the first slots of the table. *)
Lemma ib_add_device_ok outcomes parent bus :
  let rdesc := dev_rdesc parent in
  let segs := scan_segments rdesc in
  let new := exposed NUM_SUB_HDEVS segs in
  let handles := seq (bus_next bus) (length new) in
  (∀ j, j < length new → outcome_ok (outcomes j) = true) →
  ∃ st',
    appleib_add_device outcomes true parent bus = (ret_hdev_info, st')
    ∧ hdev (st_info st') = parent
    ∧ sub_hdevs (st_info st')
      = (Dev <$> handles) ++ replicate (NUM_SUB_HDEVS - length new) NULL
    ∧ bus_next (st_bus st') = bus_next bus + length new
    ∧ bus_registered (st_bus st')
      = bus_registered bus ++ zip handles (sub_device rdesc <$> new)
    ∧ bus_destroyed (st_bus st') = bus_destroyed bus
    ∧ st_log st' = expected_log 0 segs.
Proof.
  intros rdesc segs new handles Hok.
  rewrite ib_add_device_run.
  destruct (ib_run_segments_ok outcomes rdesc segs 0
              (mk_probe_state (new_info parent) bus []))
    as (st' & Hrun & Hhdev & Hsub & Hnext & Hreg & Hdes & Hlog).
  { lia. }
  { simpl. apply length_replicate. }
  { rewrite Nat.sub_0_r. intros j Hj. apply Hok. subst new. lia. }
  rewrite Nat.sub_0_r in *. simpl in Hrun, Hhdev, Hsub, Hnext, Hreg, Hdes, Hlog.
  exists st'. fold rdesc segs. rewrite Hrun. simpl.
  rewrite drop_replicate in Hsub.
  done.
Qed.

Lemma ib_run_segments_app outcomes rdesc segs1 segs2 i st :
  run_segments outcomes rdesc (segs1 ++ segs2) i st
  = match run_segments outcomes rdesc segs1 i st with
    | (inl ret, st') => (inl ret, st')
    | (inr i', st') => run_segments outcomes rdesc segs2 i' st'
    end.
Proof.
  revert i st.
  induction segs1 as [|[[start pos] usage] segs1 IH]; intros i st; [done|].
  simpl.
  destruct (add_device_turn outcomes rdesc start pos usage i st)
    as [[ret|i'] st']; [done|apply IH].
Qed.

End ib_attach_outcome.

Section ib_anomalies.
Import HidCore Scanner Host AppleIbridge Descriptor.
Context `{hid_host}.
Local Opaque NUM_SUB_HDEVS.

Lemma ib_expected_log_unknown taken segs seg :
  seg ∈ segs → ¬ recognized seg →
  Unknown_collection seg.2 ∈ expected_log taken segs.
Proof.
  revert taken. induction segs as [|s segs IH]; intros taken Hin Hnr.
  - by apply elem_of_nil in Hin.
  - simpl. apply elem_of_cons in Hin as [->|Hin].
    + rewrite decide_False by done. by left.
    + repeat case_decide; try right; by apply IH.
Qed.

Lemma ib_expected_log_too_many taken segs k seg :
  filter recognized segs !! k = Some seg →
  NUM_SUB_HDEVS ≤ taken + k →
  Too_many_collections seg.2 ∈ expected_log taken segs.
Proof.
  revert taken k. induction segs as [|s segs IH]; intros taken k Hk Hfull.
  - by rewrite filter_nil in Hk.
  - rewrite filter_cons in Hk. simpl.
    destruct (decide (recognized s)) as [Hs|Hs].
    + destruct k as [|k]; simpl in Hk.
      * injection Hk as ->. rewrite decide_False by lia. by left.
      * case_decide; [|right]; eapply IH; try done; lia.
    + right. by eapply IH.
Qed.

Lemma ib_expected_log_length taken segs :
  taken ≤ NUM_SUB_HDEVS →
  length (expected_log taken segs)
  + length (exposed (NUM_SUB_HDEVS - taken) segs)
  = length segs.
Proof.
  revert taken. induction segs as [|s segs IH]; intros taken Htaken.
  - by rewrite ib_exposed_nil.
  - simpl. destruct (decide (recognized s)) as [Hs|Hs].
    + destruct (decide (taken < NUM_SUB_HDEVS)) as [Hlt|Hge].
      * replace (NUM_SUB_HDEVS - taken) with (S (NUM_SUB_HDEVS - S taken))
          by lia.
        rewrite ib_exposed_cons_recognized by done. simpl.
        rewrite <- (IH (S taken)) by lia. lia.
      * replace (NUM_SUB_HDEVS - taken) with 0 in * by lia.
        rewrite ib_exposed_0. simpl.
        specialize (IH taken Htaken).
        replace (NUM_SUB_HDEVS - taken) with 0 in IH by lia.
        rewrite ib_exposed_0 in IH. simpl in IH. lia.
    + rewrite ib_exposed_cons_unrecognized by done. simpl.
      rewrite <- (IH taken) by lia. lia.
Qed.

(** [appleib_add_device] of [apple-ibridge.c]: when the host
    accepts the devices handed to it, [appleib_add_device] registers
    devices for the first [ARRAY_SIZE(sub_hdevs)] recognized segments in
    scan order and for nothing else, and prints one warning for every
    other segment, unknown or beyond the capacity. *)
Lemma ib_add_device_skips_anomalies outcomes parent bus :
  let rdesc := dev_rdesc parent in
  let segs := scan_segments rdesc in
  let new := exposed NUM_SUB_HDEVS segs in
  (∀ j, j < length new → outcome_ok (outcomes j) = true) →
  ∃ st',
    appleib_add_device outcomes true parent bus = (ret_hdev_info, st')
    ∧ bus_registered (st_bus st')
      = bus_registered bus
        ++ zip (seq (bus_next bus) (length new)) (sub_device rdesc <$> new)
    ∧ length new ≤ NUM_SUB_HDEVS
    ∧ st_log st' = expected_log 0 segs
    ∧ (∀ seg, seg ∈ segs → ¬ recognized seg →
              Unknown_collection seg.2 ∈ st_log st')
    ∧ (∀ k seg, filter recognized segs !! k = Some seg →
                NUM_SUB_HDEVS ≤ k →
                Too_many_collections seg.2 ∈ st_log st')
    ∧ length (st_log st') + length new = length segs.
Proof.
  intros rdesc segs new Hok.
  destruct (ib_add_device_ok outcomes parent bus Hok)
    as (st' & Hrun & _ & _ & _ & Hreg & _ & Hlog).
  exists st'. fold rdesc segs new in Hreg, Hlog. rewrite Hlog.
  split; [done|]. split; [done|].
  split; [apply ib_length_exposed|]. split; [done|].
  split; [intros; by apply ib_expected_log_unknown|].
  split; [intros; by eapply ib_expected_log_too_many|].
  pose proof (ib_expected_log_length 0 segs) as Hlen.
  rewrite Nat.sub_0_r in Hlen. apply Hlen. lia.
Qed.

(** [apple-ibridge.c], after a successful attach: the devices
    follow the first recognized segments in scan order, each with the
    vendor and product of the device id its segment's usage maps to. *)
Lemma ib_sub_devices_follow_segments outcomes parent bus :
  let rdesc := dev_rdesc parent in
  let segs := scan_segments rdesc in
  let new := exposed NUM_SUB_HDEVS segs in
  (∀ j, j < length new → outcome_ok (outcomes j) = true) →
  ∃ st' created,
    appleib_add_device outcomes true parent bus = (ret_hdev_info, st')
    ∧ bus_registered (st_bus st') = bus_registered bus ++ created
    ∧ length created ≤ NUM_SUB_HDEVS
    ∧ sub_hdevs (st_info st')
      = (Dev <$> created.*1)
        ++ replicate (NUM_SUB_HDEVS - length created) NULL
    ∧ created.*2 = (sub_device rdesc <$> new)
    ∧ Forall recognized new.
Proof.
  intros rdesc segs new Hok.
  destruct (ib_add_device_ok outcomes parent bus Hok)
    as (st' & Hrun & _ & Hsub & _ & Hreg & _ & _).
  fold rdesc segs new in Hsub, Hreg.
  set (handles := seq (bus_next bus) (length new)) in *.
  set (devs := sub_device rdesc <$> new) in *.
  assert (length handles = length new) as Hh
    by (subst handles; apply length_seq).
  assert (length devs = length new) as Hd
    by (subst devs; apply length_fmap).
  exists st', (zip handles devs).
  split; [done|]. split; [done|].
  split.
  { rewrite length_zip_with, Hh, Hd.
    pose proof (ib_length_exposed NUM_SUB_HDEVS segs). subst new. lia. }
  rewrite fst_zip, snd_zip by lia.
  split; [by rewrite length_zip_with, Hh, Hd, Nat.min_id|].
  split; [done|].
  apply Forall_forall. intros seg Hseg.
  by apply ib_exposed_recognized in Hseg as [Hr _].
Qed.

End ib_anomalies.

Section ib_refusal_general.
Import HidCore Scanner Host AppleIbridge.
Context `{hid_host}.

Lemma ib_run_segments_return outcomes rdesc segs i st ret st' :
  run_segments outcomes rdesc segs i st = (inl ret, st') →
  ret = ret_outside_sub_hdevs (-1).
Proof.
  revert i st. induction segs as [|[[start pos] usage] segs IH];
    intros i st Hrun; [done|].
  simpl in Hrun.
  destruct (add_device_turn outcomes rdesc start pos usage i st)
    as [[r|i'] st1] eqn:Hturn.
  - injection Hrun as <- <-. by eapply add_device_turn_return.
  - by eapply IH.
Qed.

(** X16.  Once [devm_kzalloc] has given memory, [appleib_add_device] of
    [apple-ibridge.c] returns either [hdev_info] or what it reads at index
    -1 of [sub_hdevs], whatever the host refuses: no refusal of a virtual
    device comes back as an error pointer. *)
Lemma ib_add_device_returns outcomes parent bus :
  (appleib_add_device outcomes true parent bus).1 = ret_hdev_info
  ∨ (appleib_add_device outcomes true parent bus).1
    = ret_outside_sub_hdevs (-1).
Proof.
  rewrite ib_add_device_run.
  destruct (run_segments _ _ _ _ _) as [[ret|i] st'] eqn:Hrun; simpl.
  - right. by eapply ib_run_segments_return.
  - by left.
Qed.

End ib_refusal_general.

(** * The theorems at sample inputs *)

Section samples.
Import HidCore Scanner Host HidAppleib Descriptor Fixup Samples.

(** Fetch the items of a list whose length is known. *)
Ltac fetch_known :=
  repeat (eapply fetches_cons; [reflexivity|]); apply fetches_nil.

Ltac no_delimiters :=
  repeat constructor; intros [?|?]; discriminate.

(** A collection with an empty body. *)
Ltac flat_collection :=
  eexists [_; _], [];
  split;
  [ do 5 eexists;
    split; [fetch_known|];
    split; [no_delimiters|];
    split; [reflexivity|];
    split; [reflexivity|];
    split; [fetch_known|];
    split; [constructor|];
    split; reflexivity
  | reflexivity ].

Lemma example_rdesc_first_collection :
  collection_at (H := example_host) example_rdesc 20 0 13 0xFF120001.
Proof.
  eexists [_; _], [_; _; _]. split.
  - do 5 eexists.
    split; [fetch_known|].
    split; [no_delimiters|].
    split; [reflexivity|].
    split; [reflexivity|].
    split; [fetch_known|].
    split.
    { apply (nested_collection _ [_] _ []); try reflexivity;
        repeat constructor. intros [?|?]; discriminate. }
    split; reflexivity.
  - reflexivity.
Qed.

Lemma example_rdesc_second_collection :
  collection_at (H := example_host) example_rdesc 20 13 20 0x00200041.
Proof. flat_collection. Qed.


(** The 634-byte descriptor both patterns match: the fixup changes it,
    and a second pass changes nothing more. *)
Lemma appleib_report_fixup_idempotent_witness :
  first_field_matches quirk_rdesc = true
  ∧ second_field_matches quirk_rdesc = true
  ∧ appleib_report_fixup quirk_rdesc
    = <[630 := 2%Z]> (<[628 := 32%Z]>
        (<[435 := 2%Z]> (<[433 := 32%Z]> quirk_rdesc)))
  ∧ appleib_report_fixup quirk_rdesc ≠ quirk_rdesc
  ∧ appleib_report_fixup (appleib_report_fixup quirk_rdesc)
    = appleib_report_fixup quirk_rdesc.
Proof.
  split; [vm_compute; reflexivity|].
  split; [vm_compute; reflexivity|].
  split; [vm_compute; reflexivity|].
  split; [vm_compute; discriminate|].
  apply (appleib_report_fixup_idempotent quirk_rdesc).
Defined.

(** A collection with nothing in front of its begin, after the sample
    descriptor's first collection: usage 0, whatever came before. *)
Lemma find_collection_usage_is_per_call_witness :
  appleib_find_collection (H := example_host)
    (take 13 example_rdesc ++ [0xa1; 0x01; 0xc0]%Z) 16 13 = (16, 0%Z).
Proof.
  destruct (find_collection_usage_is_per_call (H := example_host))
    as (_ & Hzero & _).
  apply (Hzero _ 16 13 16 [] []); [|constructor].
  do 5 eexists.
  split; [fetch_known|].
  split; [constructor|].
  split; [reflexivity|].
  split; [reflexivity|].
  split; [fetch_known|].
  split; [constructor|].
  split; reflexivity.
Defined.

(** The race C6 is about, in the split itself: each consumer driver
    opens its device from its probe function, while the device's slot is
    still empty; the bits land on the slots the devices then take, and a
    report reaches both devices. *)
Example appleib_add_sub_devs_probe_opens :
  let st :=
    (appleib_add_sub_devs (H := example_host) (λ _, add_succeeds true)
       (probe_start (ibridge_hdev example_rdesc) empty_bus)).2 in
  sub_hdevs (st_info st) = [Dev 1; Dev 2]
  ∧ sub_open (st_info st) = 3%Z
  ∧ (appleib_hid_raw_event (st_info st) 1 [0x02; 0x10]%Z 2).1
    = [mk_input_report (Dev 1) 1 [0x02; 0x10]%Z 2;
       mk_input_report (Dev 2) 1 [0x02; 0x10]%Z 2].
Proof. vm_compute. repeat split. Qed.

(** [apple-ibridge.c] on a keyboard collection (usage 0x00010006)
    followed by the Touch Bar display collection (usage 0xFF120001): both
    usages map to the same device id, and both slots get a device with
    that id. *)
Example ib_same_device_id_twice :
  let st :=
    (AppleIbridge.appleib_add_device (H := example_host) accepts_all true
       (ibridge_hdev [ 0x05; 0x01;  0x09; 0x06;  0xa1; 0x01;  0xc0;
                       0x06; 0x12; 0xff;  0x09; 0x01;  0xa1; 0x01;  0xc0 ]%Z)
       empty_bus).2 in
  AppleIbridge.sub_hdevs (AppleIbridge.st_info st) = [Dev 1; Dev 2]
  ∧ (dev_product <$> (bus_registered (AppleIbridge.st_bus st)).*2)
    = [AppleIbridge.USB_DEVICE_ID_IBRIDGE_TB;
       AppleIbridge.USB_DEVICE_ID_IBRIDGE_TB].
Proof. vm_compute. repeat split. Qed.

End samples.

(** * Bounds and tiling of the scanner *)

Section scanner_range.
Import HidCore Scanner Descriptor.
Context `{hid_host}.
Variable rdesc : list Z.
Variable e : nat.

Lemma find_collection_loop_usage_range fuel start depth usage pos usage' :
  find_collection_loop rdesc e fuel start depth usage = Some (pos, usage') →
  (0 ≤ usage < 2 ^ 32)%Z → (0 ≤ usage' < 2 ^ 32)%Z.
Proof.
  revert start depth usage.
  induction fuel as [|fuel IH]; intros start depth usage Hr Hu; [discriminate|].
  rewrite find_collection_loop_step in Hr.
  destruct (hid_fetch_item rdesc start e) as [[next item]|];
    [|by injection Hr as <- <-].
  destruct (classify_item item).
  - by eapply IH.
  - destruct (depth - 1 <=? 0)%Z; [by injection Hr as <- <-|by eapply IH].
  - eapply IH; [exact Hr|].
    destruct (depth =? 0)%Z; [|done].
    rewrite usage_page_update. apply make_usage_range.
  - eapply IH; [exact Hr|].
    destruct (depth =? 0)%Z; [|done].
    rewrite usage_update. apply make_usage_range.
  - by eapply IH.
Qed.

(** X1.  [appleib_find_collection] stays inside the bytes it is given,
    for every descriptor and every pair of offsets: called at or past
    the end it returns the end and usage 0, called in front of the end
    it returns an offset past the one it was called at and not past the
    end, and the usage it reports fits 32 bits. *)
Theorem find_collection_stays_inside (start : nat) :
  let r := appleib_find_collection rdesc e start in
  (0 ≤ r.2 < 2 ^ 32)%Z
  ∧ (e ≤ start → r = (e, 0%Z))
  ∧ (start < e → start < r.1 ≤ e).
Proof.
  intros r. subst r. unfold appleib_find_collection.
  destruct (find_collection_loop_total rdesc e (S (e - start)) start 0 0)
    as [[pos usage] Hloop]; [lia|].
  rewrite Hloop. simpl.
  split; [by eapply find_collection_loop_usage_range|].
  split.
  - intros Hend. revert Hloop. simpl.
    rewrite hid_fetch_item_at_end by done. by intros [= <- <-].
  - intros Hlt.
    destruct (find_collection_loop_bounds rdesc e _ _ _ _ _ _ Hloop); lia.
Qed.

End scanner_range.

Section scan_tiling.
Import HidCore Scanner Descriptor Tiling.
Context `{hid_host}.
Variable rdesc : list Z.
Local Abbreviation e := (length rdesc).

Lemma scan_loop_tiles fuel start :
  start ≤ e → e - start < fuel →
  let segs := scan_loop rdesc fuel start in
  chained start segs e
  ∧ concat ((λ seg, slice rdesc seg.1.1 seg.1.2) <$> segs) = drop start rdesc
  ∧ Forall (λ seg, appleib_find_collection rdesc e seg.1.1
                   = (seg.1.2, seg.2)) segs
  ∧ (start < e → Forall (λ seg, seg.1.1 < seg.1.2) segs)
  ∧ 1 ≤ length segs ≤ S (e - start).
Proof.
  revert start.
  induction fuel as [|fuel IH]; intros start Hle Hfuel; [lia|].
  simpl.
  destruct (appleib_find_collection rdesc e start) as [pos usage] eqn:Hfind.
  pose proof Hfind as Hfind'.
  apply appleib_find_collection_bounds in Hfind as [Hpos Hprogress]; [|done].
  destruct (e <=? pos) eqn:Hend.
  - apply Nat.leb_le in Hend. assert (pos = e) as -> by lia.
    simpl. rewrite app_nil_r.
    split; [done|].
    split; [unfold slice; apply take_ge; rewrite length_drop; lia|].
    split; [by repeat constructor|].
    split; [intros; repeat constructor; simpl; lia|lia].
  - apply Nat.leb_gt in Hend.
    destruct (IH pos) as (Hch & Hcat & Hfnd & Hne & Hlen); [lia|lia|].
    cbn [chained fmap list_fmap concat fst snd length].
    split; [split; [done|split; [lia|done]]|].
    split.
    { change (slice rdesc start pos
              ++ concat ((λ seg, slice rdesc seg.1.1 seg.1.2)
                           <$> scan_loop rdesc fuel pos)
              = drop start rdesc).
      rewrite Hcat. apply slice_app_drop. lia. }
    split; [by constructor|].
    split; [intros; constructor; [simpl; lia|apply Hne; lia]|].
    assert (start < pos) by lia. lia.
Qed.

(** X2.  The scanner calls of the attach loop tile the descriptor,
    whatever its bytes are: the segments lie end to end from offset 0 to
    the descriptor's end, their bytes put together are the descriptor,
    each segment is what [appleib_find_collection] returns when called
    at the segment's start, no segment of a descriptor that has bytes is
    empty, and the loop makes at least one call and at most one more
    than the descriptor has bytes. *)
Theorem scan_segments_tile :
  let segs := scan_segments rdesc in
  chained 0 segs e
  ∧ concat ((λ seg, slice rdesc seg.1.1 seg.1.2) <$> segs) = rdesc
  ∧ Forall (λ seg, appleib_find_collection rdesc e seg.1.1
                   = (seg.1.2, seg.2)) segs
  ∧ (rdesc ≠ [] → Forall (λ seg, seg.1.1 < seg.1.2) segs)
  ∧ 1 ≤ length segs ≤ S e.
Proof.
  intros segs. subst segs. unfold scan_segments.
  destruct (scan_loop_tiles (S e) 0) as (Hch & Hcat & Hfnd & Hne & Hlen);
    [lia|lia|].
  split; [done|]. split; [done|]. split; [done|].
  split; [|lia].
  intros Hnil. apply Hne. destruct rdesc; [done|simpl; lia].
Qed.

End scan_tiling.

(** * The last usage items, and what the fixup keeps *)

Section usage_last_wins.
Import HidCore Scanner Descriptor Tiling.
Local Open Scope Z_scope.

Lemma make_usage_low page id : make_usage page id mod 2 ^ 16 = id mod 2 ^ 16.
Proof.
  unfold make_usage.
  rewrite Z.add_comm, Z.mod_add by lia. apply Z.mod_mod. lia.
Qed.

Lemma make_usage_high page id :
  make_usage page id / 2 ^ 16 = page mod 2 ^ 16.
Proof.
  unfold make_usage.
  rewrite Z.add_comm, Z.div_add by lia.
  rewrite Z.div_small by (apply Z.mod_pos_bound; lia). lia.
Qed.

Lemma set_high16_make_usage page id value :
  set_high16 (make_usage page id) value = make_usage value id.
Proof.
  unfold set_high16. unfold make_usage at 1. by rewrite make_usage_low.
Qed.

Lemma set_low16_make_usage page id value :
  set_low16 (make_usage page id) value = make_usage page value.
Proof.
  unfold set_low16. unfold make_usage at 1.
  rewrite make_usage_high, Z.mod_mod by lia. done.
Qed.

Lemma foldl_header_step page id header :
  foldl header_step (make_usage page id) header
  = make_usage
      (foldl (λ page item,
                match classify_item item with
                | global_usage_page value => value
                | _ => page
                end) page header)
      (foldl (λ id item,
                match classify_item item with
                | local_usage value => value
                | _ => id
                end) id header).
Proof.
  revert page id.
  induction header as [|item header IH]; intros page id; [done|].
  simpl. unfold header_step at 2.
  destruct (classify_item item); try apply IH.
  - rewrite set_high16_make_usage. apply IH.
  - rewrite set_low16_make_usage. apply IH.
Qed.

Lemma header_usage_last header :
  header_usage header
  = make_usage (last_usage_page header) (last_usage_id header).
Proof. apply (foldl_header_step 0 0). Qed.

(** X3.  The usage reported for a well-formed top-level collection is
    made of the last Usage Page item and the last Usage item in front of
    the collection's begin, sixteen bits of each: earlier items of the
    same kind are overwritten, and the upper half of a four-byte Usage
    item is dropped. *)
Theorem find_collection_usage_last_wins `{hid_host} (rdesc : list Z)
    (e a b : nat) (header body : list hid_item) :
  collection_items rdesc e a b header body →
  appleib_find_collection rdesc e a
  = (b, (last_usage_page header mod 2 ^ 16) * 2 ^ 16
        + last_usage_id header mod 2 ^ 16).
Proof.
  intros Hitems.
  rewrite (find_collection_collection_at rdesc e a b (header_usage header))
    by (by exists header, body).
  by rewrite header_usage_last.
Qed.

End usage_last_wins.

Section fixup_frame.
Import HidCore Fixup.

(** Read a patched buffer at a known offset. *)
Ltac read_patched :=
  repeat first
    [ rewrite list_lookup_insert_ne by lia
    | rewrite list_lookup_insert_eq by (rewrite ?length_insert; lia)
    | rewrite byte_at_insert_ne by lia
    | rewrite byte_at_insert_eq by (rewrite ?length_insert; lia) ].

Lemma first_field_matches_bytes rdesc :
  first_field_matches rdesc = true →
  length rdesc = 634
  ∧ byte_at rdesc 433 = 64%Z ∧ byte_at rdesc 435 = 1%Z.
Proof.
  unfold first_field_matches. rewrite !andb_true_iff.
  intros Hm. split; [apply Nat.eqb_eq; tauto|].
  split; apply Z.eqb_eq; tauto.
Qed.

Lemma second_field_matches_bytes rdesc :
  second_field_matches rdesc = true →
  length rdesc = 634
  ∧ byte_at rdesc 628 = 64%Z ∧ byte_at rdesc 630 = 1%Z.
Proof.
  unfold second_field_matches. rewrite !andb_true_iff.
  intros Hm. split; [apply Nat.eqb_eq; tauto|].
  split; apply Z.eqb_eq; tauto.
Qed.

(** X4.  What [appleib_report_fixup] leaves alone, for every
    descriptor: the length; every byte but those at offsets 433, 435,
    628 and 630; the whole descriptor when its length is not 634.  Where
    a pattern matches the two bytes become 32 and 2, and the product of
    the report size and the report count of either field is what it
    was. *)
Theorem appleib_report_fixup_frame (rdesc : list Z) :
  let fixed := appleib_report_fixup rdesc in
  length fixed = length rdesc
  ∧ (∀ i, i ≠ 433 → i ≠ 435 → i ≠ 628 → i ≠ 630 → fixed !! i = rdesc !! i)
  ∧ (length rdesc ≠ 634 → fixed = rdesc)
  ∧ (first_field_matches rdesc = true →
     fixed !! 433 = Some 32%Z ∧ fixed !! 435 = Some 2%Z)
  ∧ (second_field_matches rdesc = true →
     fixed !! 628 = Some 32%Z ∧ fixed !! 630 = Some 2%Z)
  ∧ (byte_at fixed 433 * byte_at fixed 435
     = byte_at rdesc 433 * byte_at rdesc 435)%Z
  ∧ (byte_at fixed 628 * byte_at fixed 630
     = byte_at rdesc 628 * byte_at rdesc 630)%Z.
Proof.
  intros fixed. subst fixed. unfold appleib_report_fixup.
  destruct (first_field_matches rdesc) eqn:H1;
    [rewrite second_field_after_first;
     apply first_field_matches_bytes in H1 as (Hlen & H433 & H435)|];
    (destruct (second_field_matches rdesc) eqn:H2;
     [apply second_field_matches_bytes in H2 as (Hlen' & H628 & H630)|]);
    (split; [by rewrite ?length_insert|]);
    (split; [intros; by read_patched|]);
    (split; [done|]);
    (split; [try done; intros _; by read_patched|]);
    (split; [try done; intros _; by read_patched|]);
    read_patched; rewrite ?H433, ?H435, ?H628, ?H630; done.
Qed.

End fixup_frame.

(** * Edges of open and close, [hid-appleib.c] *)

Section appleib_open_edges.
Import Host HidAppleib.
Local Opaque NUM_SUB_HDEVS.

Lemma set_open_loop_result idxs info vdev open :
  (set_open_loop idxs info vdev open).2 = 0%Z
  ∨ (set_open_loop idxs info vdev open = (info, (- ENODEV)%Z)
     ∧ ∀ j, j ∈ idxs →
            sub_hdevs info !!! j ≠ Dev vdev ∧ sub_hdevs info !!! j ≠ NULL).
Proof.
  induction idxs as [|i idxs IH]; simpl.
  - right. split; [done|]. intros j Hj. by apply elem_of_nil in Hj.
  - destruct (bool_decide (sub_hdevs info !!! i = Dev vdev)) eqn:Hdev;
      [by left|].
    destruct (bool_decide (sub_hdevs info !!! i = NULL)) eqn:Hnull;
      [by left|].
    simpl. destruct IH as [IH|[IH Hall]]; [by left|right].
    split; [done|].
    apply bool_decide_eq_false in Hdev, Hnull.
    intros j [->|Hj]%elem_of_cons; [done|by apply Hall].
Qed.

(** X5.  [appleib_set_open] of [hid-appleib.c] returns 0 or [-ENODEV];
    it returns [-ENODEV] exactly when no slot holds the device and no
    slot is empty, and then it changes nothing.  It never changes the
    table of devices or the real device. *)
Theorem appleib_set_open_enodev info vdev open :
  let r := appleib_set_open info vdev open in
  (r.2 = 0%Z ∨ r.2 = (- ENODEV)%Z)
  ∧ (r.2 = (- ENODEV)%Z
     ↔ ∀ j, j < NUM_SUB_HDEVS →
            sub_hdevs info !!! j ≠ Dev vdev ∧ sub_hdevs info !!! j ≠ NULL)
  ∧ (r.2 = (- ENODEV)%Z → r.1 = info)
  ∧ hdev r.1 = hdev info
  ∧ sub_hdevs r.1 = sub_hdevs info.
Proof.
  intros r. subst r. unfold appleib_set_open.
  destruct (set_open_loop_table (seq 0 NUM_SUB_HDEVS) info vdev open)
    as [Hhdev Hsub].
  destruct (set_open_loop_result (seq 0 NUM_SUB_HDEVS) info vdev open)
    as [Hzero|[Hnone Hall]].
  - split; [by left|].
    split; [|split; [rewrite Hzero; discriminate|done]].
    split; [rewrite Hzero; discriminate|].
    intros Hall.
    rewrite set_open_loop_none in Hzero; [discriminate|].
    intros j Hj. apply Hall. apply elem_of_seq in Hj. lia.
  - rewrite Hnone. simpl.
    split; [by right|].
    split; [|done].
    split; [|done].
    intros _ j Hj. apply Hall. apply elem_of_seq. lia.
Qed.

End appleib_open_edges.

Section appleib_open_close_reports.
Import Host HidAppleib.
Local Opaque NUM_SUB_HDEVS.

(** The copies of a report the device of slot [i] gets. *)
Lemma appleib_hid_raw_event_copies info report_type data size h i :
  i < NUM_SUB_HDEVS →
  sub_hdevs info !!! i = Dev h →
  (∀ j, j < NUM_SUB_HDEVS → j ≠ i → sub_hdevs info !!! j ≠ Dev h) →
  copies_to (Dev h) (appleib_hid_raw_event info report_type data size).1
  = if Z.testbit (sub_open info) (Z.of_nat i) then 1 else 0.
Proof.
  intros Hi Hslot Hother.
  rewrite appleib_hid_raw_event_calls.
  rewrite (copies_to_map_slots _ _ _ _ h i);
    [|by apply NoDup_filter, NoDup_seq|done|].
  - destruct (Z.testbit (sub_open info) (Z.of_nat i)) eqn:Hbit.
    + rewrite bool_decide_eq_true_2; [done|].
      apply list_elem_of_filter. split; [done|]. apply elem_of_seq. lia.
    + rewrite bool_decide_eq_false_2; [done|].
      intros [Hopen _]%list_elem_of_filter. congruence.
  - intros j [_ Hj]%list_elem_of_filter Hne. apply Hother; [|done].
    apply elem_of_seq in Hj. lia.
Qed.

(** X6.  Open and close of a registered virtual device switch its
    reports on and off ([hid-appleib.c]).  For a device held by one
    slot of a full table: [appleib_ll_open] returns 0, a report arriving
    after the open reaches the device once, a report arriving after the
    close that follows does not reach it, the flags of the other slots
    stay as they were, and open followed by close leaves what close
    alone leaves. *)
Theorem appleib_ll_open_close_switch_reports info h i report_type data size :
  i < NUM_SUB_HDEVS →
  sub_hdevs info !!! i = Dev h →
  (∀ j, j < NUM_SUB_HDEVS → j ≠ i →
        sub_hdevs info !!! j ≠ Dev h ∧ sub_hdevs info !!! j ≠ NULL) →
  let opened := (appleib_ll_open info h).1 in
  let closed := appleib_ll_close opened h in
  (appleib_ll_open info h).2 = 0%Z
  ∧ copies_to (Dev h)
      (appleib_hid_raw_event opened report_type data size).1 = 1
  ∧ copies_to (Dev h)
      (appleib_hid_raw_event closed report_type data size).1 = 0
  ∧ (∀ k, k ≠ i →
       Z.testbit (sub_open opened) (Z.of_nat k)
       = Z.testbit (sub_open info) (Z.of_nat k)
       ∧ Z.testbit (sub_open closed) (Z.of_nat k)
         = Z.testbit (sub_open info) (Z.of_nat k))
  ∧ sub_hdevs closed = sub_hdevs info
  ∧ closed = appleib_ll_close info h.
Proof.
  intros Hi Hslot Hother opened closed.
  assert (∀ info0 open,
            sub_hdevs info0 = sub_hdevs info →
            appleib_set_open info0 h open
            = (mk_info (hdev info0) (sub_hdevs info0)
                 (if open then Z.setbit (sub_open info0) (Z.of_nat i)
                  else Z.clearbit (sub_open info0) (Z.of_nat i)), 0%Z))
    as Hset.
  { intros info0 open Hsame.
    apply (appleib_set_open_first info0 h open i); [done| |].
    - intros j Hj. rewrite Hsame. apply Hother; lia.
    - left. by rewrite Hsame. }
  subst opened closed. unfold appleib_ll_open, appleib_ll_close.
  rewrite (Hset info true eq_refl). cbn [fst snd].
  rewrite !Hset by done. cbn [fst snd hdev sub_hdevs sub_open].
  split; [done|].
  split.
  { rewrite (appleib_hid_raw_event_copies _ _ _ _ h i); try done.
    - cbn [sub_open]. by rewrite Z.setbit_eq by lia.
    - intros j Hj Hne. by apply Hother. }
  split.
  { rewrite (appleib_hid_raw_event_copies _ _ _ _ h i); try done.
    - cbn [sub_open]. by rewrite Z.clearbit_eq.
    - intros j Hj Hne. by apply Hother. }
  split.
  { intros k Hk. rewrite Z.clearbit_neq, !Z.setbit_neq by lia. done. }
  split; [done|].
  f_equal. apply Z.bits_inj'. intros n Hn.
  destruct (decide (n = Z.of_nat i)) as [->|Hne].
  - by rewrite !Z.clearbit_eq.
  - rewrite !Z.clearbit_neq, Z.setbit_neq by lia. done.
Qed.

End appleib_open_close_reports.

(** * The order of the forwarding, [hid-appleib.c] *)

Section pm_forwarding_order.
Import Host HidAppleib.
Variable world : Type.
Variable info : appleib_hid_dev_info.
Variable function : hid_device_ptr → world → option (Z * world).

(** How the loop over the slots [a], [a + 1], ... ends: with an error,
    it is the value some slot's callback returned after every slot in
    front of it returned 0; without a result, some slot's callback gave
    none after every slot in front of it returned 0. *)
Lemma forward_func_loop_seq n :
  ∀ a (w : world),
    match forward_func_loop world info function (seq a n) w with
    | Some (ret, w') =>
        ret ≠ 0%Z →
        ∃ k w1,
          k < n
          ∧ forward_func_loop world info function (seq a k) w
            = Some (0%Z, w1)
          ∧ function (sub_hdevs info !!! (a + k)) w1 = Some (ret, w')
    | None =>
        ∃ k w1,
          k < n
          ∧ forward_func_loop world info function (seq a k) w
            = Some (0%Z, w1)
          ∧ function (sub_hdevs info !!! (a + k)) w1 = None
    end.
Proof.
  induction n as [|n IH]; intros a w; [by intros []|].
  cbn [seq forward_func_loop].
  destruct (function (sub_hdevs info !!! a) w) as [[r w1]|] eqn:Ha.
  2:{ exists 0, w. rewrite Nat.add_0_r. split; [lia|]. by split. }
  destruct (Z.eqb_spec r 0) as [->|Hr]; cbn [negb].
  - specialize (IH (S a) w1).
    destruct (forward_func_loop world info function (seq (S a) n) w1)
      as [[ret w']|].
    + intros Hret. destruct (IH Hret) as (k & w2 & Hk & Hfront & Hslot).
      exists (S k), w2. split; [lia|].
      cbn [seq forward_func_loop]. rewrite Ha. cbn [Z.eqb negb].
      split; [done|]. by rewrite <- Nat.add_succ_comm.
    + destruct IH as (k & w2 & Hk & Hfront & Hslot).
      exists (S k), w2. split; [lia|].
      cbn [seq forward_func_loop]. rewrite Ha. cbn [Z.eqb negb].
      split; [done|]. by rewrite <- Nat.add_succ_comm.
  - intros _. exists 0, w. rewrite Nat.add_0_r. split; [lia|]. by split.
Qed.

(** X7.  [appleib_forward_func] of [hid-appleib.c] visits the slots in
    order and stops at the first callback that does not return 0.  An
    error it returns is the value of some slot's callback, all slots in
    front having returned 0, with the state as that callback left it;
    and the first slot that returns an error after such a front decides
    the result.  There is no result exactly when a callback gives none
    (a slot that holds no device) after such a front. *)
Theorem appleib_forward_func_first_error (w : world) :
  let r := appleib_forward_func world info function w in
  let front i := forward_func_loop world info function (seq 0 i) w in
  (∀ ret w',
     r = Some (ret, w') → ret ≠ 0%Z →
     ∃ i w1,
       i < NUM_SUB_HDEVS ∧ front i = Some (0%Z, w1)
       ∧ function (sub_hdevs info !!! i) w1 = Some (ret, w'))
  ∧ (∀ i w1 w2 err,
       i < NUM_SUB_HDEVS → front i = Some (0%Z, w1) →
       function (sub_hdevs info !!! i) w1 = Some (err, w2) →
       err ≠ 0%Z →
       r = Some (err, w2))
  ∧ (r = None
     ↔ ∃ i w1,
         i < NUM_SUB_HDEVS ∧ front i = Some (0%Z, w1)
         ∧ function (sub_hdevs info !!! i) w1 = None).
Proof.
  intros r front. subst r front. unfold appleib_forward_func.
  pose proof (forward_func_loop_seq NUM_SUB_HDEVS 0 w) as Hend.
  split; [|split; [|split]].
  - intros ret w' Hrun Hret. rewrite Hrun in Hend. exact (Hend Hret).
  - intros i w1 w2 err Hi Hfront Hslot Herr.
    rewrite (seq_split_at i NUM_SUB_HDEVS Hi).
    by apply (forward_func_loop_first_error world) with w1.
  - intros Hrun. by rewrite Hrun in Hend.
  - intros (i & w1 & Hi & Hfront & Hslot).
    rewrite (seq_split_at i NUM_SUB_HDEVS Hi).
    rewrite (forward_func_loop_app world), Hfront. cbn [Z.eqb negb].
    cbn [forward_func_loop]. by rewrite Hslot.
Qed.

End pm_forwarding_order.

(** * Probe and remove, [hid-appleib.c] *)

Section registry_facts.
Import Host.

(** The registry after [hid_destroy_device] on each of [ptrs]. *)
Lemma destroy_each_registered (ptrs : list hid_device_ptr) bus :
  bus_registered (foldl (λ bus p, hid_destroy_device p bus) bus ptrs)
  = filter (λ r, Dev r.1 ∉ ptrs) (bus_registered bus).
Proof.
  revert bus. induction ptrs as [|p ptrs IH]; intros bus.
  - simpl. induction (bus_registered bus) as [|r reg IHreg]; [done|].
    rewrite filter_cons_True by (intros ?%elem_of_nil; done).
    by rewrite <- IHreg.
  - simpl. rewrite IH.
    assert (∀ r : nat * hid_device,
              p ≠ Dev r.1 → Dev r.1 ∉ ptrs ↔ Dev r.1 ∉ p :: ptrs) as Hskip.
    { intros r Hp. rewrite elem_of_cons. split; [|tauto].
      intros Hnot [Heq|Hin]; [by apply Hp|done]. }
    destruct p as [|h|err]; simpl.
    + apply list_filter_iff. intros r. by apply Hskip.
    + rewrite list_filter_filter. apply list_filter_iff. intros r.
      rewrite elem_of_cons. split.
      * intros [Hin Hne] [[= Heq]|Hin']; [by apply Hne|done].
      * intros Hnot. split; [tauto|]. intros Heq. apply Hnot. left.
        by rewrite Heq.
    + apply list_filter_iff. intros r. by apply Hskip.
Qed.

(** The handles among the pointers of a table filled from its first
    slot. *)
Lemma elem_of_filled_table n0 n m h :
  Dev h ∈ (Dev <$> seq n0 n) ++ replicate m NULL ↔ n0 ≤ h < n0 + n.
Proof.
  rewrite elem_of_app, list_elem_of_fmap. split.
  - intros [(j & [= ->] & Hj%elem_of_seq)|[? _]%elem_of_replicate]; done.
  - intros Hh. left. exists h. split; [done|]. by apply elem_of_seq.
Qed.

(** Destroying the devices a fresh registry has handed out since leaves
    what it held before. *)
Lemma destroy_new_registered bus n m (devs : list hid_device) :
  bus_fresh bus →
  filter (λ r, Dev r.1 ∉ (Dev <$> seq (bus_next bus) n) ++ replicate m NULL)
         (bus_registered bus ++ zip (seq (bus_next bus) n) devs)
  = bus_registered bus.
Proof.
  intros Hfresh.
  rewrite (list_filter_iff _
             (λ r, ¬ (bus_next bus ≤ r.1 < bus_next bus + n)))
    by (intros r; by rewrite elem_of_filled_table).
  rewrite filter_app, (filter_fresh_registered bus n Hfresh).
  rewrite filter_new_registered by lia. apply app_nil_r.
Qed.

End registry_facts.

Section appleib_teardown.
Import HidCore Scanner Host HidAppleib RealDevice HidAppleibDriver.
Local Opaque NUM_SUB_HDEVS.

Lemma remove_sub_devs_loop_spec idxs info bus :
  remove_sub_devs_loop idxs info bus
  = ((λ i, sub_hdevs info !!! i) <$> idxs,
     foldl (λ bus p, hid_destroy_device p bus) bus
           ((λ i, sub_hdevs info !!! i) <$> idxs)).
Proof.
  revert bus. induction idxs as [|i idxs IH]; intros bus; [done|].
  simpl. by rewrite IH.
Qed.

Lemma lookup_total_seq {A} `{!Inhabited A} (l : list A) :
  (λ i, l !!! i) <$> seq 0 (length l) = l.
Proof.
  apply list_eq. intros i. rewrite list_lookup_fmap.
  destruct (decide (i < length l)) as [Hlt|Hge].
  - rewrite lookup_seq_lt by done. simpl.
    destruct (lookup_lt_is_Some_2 l i Hlt) as [x Hx].
    by rewrite Hx, (list_lookup_total_correct _ _ _ Hx).
  - rewrite lookup_seq_ge, lookup_ge_None_2 by lia. done.
Qed.

(** The teardown hands every slot of a full-length table to
    [hid_destroy_device]. *)
Lemma appleib_remove_sub_devs_spec info bus :
  length (sub_hdevs info) = NUM_SUB_HDEVS →
  appleib_remove_sub_devs info bus
  = (sub_hdevs info,
     foldl (λ bus p, hid_destroy_device p bus) bus (sub_hdevs info)).
Proof.
  intros Hlen. unfold appleib_remove_sub_devs.
  rewrite remove_sub_devs_loop_spec, <- Hlen, lookup_total_seq. done.
Qed.

End appleib_teardown.

Section appleib_attach_cases.
Import HidCore Scanner Host HidAppleib RealDevice HidAppleibDriver.
Context `{hid_host}.
Local Opaque NUM_SUB_HDEVS.

(** Either the host accepts each of the first [n] devices, or there is
    a first one it refuses. *)
Lemma first_refusal (outcomes : nat → host_outcome) n :
  (∀ j, j < n → outcome_ok (outcomes j) = true)
  ∨ ∃ k err, k < n ∧ (∀ j, j < k → outcome_ok (outcomes j) = true)
             ∧ outcome_error (outcomes k) = Some err.
Proof.
  induction n as [|n [Hall|(k & err & Hk & Hbefore & Herr)]].
  - left. intros j Hj. lia.
  - destruct (outcomes n) as [err|err|err|opens] eqn:Hn.
    1-3: right; exists n, err; rewrite Hn; split; [lia|]; split; [|done];
         intros j Hj; apply Hall; lia.
    left. intros j Hj. destruct (decide (j = n)) as [->|Hne].
    + by rewrite Hn.
    + apply Hall. lia.
  - right. exists k, err. split; [lia|done].
Qed.

(** What [appleib_add_sub_devs] leaves, by what the host answers. *)
Lemma appleib_add_sub_devs_cases outcomes parent bus :
  let rdesc := dev_rdesc parent in
  let new := exposed NUM_SUB_HDEVS (scan_segments rdesc) in
  let handles := seq (bus_next bus) (length new) in
  bus_fresh bus →
  refuses_with_errno outcomes →
  (∃ st',
     appleib_add_sub_devs outcomes (probe_start parent bus) = (0%Z, st')
     ∧ (∀ j, j < length new → outcome_ok (outcomes j) = true)
     ∧ sub_hdevs (st_info st')
       = (Dev <$> handles) ++ replicate (NUM_SUB_HDEVS - length new) NULL
     ∧ bus_next (st_bus st') = bus_next bus + length new
     ∧ bus_registered (st_bus st')
       = bus_registered bus ++ zip handles (sub_device parent rdesc <$> new))
  ∨ (∃ st' k err,
       appleib_add_sub_devs outcomes (probe_start parent bus) = (err, st')
       ∧ k < length new
       ∧ (∀ j, j < k → outcome_ok (outcomes j) = true)
       ∧ outcome_error (outcomes k) = Some err
       ∧ is_errno err
       ∧ bus_registered (st_bus st') = bus_registered bus).
Proof.
  intros rdesc new handles Hfresh Herrno.
  destruct (first_refusal outcomes (length new))
    as [Hall|(k & err & Hk & Hbefore & Herr)].
  - left.
    destruct (appleib_add_sub_devs_ok outcomes parent bus Hall)
      as (st' & Hrun & _ & Hsub & Hnext & Hreg & _).
    exists st'. done.
  - right.
    destruct (appleib_add_sub_devs_rolls_back outcomes parent bus k err
                Hfresh Hk Hbefore Herr (Herrno _ _ Herr))
      as (st' & Hrun & Hreg & _).
    exists st', k, err. split; [done|]. split; [done|]. split; [done|].
    split; [done|]. split; [by eapply Herrno|done].
Qed.

(** X8.  [appleib_add_sub_devs] of [hid-appleib.c] attaches all or
    nothing, for every descriptor and every way the host may refuse.  It
    returns 0 exactly when the host accepts every device made for the
    first [ARRAY_SIZE(sub_hdevs)] recognized collections, and then these
    devices are registered behind the ones there were.  Otherwise it
    returns the errno of the first refusal, and the registry holds what
    it held before the call. *)
Theorem appleib_add_sub_devs_all_or_nothing outcomes parent bus :
  bus_fresh bus →
  refuses_with_errno outcomes →
  let rdesc := dev_rdesc parent in
  let new := exposed NUM_SUB_HDEVS (scan_segments rdesc) in
  let r := appleib_add_sub_devs outcomes (probe_start parent bus) in
  (r.1 = 0%Z ↔ ∀ j, j < length new → outcome_ok (outcomes j) = true)
  ∧ (r.1 = 0%Z →
     bus_registered (st_bus r.2)
     = bus_registered bus
       ++ zip (seq (bus_next bus) (length new))
              (sub_device parent rdesc <$> new))
  ∧ (r.1 ≠ 0%Z →
     is_errno r.1
     ∧ bus_registered (st_bus r.2) = bus_registered bus
     ∧ ∃ k, k < length new
            ∧ (∀ j, j < k → outcome_ok (outcomes j) = true)
            ∧ outcome_error (outcomes k) = Some r.1).
Proof.
  intros Hfresh Herrno rdesc new r. subst r.
  destruct (appleib_add_sub_devs_cases outcomes parent bus Hfresh Herrno)
    as [(st' & -> & Hall & _ & _ & Hreg)
       |(st' & k & err & -> & Hk & Hbefore & Herr & Hneg & Hreg)];
    cbn [fst snd].
  - split; [done|]. split; [done|]. done.
  - assert (err ≠ 0%Z) as Hne by (unfold is_errno in Hneg; lia).
    split.
    { split; [done|]. intros Hall. specialize (Hall k Hk).
      destruct (outcomes k); simpl in *; congruence. }
    split; [done|]. intros _.
    split; [done|]. split; [done|]. by exists k.
Qed.

End appleib_attach_cases.

Section appleib_probe_facts.
Import HidCore Scanner Host HidAppleib RealDevice HidAppleibDriver.
Context `{hid_host}.
Local Opaque NUM_SUB_HDEVS.

(** The table and the registry a probe that got as far as opening the
    real device works on. *)
Lemma appleib_hid_probe_attached host outcomes hdev bus :
  let rdesc := dev_rdesc hdev in
  let new := exposed NUM_SUB_HDEVS (scan_segments rdesc) in
  let handles := seq (bus_next bus) (length new) in
  bus_fresh bus →
  refuses_with_errno outcomes →
  devm_kzalloc_ok host = true →
  hid_parse_ret host = 0%Z →
  hid_hw_start_ret host = 0%Z →
  (∀ j, j < length new → outcome_ok (outcomes j) = true) →
  ∃ st',
    appleib_add_sub_devs outcomes (probe_start hdev bus) = (0%Z, st')
    ∧ sub_hdevs (st_info st')
      = (Dev <$> handles) ++ replicate (NUM_SUB_HDEVS - length new) NULL
    ∧ bus_registered (st_bus st')
      = bus_registered bus ++ zip handles (sub_device hdev rdesc <$> new)
    ∧ appleib_hid_probe host outcomes hdev bus
      = if negb (hid_hw_open_ret host =? 0)%Z then
          let '(ptrs, bus') :=
            appleib_remove_sub_devs (st_info st') (st_bus st') in
          (hid_hw_open_ret host,
           mk_driver_state (Some (st_info st')) bus' (st_log st')
             [hid_parse 0; hid_hw_start 0;
              hid_hw_open (hid_hw_open_ret host); hid_hw_stop]
             [Failed_to_open_HID_device (hid_hw_open_ret host)] ptrs)
        else
          (0%Z,
           mk_driver_state (Some (st_info st')) (st_bus st') (st_log st')
             [hid_parse 0; hid_hw_start 0; hid_hw_open (hid_hw_open_ret host)]
             [] []).
Proof.
  intros rdesc new handles Hfresh Herrno Hkz Hparse Hstart Hall.
  destruct (appleib_add_sub_devs_ok outcomes hdev bus Hall)
    as (st' & Hrun & _ & Hsub & _ & Hreg & _).
  exists st'. split; [done|]. split; [done|]. split; [done|].
  unfold appleib_hid_probe. rewrite Hkz, Hparse, Hstart, Hrun. simpl.
  destruct (negb (hid_hw_open_ret host =? 0)%Z); [|done].
  by destruct (appleib_remove_sub_devs _ _).
Qed.

Lemma length_filled_table n0 n :
  n ≤ NUM_SUB_HDEVS →
  length ((Dev <$> seq n0 n) ++ replicate (NUM_SUB_HDEVS - n) NULL)
  = NUM_SUB_HDEVS.
Proof.
  intros Hn. rewrite length_app, length_fmap, length_seq, length_replicate.
  lia.
Qed.

(** X9.  [appleib_hid_probe] of [hid-appleib.c], on a descriptor that
    fills every slot.  It returns 0 exactly when the allocation, the
    parse, the start, every virtual device and the open succeed; then
    the real device is started and opened once, the virtual devices are
    registered and the driver data holds them.  When it returns an
    error the registry is what it was, the real device is neither
    started nor open, and what the teardown destroyed are devices. *)
Theorem appleib_hid_probe_outcome host outcomes hdev bus :
  let rdesc := dev_rdesc hdev in
  let new := exposed NUM_SUB_HDEVS (scan_segments rdesc) in
  bus_fresh bus →
  refuses_with_errno outcomes →
  length new = NUM_SUB_HDEVS →
  let r := appleib_hid_probe host outcomes hdev bus in
  (r.1 = 0%Z
   ↔ devm_kzalloc_ok host = true
     ∧ hid_parse_ret host = 0%Z
     ∧ hid_hw_start_ret host = 0%Z
     ∧ (∀ j, j < NUM_SUB_HDEVS → outcome_ok (outcomes j) = true)
     ∧ hid_hw_open_ret host = 0%Z)
  ∧ (r.1 = 0%Z →
     started_after (ds_calls r.2) = true
     ∧ opens_after (ds_calls r.2) = 1%Z
     ∧ ds_torn_down r.2 = []
     ∧ bus_registered (ds_bus r.2)
       = bus_registered bus
         ++ zip (seq (bus_next bus) NUM_SUB_HDEVS)
                (sub_device hdev rdesc <$> new)
     ∧ ∃ info, ds_drvdata r.2 = Some info
               ∧ sub_hdevs info = Dev <$> seq (bus_next bus) NUM_SUB_HDEVS)
  ∧ (r.1 ≠ 0%Z →
     started_after (ds_calls r.2) = false
     ∧ opens_after (ds_calls r.2) = 0%Z
     ∧ bus_registered (ds_bus r.2) = bus_registered bus
     ∧ Forall (λ p, ∃ h, p = Dev h) (ds_torn_down r.2)).
Proof.
  intros rdesc new Hfresh Herrno Hfull r. subst r.
  destruct (devm_kzalloc_ok host) eqn:Hkz.
  2:{ unfold appleib_hid_probe. rewrite Hkz. cbn [negb fst snd ds_calls
        ds_bus ds_torn_down].
      split; [split; [discriminate|intros [? _]; discriminate]|].
      split; [discriminate|]. intros _. by repeat split. }
  destruct (Z.eq_dec (hid_parse_ret host) 0%Z) as [Hparse|Hparse].
  2:{ unfold appleib_hid_probe. rewrite Hkz.
      apply Z.eqb_neq in Hparse as Hparse'. rewrite Hparse'.
      cbn [negb fst snd ds_calls ds_bus ds_torn_down].
      split; [split; [done|intros (_ & ? & _); done]|].
      split; [done|]. intros _. simpl. by repeat split. }
  destruct (Z.eq_dec (hid_hw_start_ret host) 0%Z) as [Hstart|Hstart].
  2:{ unfold appleib_hid_probe. rewrite Hkz, Hparse.
      apply Z.eqb_neq in Hstart as Hstart'. rewrite Hstart'.
      cbn [negb fst snd ds_calls ds_bus ds_torn_down Z.eqb app].
      split; [split; [done|intros (_ & _ & ? & _); done]|].
      split; [done|]. intros _.
      unfold started_after, opens_after. simpl. rewrite Hstart'.
      by repeat split. }
  destruct (appleib_add_sub_devs_cases outcomes hdev bus Hfresh Herrno)
    as [(st' & Hrun & Hall & _)
       |(st' & k & err & Hrun & Hk & Hbefore & Herr & Hneg & Hreg)].
  2:{ (* a virtual device is refused *)
      assert (err ≠ 0%Z) as Hne by (unfold is_errno in Hneg; lia).
      unfold appleib_hid_probe. rewrite Hkz, Hparse, Hstart, Hrun.
      apply Z.eqb_neq in Hne as Hne'.
      cbn [negb Z.eqb app]. rewrite Hne'.
      cbn [negb fst snd ds_calls ds_bus ds_torn_down].
      split.
      { split; [done|]. intros (_ & _ & _ & Hall & _).
        fold rdesc new in Hk. rewrite Hfull in Hk.
        specialize (Hall k Hk).
        destruct (outcomes k); simpl in *; congruence. }
      split; [done|]. intros _. by repeat split. }
  fold rdesc new in Hall.
  destruct (appleib_hid_probe_attached host outcomes hdev bus
              Hfresh Herrno Hkz Hparse Hstart Hall)
    as (st & Hrun' & Hsub & Hreg & Hprobe).
  fold rdesc new in Hsub, Hreg. rewrite Hfull in Hsub, Hreg.
  rewrite Nat.sub_diag in Hsub. simpl in Hsub. rewrite app_nil_r in Hsub.
  rewrite Hprobe.
  destruct (Z.eq_dec (hid_hw_open_ret host) 0%Z) as [Hopen|Hopen].
  - rewrite Hopen. cbn [negb Z.eqb fst snd ds_calls ds_bus ds_torn_down
                        ds_drvdata].
    split.
    { split; [|done]. intros _. rewrite <- Hfull. done. }
    split; [|done]. intros _.
    split; [done|]. split; [done|]. split; [done|]. split; [done|].
    by exists (st_info st).
  - apply Z.eqb_neq in Hopen as Hopen'. rewrite Hopen'. cbn [negb].
    rewrite appleib_remove_sub_devs_spec
      by (rewrite Hsub, length_fmap, length_seq; done).
    cbn [fst snd ds_calls ds_bus ds_torn_down].
    split; [split; [done|intros (_ & _ & _ & _ & ?); done]|].
    split; [done|]. intros _.
    split; [unfold started_after; simpl; by rewrite ?Hopen'|].
    split; [unfold opens_after; simpl; by rewrite ?Hopen'|].
    split.
    + rewrite destroy_each_registered, Hsub, Hreg.
      rewrite <- (app_nil_r (Dev <$> _)).
      apply (destroy_new_registered bus NUM_SUB_HDEVS 0). done.
    + rewrite Hsub. apply Forall_fmap, Forall_forall. intros h _. by exists h.
Qed.

End appleib_probe_facts.

Section appleib_remove_facts.
Import HidCore Scanner Host HidAppleib RealDevice HidAppleibDriver.
Context `{hid_host}.
Local Opaque NUM_SUB_HDEVS.

(** A probe that returns 0 has been through every step. *)
Lemma appleib_hid_probe_success host outcomes hdev bus ds :
  let rdesc := dev_rdesc hdev in
  let new := exposed NUM_SUB_HDEVS (scan_segments rdesc) in
  let handles := seq (bus_next bus) (length new) in
  bus_fresh bus →
  refuses_with_errno outcomes →
  appleib_hid_probe host outcomes hdev bus = (0%Z, ds) →
  ∃ st',
    ds = mk_driver_state (Some (st_info st')) (st_bus st') (st_log st')
           [hid_parse 0; hid_hw_start 0; hid_hw_open 0] [] []
    ∧ sub_hdevs (st_info st')
      = (Dev <$> handles) ++ replicate (NUM_SUB_HDEVS - length new) NULL
    ∧ bus_registered (st_bus st')
      = bus_registered bus ++ zip handles (sub_device hdev rdesc <$> new).
Proof.
  intros rdesc new handles Hfresh Herrno Hprobe.
  destruct (devm_kzalloc_ok host) eqn:Hkz;
    [|unfold appleib_hid_probe in Hprobe; rewrite Hkz in Hprobe;
      discriminate].
  destruct (Z.eq_dec (hid_parse_ret host) 0%Z) as [Hparse|Hparse].
  2:{ unfold appleib_hid_probe in Hprobe. rewrite Hkz in Hprobe.
      apply Z.eqb_neq in Hparse as Hparse'. rewrite Hparse' in Hprobe.
      simpl in Hprobe. congruence. }
  destruct (Z.eq_dec (hid_hw_start_ret host) 0%Z) as [Hstart|Hstart].
  2:{ unfold appleib_hid_probe in Hprobe. rewrite Hkz, Hparse in Hprobe.
      apply Z.eqb_neq in Hstart as Hstart'. rewrite Hstart' in Hprobe.
      simpl in Hprobe. congruence. }
  destruct (appleib_add_sub_devs_cases outcomes hdev bus Hfresh Herrno)
    as [(st' & Hrun & Hall & _)
       |(st' & k & err & Hrun & Hk & Hbefore & Herr & Hneg & Hreg)].
  2:{ assert (err ≠ 0%Z) as Hne by (unfold is_errno in Hneg; lia).
      unfold appleib_hid_probe in Hprobe.
      rewrite Hkz, Hparse, Hstart, Hrun in Hprobe.
      apply Z.eqb_neq in Hne as Hne'. simpl in Hprobe.
      rewrite Hne' in Hprobe. simpl in Hprobe. congruence. }
  destruct (appleib_hid_probe_attached host outcomes hdev bus
              Hfresh Herrno Hkz Hparse Hstart Hall)
    as (st & Hrun' & Hsub & Hreg & Hprobe').
  rewrite Hprobe' in Hprobe.
  destruct (Z.eq_dec (hid_hw_open_ret host) 0%Z) as [Hopen|Hopen].
  - rewrite Hopen in Hprobe. simpl in Hprobe. injection Hprobe as <-.
    by exists st.
  - apply Z.eqb_neq in Hopen as Hopen'. rewrite Hopen' in Hprobe.
    simpl in Hprobe. destruct (appleib_remove_sub_devs _ _). congruence.
Qed.

(** X10.  Probe then remove, [hid-appleib.c], on a descriptor that
    fills every slot: after a successful [appleib_hid_probe],
    [appleib_hid_remove] leaves the registry as it was before the probe
    and the real device closed and stopped, and it destroys exactly the
    devices the probe made, in slot order. *)
Theorem appleib_hid_probe_remove_round_trip host outcomes hdev bus ds :
  let new := exposed NUM_SUB_HDEVS (scan_segments (dev_rdesc hdev)) in
  bus_fresh bus →
  refuses_with_errno outcomes →
  length new = NUM_SUB_HDEVS →
  appleib_hid_probe host outcomes hdev bus = (0%Z, ds) →
  ∃ ds',
    appleib_hid_remove ds = Some ds'
    ∧ bus_registered (ds_bus ds') = bus_registered bus
    ∧ started_after (ds_calls ds') = false
    ∧ opens_after (ds_calls ds') = 0%Z
    ∧ ds_torn_down ds' = Dev <$> seq (bus_next bus) NUM_SUB_HDEVS.
Proof.
  intros new Hfresh Herrno Hfull Hprobe.
  destruct (appleib_hid_probe_success host outcomes hdev bus ds
              Hfresh Herrno Hprobe) as (st & -> & Hsub & Hreg).
  fold new in Hsub, Hreg. rewrite Hfull in Hsub, Hreg.
  rewrite Nat.sub_diag in Hsub. simpl in Hsub. rewrite app_nil_r in Hsub.
  unfold appleib_hid_remove. cbn [ds_drvdata ds_bus].
  rewrite appleib_remove_sub_devs_spec
    by (rewrite Hsub, length_fmap, length_seq; done).
  eexists. split; [reflexivity|].
  cbn [ds_bus ds_calls ds_torn_down app].
  split.
  { rewrite destroy_each_registered, Hsub, Hreg.
    rewrite <- (app_nil_r (Dev <$> _)).
    apply (destroy_new_registered bus NUM_SUB_HDEVS 0). done. }
  split; [done|]. split; [done|]. done.
Qed.

(** X11.  [appleib_remove_sub_devs] of [hid-appleib.c] does not test
    its slots: after a successful probe the remove hands every slot to
    [hid_destroy_device], the devices first and then one NULL for each
    slot the descriptor left unfilled.  A descriptor with fewer
    recognized collections than slots makes it pass NULL. *)
Theorem appleib_hid_remove_unfilled_slots host outcomes hdev bus ds :
  let new := exposed NUM_SUB_HDEVS (scan_segments (dev_rdesc hdev)) in
  bus_fresh bus →
  refuses_with_errno outcomes →
  appleib_hid_probe host outcomes hdev bus = (0%Z, ds) →
  ∃ ds',
    appleib_hid_remove ds = Some ds'
    ∧ ds_torn_down ds'
      = (Dev <$> seq (bus_next bus) (length new))
        ++ replicate (NUM_SUB_HDEVS - length new) NULL
    ∧ (length new < NUM_SUB_HDEVS → NULL ∈ ds_torn_down ds').
Proof.
  intros new Hfresh Herrno Hprobe.
  destruct (appleib_hid_probe_success host outcomes hdev bus ds
              Hfresh Herrno Hprobe) as (st & -> & Hsub & Hreg).
  fold new in Hsub, Hreg.
  pose proof (length_exposed NUM_SUB_HDEVS
                (scan_segments (dev_rdesc hdev))) as Hcap.
  fold new in Hcap.
  unfold appleib_hid_remove. cbn [ds_drvdata ds_bus].
  rewrite appleib_remove_sub_devs_spec
    by (rewrite Hsub; by apply length_filled_table).
  eexists. split; [reflexivity|].
  cbn [ds_torn_down app]. split; [done|].
  intros Hlt. rewrite Hsub. apply elem_of_app. right.
  apply elem_of_replicate. split; [done|lia].
Qed.

End appleib_remove_facts.

(** * Probe and remove, [apple-ibridge.c] *)

Section ib_teardown.
Import HidCore Scanner Host AppleIbridge RealDevice AppleIbridgeDriver.
Local Opaque NUM_SUB_HDEVS.

Lemma remove_device_loop_spec idxs info bus :
  remove_device_loop idxs info bus
  = (filter (λ p, p ≠ NULL) ((λ i, sub_hdevs info !!! i) <$> idxs),
     foldl (λ bus p, hid_destroy_device p bus) bus
           (filter (λ p, p ≠ NULL) ((λ i, sub_hdevs info !!! i) <$> idxs))).
Proof.
  revert bus. induction idxs as [|i idxs IH]; intros bus; [done|].
  simpl. rewrite filter_cons.
  destruct (decide (sub_hdevs info !!! i = NULL)) as [Hnull|Hdev].
  - rewrite bool_decide_eq_true_2 by done.
    rewrite decide_False by tauto. apply IH.
  - rewrite bool_decide_eq_false_2 by done.
    rewrite decide_True by done. by rewrite IH.
Qed.

Lemma filter_filled_table n0 n m :
  filter (λ p, p ≠ NULL) ((Dev <$> seq n0 n) ++ replicate m NULL)
  = Dev <$> seq n0 n.
Proof.
  rewrite filter_app.
  assert (filter (λ p, p ≠ NULL) (replicate m NULL) = []) as ->.
  { induction m as [|m IH]; [done|].
    simpl. by rewrite filter_cons_False by tauto. }
  rewrite app_nil_r. generalize (seq n0 n) as hs.
  induction hs as [|h hs IH]; [done|].
  rewrite fmap_cons, filter_cons_True by done. by rewrite IH.
Qed.

(** The teardown of [apple-ibridge.c] hands the devices of a table
    filled from its first slot to [hid_destroy_device], and nothing
    else. *)
Lemma appleib_remove_device_spec info bus n0 n :
  n ≤ NUM_SUB_HDEVS →
  sub_hdevs info = (Dev <$> seq n0 n) ++ replicate (NUM_SUB_HDEVS - n) NULL →
  appleib_remove_device info bus
  = (Dev <$> seq n0 n,
     foldl (λ bus p, hid_destroy_device p bus) bus (Dev <$> seq n0 n)).
Proof.
  intros Hn Hsub. unfold appleib_remove_device.
  rewrite remove_device_loop_spec.
  assert (length (sub_hdevs info) = NUM_SUB_HDEVS) as Hlen.
  { rewrite Hsub, length_app, length_fmap, length_seq, length_replicate.
    lia. }
  rewrite <- Hlen, lookup_total_seq, Hsub, filter_filled_table. done.
Qed.

End ib_teardown.

Section ib_attach_cases.
Import HidCore Scanner Host AppleIbridge RealDevice AppleIbridgeDriver.
Context `{hid_host}.
Local Opaque NUM_SUB_HDEVS.

Lemma ib_add_sub_dev_fails out info dev_id slice bus err :
  outcome_error out = Some err →
  (appleib_add_sub_dev out info dev_id slice bus).1.1 = ERR_PTR err.
Proof. destruct out; intros [= <-]; done. Qed.

(** The first virtual device the host refuses makes [appleib_add_device]
    return from inside its loop. *)
Lemma ib_add_device_refused outcomes parent bus k err :
  let new := exposed NUM_SUB_HDEVS (scan_segments (dev_rdesc parent)) in
  k < length new →
  (∀ j, j < k → outcome_ok (outcomes j) = true) →
  outcome_error (outcomes k) = Some err →
  is_errno err →
  (appleib_add_device outcomes true parent bus).1
  = ret_outside_sub_hdevs (-1).
Proof.
  intros new Hk Hok Herr Herrno.
  rewrite ib_add_device_run.
  set (rdesc := dev_rdesc parent) in *.
  set (segs := scan_segments rdesc) in *.
  pose proof (ib_length_exposed NUM_SUB_HDEVS segs) as Hcap.
  fold new in Hcap.
  unfold new, exposed in Hk. rewrite length_take in Hk.
  destruct (filter_split_at recognized segs k)
    as (segs1 & seg & segs2 & Hsegs & Hseg & Hlen); [lia|].
  rewrite Hsegs, ib_run_segments_app.
  assert (exposed (NUM_SUB_HDEVS - 0) segs1 = filter recognized segs1)
    as Hexp.
  { unfold exposed. apply take_ge. lia. }
  destruct (ib_run_segments_ok outcomes rdesc segs1 0
              (mk_probe_state (new_info parent) bus []))
    as (st1 & Hrun & _).
  { lia. }
  { simpl. apply length_replicate. }
  { rewrite Hexp, Hlen. intros j Hj. apply Hok. lia. }
  rewrite Hexp, Hlen in Hrun. simpl in Hrun. rewrite Hrun.
  destruct seg as [[start pos] usage]. cbn [run_segments].
  destruct (add_device_turn outcomes rdesc start pos usage k st1)
    as [[ret|i'] st2] eqn:Hturn.
  - simpl. by eapply add_device_turn_return.
  - exfalso. revert Hturn. unfold add_device_turn.
    destruct Hseg as [dev_id Hid]. simpl in Hid. rewrite Hid.
    assert ((NUM_SUB_HDEVS <=? k) = false) as -> by (apply Nat.leb_gt; lia).
    pose proof (ib_add_sub_dev_fails (outcomes k) (st_info st1) dev_id
                  (slice rdesc start pos) (st_bus st1) err Herr) as Hp.
    destruct (appleib_add_sub_dev _ _ _ _ _) as [[p info] bus'].
    simpl in Hp. subst p. cbn [IS_ERR].
    rewrite (bool_decide_eq_true_2 _ Herrno).
    by destruct (destroy_down _ _ _).
Qed.

End ib_attach_cases.

Section ib_probe_facts.
Import HidCore Scanner Host AppleIbridge RealDevice AppleIbridgeDriver.
Context `{hid_host}.
Local Opaque NUM_SUB_HDEVS.

(** The probe once the configuration is the basic one and the real
    device has been parsed and started. *)
Lemma ib_hid_probe_started host outcomes hdev bus :
  bConfigurationValue host = APPLEIB_BASIC_CONFIG →
  hid_parse_ret host = 0%Z →
  hid_hw_start_ret host = 0%Z →
  appleib_hid_probe host outcomes hdev bus
  = let '(hdev_info, st) :=
      appleib_add_device outcomes (devm_kzalloc_ok host) hdev bus in
    match add_device_error hdev_info with
    | None => None
    | Some (Some rc) =>
        Some (rc, mk_driver_state None (st_bus st) (st_log st)
                    [hid_parse 0; hid_hw_start 0; hid_hw_stop] [] [])
    | Some None =>
        if negb (hid_hw_open_ret host =? 0)%Z then
          let '(ptrs, bus) :=
            appleib_remove_device (st_info st) (st_bus st) in
          Some (hid_hw_open_ret host,
                mk_driver_state None bus (st_log st)
                  [hid_parse 0; hid_hw_start 0;
                   hid_hw_open (hid_hw_open_ret host); hid_hw_stop]
                  [failed_to_open_hid (hid_hw_open_ret host)] ptrs)
        else
          Some (0%Z, mk_driver_state (Some (st_info st)) (st_bus st)
                       (st_log st)
                       [hid_parse 0; hid_hw_start 0;
                        hid_hw_open (hid_hw_open_ret host)] [] [])
    end.
Proof.
  intros Hconfig Hparse Hstart. unfold appleib_hid_probe.
  rewrite Hconfig, Hparse, Hstart. simpl.
  destruct (appleib_add_device _ _ _ _) as [hdev_info st].
  destruct (add_device_error hdev_info) as [[rc|]|]; try done.
Qed.

(** X17.  [appleib_hid_probe] of [apple-ibridge.c].  The probe goes on
    with a value read at index -1 of [sub_hdevs] (no result) exactly
    when it got as far as the attach, memory was given and the host
    refused a virtual device.  A device not in the basic configuration
    is asked to change it and the probe fails without touching the HID
    device.  Otherwise the probe returns 0 exactly when every step
    succeeded, with the real device started and opened once and the
    virtual devices registered; when it returns an error the registry is
    what it was, the real device is neither started nor open, the
    driver data is unset and no NULL went to [hid_destroy_device]. *)
Theorem ib_hid_probe_outcome host outcomes hdev bus :
  let rdesc := dev_rdesc hdev in
  let new := exposed NUM_SUB_HDEVS (scan_segments rdesc) in
  let started :=
    bConfigurationValue host = APPLEIB_BASIC_CONFIG
    ∧ hid_parse_ret host = 0%Z ∧ hid_hw_start_ret host = 0%Z in
  bus_fresh bus →
  refuses_with_errno outcomes →
  (appleib_hid_probe host outcomes hdev bus = None
   ↔ started ∧ devm_kzalloc_ok host = true
     ∧ ¬ ∀ j, j < length new → outcome_ok (outcomes j) = true)
  ∧ (bConfigurationValue host ≠ APPLEIB_BASIC_CONFIG →
     ∃ rc,
       appleib_hid_probe host outcomes hdev bus
       = Some (rc, mk_driver_state None bus []
                     [usb_driver_set_configuration APPLEIB_BASIC_CONFIG
                        (usb_driver_set_configuration_ret host)] [] [])
       ∧ rc ≠ 0%Z
       ∧ (rc = usb_driver_set_configuration_ret host ∨ rc = (- ENODEV)%Z))
  ∧ (∀ rc ds,
       appleib_hid_probe host outcomes hdev bus = Some (rc, ds) →
       (rc = 0%Z
        ↔ started ∧ devm_kzalloc_ok host = true
          ∧ hid_hw_open_ret host = 0%Z)
       ∧ (rc = 0%Z →
          started_after (ds_calls ds) = true
          ∧ opens_after (ds_calls ds) = 1%Z
          ∧ ds_torn_down ds = []
          ∧ bus_registered (ds_bus ds)
            = bus_registered bus
              ++ zip (seq (bus_next bus) (length new))
                     (sub_device rdesc <$> new)
          ∧ ∃ info,
              ds_drvdata ds = Some info
              ∧ sub_hdevs info
                = (Dev <$> seq (bus_next bus) (length new))
                  ++ replicate (NUM_SUB_HDEVS - length new) NULL)
       ∧ (rc ≠ 0%Z →
          started_after (ds_calls ds) = false
          ∧ opens_after (ds_calls ds) = 0%Z
          ∧ bus_registered (ds_bus ds) = bus_registered bus
          ∧ ds_drvdata ds = None
          ∧ NULL ∉ ds_torn_down ds)).
Proof.
  intros rdesc new started Hfresh Herrno. subst started.
  destruct (Z.eq_dec (bConfigurationValue host) APPLEIB_BASIC_CONFIG)
    as [Hconfig|Hconfig].
  2:{ (* another configuration *)
      assert (appleib_hid_probe host outcomes hdev bus
              = Some (if negb (usb_driver_set_configuration_ret host =? 0)%Z
                      then usb_driver_set_configuration_ret host
                      else (- ENODEV)%Z,
                      mk_driver_state None bus []
                        [usb_driver_set_configuration APPLEIB_BASIC_CONFIG
                           (usb_driver_set_configuration_ret host)] [] []))
        as Hprobe.
      { unfold appleib_hid_probe.
        apply Z.eqb_neq in Hconfig. by rewrite Hconfig. }
      assert ((if negb (usb_driver_set_configuration_ret host =? 0)%Z
               then usb_driver_set_configuration_ret host
               else (- ENODEV)%Z) ≠ 0%Z) as Hrc.
      { destruct (usb_driver_set_configuration_ret host =? 0)%Z eqn:Hset;
          simpl; [done|by apply Z.eqb_neq]. }
      rewrite Hprobe.
      split; [split; [done|tauto]|].
      split.
      { intros _. eexists. split; [reflexivity|]. split; [done|].
        destruct (negb _); auto. }
      intros rc ds [= <- <-]. split; [split; [done|tauto]|].
      split; [done|]. intros _. cbn [ds_calls ds_bus ds_drvdata ds_torn_down].
      split; [done|]. split; [done|]. split; [done|]. split; [done|].
      by intros ?%elem_of_nil. }
  destruct (Z.eq_dec (hid_parse_ret host) 0%Z) as [Hparse|Hparse].
  2:{ (* the descriptor of the real device is rejected *)
      assert (appleib_hid_probe host outcomes hdev bus
              = Some (hid_parse_ret host,
                      mk_driver_state None bus []
                        [hid_parse (hid_parse_ret host)]
                        [hid_parse_failed (hid_parse_ret host)] []))
        as Hprobe.
      { unfold appleib_hid_probe. rewrite Hconfig.
        apply Z.eqb_neq in Hparse. by rewrite Hparse. }
      rewrite Hprobe.
      split; [split; [done|tauto]|]. split; [done|].
      intros rc ds [= <- <-]. split; [split; [done|tauto]|].
      split; [done|]. intros _. cbn [ds_calls ds_bus ds_drvdata ds_torn_down].
      split; [done|]. split; [done|]. split; [done|]. split; [done|].
      by intros ?%elem_of_nil. }
  destruct (Z.eq_dec (hid_hw_start_ret host) 0%Z) as [Hstart|Hstart].
  2:{ (* the real device does not start *)
      assert (appleib_hid_probe host outcomes hdev bus
              = Some (hid_hw_start_ret host,
                      mk_driver_state None bus []
                        [hid_parse 0; hid_hw_start (hid_hw_start_ret host)]
                        [hw_start_failed (hid_hw_start_ret host)] []))
        as Hprobe.
      { unfold appleib_hid_probe. rewrite Hconfig, Hparse.
        apply Z.eqb_neq in Hstart. by rewrite Hstart. }
      rewrite Hprobe.
      split; [split; [done|tauto]|]. split; [done|].
      intros rc ds [= <- <-]. split; [split; [done|tauto]|].
      split; [done|]. intros _. cbn [ds_calls ds_bus ds_drvdata ds_torn_down].
      apply Z.eqb_neq in Hstart.
      split; [unfold started_after; simpl; by rewrite Hstart|].
      split; [done|]. split; [done|]. split; [done|].
      by intros ?%elem_of_nil. }
  rewrite (ib_hid_probe_started host outcomes hdev bus Hconfig Hparse Hstart).
  destruct (devm_kzalloc_ok host) eqn:Hkz.
  2:{ (* no memory for the structure *)
      unfold appleib_add_device. cbn [negb add_device_error IS_ERR PTR_ERR].
      rewrite bool_decide_eq_true_2 by (unfold is_errno, ENOMEM; lia).
      split; [split; [done|intros (_ & ? & _); done]|]. split; [done|].
      intros rc ds [= <- <-].
      split; [split; [done|intros (_ & ? & _); done]|].
      split; [done|]. intros _.
      cbn [ds_calls ds_bus ds_drvdata ds_torn_down st_bus].
      split; [done|]. split; [done|]. split; [done|]. split; [done|].
      by intros ?%elem_of_nil. }
  destruct (first_refusal outcomes (length new))
    as [Hall|(k & err & Hk & Hbefore & Herr)].
  2:{ (* a virtual device is refused *)
      pose proof (ib_add_device_refused outcomes hdev bus k err Hk Hbefore
                    Herr (Herrno _ _ Herr)) as Hret.
      destruct (appleib_add_device outcomes true hdev bus) as [ret st].
      simpl in Hret. subst ret. cbn [add_device_error].
      split; [|split; [done|done]].
      split; [intros _|done].
      split; [done|]. split; [done|]. intros Hall.
      specialize (Hall k Hk). destruct (outcomes k); simpl in *; congruence. }
  destruct (ib_add_device_ok outcomes hdev bus Hall)
    as (st & Hrun & _ & Hsub & _ & Hreg & _).
  fold rdesc new in Hsub, Hreg. rewrite Hrun. cbn [add_device_error].
  pose proof (ib_length_exposed NUM_SUB_HDEVS (scan_segments rdesc)) as Hcap.
  fold new in Hcap.
  destruct (Z.eq_dec (hid_hw_open_ret host) 0%Z) as [Hopen|Hopen].
  - rewrite Hopen. cbn [negb Z.eqb].
    split; [split; [done|intros (_ & _ & Hnot); by destruct Hnot]|].
    split; [done|].
    intros rc ds [= <- <-]. split; [done|]. split; [|done]. intros _.
    cbn [ds_calls ds_bus ds_drvdata ds_torn_down].
    split; [done|]. split; [done|]. split; [done|]. split; [done|].
    by exists (st_info st).
  - apply Z.eqb_neq in Hopen as Hopen'. rewrite Hopen'. cbn [negb].
    rewrite (appleib_remove_device_spec _ _ (bus_next bus) (length new))
      by done.
    split; [split; [done|intros (_ & _ & Hnot); by destruct Hnot]|].
    split; [done|].
    intros rc ds [= <- <-].
    split; [split; [done|intros (_ & _ & ?); done]|].
    split; [done|]. intros _.
    cbn [ds_calls ds_bus ds_drvdata ds_torn_down].
    split; [unfold started_after; simpl; by rewrite ?Hopen'|].
    split; [unfold opens_after; simpl; by rewrite ?Hopen'|].
    split.
    { rewrite destroy_each_registered, Hreg.
      rewrite <- (app_nil_r (Dev <$> _)).
      apply (destroy_new_registered bus (length new) 0). done. }
    split; [done|].
    intros (h & [=] & _)%list_elem_of_fmap.
Qed.

End ib_probe_facts.

Section ib_remove_facts.
Import HidCore Scanner Host AppleIbridge RealDevice AppleIbridgeDriver.
Context `{hid_host}.
Local Opaque NUM_SUB_HDEVS.

(** A probe of [apple-ibridge.c] that returns 0 has been through every
    step. *)
Lemma ib_hid_probe_success host outcomes hdev bus ds :
  let rdesc := dev_rdesc hdev in
  let new := exposed NUM_SUB_HDEVS (scan_segments rdesc) in
  let handles := seq (bus_next bus) (length new) in
  refuses_with_errno outcomes →
  appleib_hid_probe host outcomes hdev bus = Some (0%Z, ds) →
  ∃ st',
    ds = mk_driver_state (Some (st_info st')) (st_bus st') (st_log st')
           [hid_parse 0; hid_hw_start 0; hid_hw_open 0] [] []
    ∧ sub_hdevs (st_info st')
      = (Dev <$> handles) ++ replicate (NUM_SUB_HDEVS - length new) NULL
    ∧ bus_registered (st_bus st')
      = bus_registered bus ++ zip handles (sub_device rdesc <$> new).
Proof.
  intros rdesc new handles Herrno Hprobe.
  destruct (Z.eq_dec (bConfigurationValue host) APPLEIB_BASIC_CONFIG)
    as [Hconfig|Hconfig].
  2:{ unfold appleib_hid_probe in Hprobe.
      apply Z.eqb_neq in Hconfig. rewrite Hconfig in Hprobe.
      simpl in Hprobe. injection Hprobe as Hrc _.
      destruct (usb_driver_set_configuration_ret host =? 0)%Z eqn:Hset;
        simpl in Hrc; [done|]. apply Z.eqb_neq in Hset. done. }
  destruct (Z.eq_dec (hid_parse_ret host) 0%Z) as [Hparse|Hparse].
  2:{ unfold appleib_hid_probe in Hprobe. rewrite Hconfig in Hprobe.
      apply Z.eqb_neq in Hparse as Hparse'. rewrite Hparse' in Hprobe.
      simpl in Hprobe. congruence. }
  destruct (Z.eq_dec (hid_hw_start_ret host) 0%Z) as [Hstart|Hstart].
  2:{ unfold appleib_hid_probe in Hprobe. rewrite Hconfig, Hparse in Hprobe.
      apply Z.eqb_neq in Hstart as Hstart'. rewrite Hstart' in Hprobe.
      simpl in Hprobe. congruence. }
  rewrite (ib_hid_probe_started host outcomes hdev bus Hconfig Hparse Hstart)
    in Hprobe.
  destruct (devm_kzalloc_ok host) eqn:Hkz.
  2:{ unfold appleib_add_device in Hprobe.
      cbn [negb add_device_error IS_ERR PTR_ERR] in Hprobe.
      rewrite bool_decide_eq_true_2 in Hprobe
        by (unfold is_errno, ENOMEM; lia).
      discriminate. }
  destruct (first_refusal outcomes (length new))
    as [Hall|(k & err & Hk & Hbefore & Herr)].
  2:{ pose proof (ib_add_device_refused outcomes hdev bus k err Hk Hbefore
                    Herr (Herrno _ _ Herr)) as Hret.
      destruct (appleib_add_device outcomes true hdev bus) as [ret st].
      simpl in Hret. subst ret. discriminate. }
  destruct (ib_add_device_ok outcomes hdev bus Hall)
    as (st & Hrun & _ & Hsub & _ & Hreg & _).
  rewrite Hrun in Hprobe. cbn [add_device_error] in Hprobe.
  destruct (Z.eq_dec (hid_hw_open_ret host) 0%Z) as [Hopen|Hopen].
  - rewrite Hopen in Hprobe. simpl in Hprobe. injection Hprobe as <-.
    by exists st.
  - apply Z.eqb_neq in Hopen as Hopen'. rewrite Hopen' in Hprobe.
    simpl in Hprobe. destruct (appleib_remove_device _ _). congruence.
Qed.

(** X18.  Probe then remove, [apple-ibridge.c], for every descriptor:
    after a successful [appleib_hid_probe], [appleib_hid_remove] leaves
    the registry as it was before the probe, the real device closed and
    stopped and the driver data unset; it destroys exactly the devices
    the probe made and skips the unfilled slots.  A second remove finds
    no driver data to read its table from. *)
Theorem ib_hid_probe_remove_round_trip host outcomes hdev bus ds :
  let new := exposed NUM_SUB_HDEVS (scan_segments (dev_rdesc hdev)) in
  bus_fresh bus →
  refuses_with_errno outcomes →
  appleib_hid_probe host outcomes hdev bus = Some (0%Z, ds) →
  ∃ ds',
    appleib_hid_remove ds = Some ds'
    ∧ bus_registered (ds_bus ds') = bus_registered bus
    ∧ started_after (ds_calls ds') = false
    ∧ opens_after (ds_calls ds') = 0%Z
    ∧ ds_drvdata ds' = None
    ∧ ds_torn_down ds' = Dev <$> seq (bus_next bus) (length new)
    ∧ (NULL ∉ ds_torn_down ds')
    ∧ appleib_hid_remove ds' = None.
Proof.
  intros new Hfresh Herrno Hprobe.
  destruct (ib_hid_probe_success host outcomes hdev bus ds Herrno Hprobe)
    as (st & -> & Hsub & Hreg).
  fold new in Hsub, Hreg.
  pose proof (ib_length_exposed NUM_SUB_HDEVS
                (scan_segments (dev_rdesc hdev))) as Hcap.
  fold new in Hcap.
  unfold appleib_hid_remove at 1. cbn [ds_drvdata ds_bus].
  rewrite (appleib_remove_device_spec _ _ (bus_next bus) (length new))
    by done.
  eexists. split; [reflexivity|].
  cbn [ds_bus ds_calls ds_torn_down ds_drvdata app].
  split.
  { rewrite destroy_each_registered, Hreg.
    rewrite <- (app_nil_r (Dev <$> _)).
    apply (destroy_new_registered bus (length new) 0). done. }
  split; [done|]. split; [done|]. split; [done|]. split; [done|].
  split; [|done].
  intros (h & [=] & _)%list_elem_of_fmap.
Qed.

End ib_remove_facts.

(** * The Touch Bar keyboard driver *)

Section kbd_keys.
Import AppletbKbd.
Context `{input_event_codes}.
Local Open Scope Z_scope.

(** Decide the tests of [appletb_tb_key_to_slot]. *)
Ltac slot_tests :=
  unfold appletb_tb_key_to_slot, EINVAL;
  repeat match goal with
         | |- context [(?a =? ?b)%Z] => destruct (Z.eqb_spec a b)
         | |- context [(?a <=? ?b)%Z] => destruct (Z.leb_spec a b)
         end;
  cbn [andb]; try lia.

(** The touch bar keys: Esc and F1 to F12. *)
Lemma key_to_slot_keys code :
  function_keys_in_rows →
  0 ≤ appletb_tb_key_to_slot code →
  (code = KEY_ESC ∧ appletb_tb_key_to_slot code = 0)
  ∨ (∃ n, 0 ≤ n ≤ 9 ∧ code = KEY_F1 + n
          ∧ appletb_tb_key_to_slot code = n + 1)
  ∨ (∃ n, 0 ≤ n ≤ 1 ∧ code = KEY_F11 + n
          ∧ appletb_tb_key_to_slot code = n + 11).
Proof.
  intros Hrows. unfold function_keys_in_rows in Hrows.
  unfold appletb_tb_key_to_slot, EINVAL.
  destruct (Z.eqb_spec code KEY_ESC) as [->|Hesc]; [by left|].
  destruct (Z.leb_spec KEY_F1 code), (Z.leb_spec code KEY_F10); cbn [andb].
  1: intros _; right; left; exists (code - KEY_F1); lia.
  all: destruct (Z.leb_spec KEY_F11 code), (Z.leb_spec code KEY_F12);
    cbn [andb]; try lia.
  all: intros _; right; right; exists (code - KEY_F11); lia.
Qed.

Lemma key_to_slot_entry code :
  function_keys_in_rows →
  0 ≤ appletb_tb_key_to_slot code →
  ∃ entry,
    appletb_kbd_keymap !! Z.to_nat (appletb_tb_key_to_slot code) = Some entry
    ∧ ke_type entry = KE_KEY
    ∧ ke_code entry = code
    ∧ keymap_entry_from_scancode appletb_kbd_keymap code = Some entry.
Proof.
  intros Hrows Hslot.
  destruct (key_to_slot_keys code Hrows Hslot)
    as [[-> ->]|[(n & Hn & -> & ->)|(n & Hn & -> & ->)]].
  - eexists. split; [reflexivity|]. split; [done|]. split; [done|].
    simpl. by rewrite Z.eqb_refl.
  - unfold function_keys_in_rows in Hrows.
    assert (n = 0 ∨ n = 1 ∨ n = 2 ∨ n = 3 ∨ n = 4 ∨ n = 5 ∨ n = 6 ∨ n = 7
            ∨ n = 8 ∨ n = 9) as Hcases by lia.
    repeat destruct Hcases as [->|Hcases]; [..|subst n];
      (eexists; split; [reflexivity|]; split; [done|]; split; [simpl; lia|];
       simpl;
       repeat match goal with
              | |- context [(?a =? ?b)%Z] =>
                  destruct (Z.eqb_spec a b); [try lia|]
              end; try done; try lia).
  - unfold function_keys_in_rows in Hrows.
    assert (n = 0 ∨ n = 1) as Hcases by lia.
    repeat destruct Hcases as [->|Hcases]; [..|subst n];
      (eexists; split; [reflexivity|]; split; [done|]; split; [simpl; lia|];
       simpl;
       repeat match goal with
              | |- context [(?a =? ?b)%Z] =>
                  destruct (Z.eqb_spec a b); [try lia|]
              end; try done; try lia).
Qed.

(** X19.  [appletb_tb_key_to_slot] numbers the keys as the keymap
    lists them, the function keys being numbered in rows: the result is
    [-EINVAL] or a slot from 0 to 12; the scan code of the k-th key
    entry of [appletb_kbd_keymap] has slot k; a code with a slot is the
    scan code of the keymap entry at that slot; and two codes with the
    same slot are the same code. *)
Theorem appletb_tb_key_to_slot_keymap :
  function_keys_in_rows →
  (∀ code, appletb_tb_key_to_slot code = - EINVAL
           ∨ 0 ≤ appletb_tb_key_to_slot code ≤ 12)
  ∧ (∀ k entry,
       appletb_kbd_keymap !! k = Some entry →
       ke_type entry = KE_KEY →
       appletb_tb_key_to_slot (ke_code entry) = Z.of_nat k)
  ∧ (∀ code,
       0 ≤ appletb_tb_key_to_slot code →
       ∃ entry,
         appletb_kbd_keymap !! Z.to_nat (appletb_tb_key_to_slot code)
         = Some entry
         ∧ ke_type entry = KE_KEY ∧ ke_code entry = code)
  ∧ (∀ a b,
       0 ≤ appletb_tb_key_to_slot a →
       appletb_tb_key_to_slot a = appletb_tb_key_to_slot b →
       a = b).
Proof.
  intros Hrows.
  split; [|split; [|split]].
  - intros code. unfold function_keys_in_rows in Hrows.
    revert Hrows. slot_tests.
  - intros k entry Hk Hkey. unfold function_keys_in_rows in Hrows.
    do 14 (destruct k as [|k];
           [injection Hk as <-; try discriminate; cbn [ke_code];
            revert Hrows; slot_tests|]).
    done.
  - intros code Hslot.
    destruct (key_to_slot_entry code Hrows Hslot)
      as (entry & Hentry & Htype & Hcode & _).
    by exists entry.
  - intros a b Hslot Heq.
    assert (0 ≤ appletb_tb_key_to_slot b) as Hslot' by lia.
    destruct (key_to_slot_keys a Hrows Hslot)
      as [[-> Ha]|[(n & Hn & -> & Ha)|(n & Hn & -> & Ha)]];
      destruct (key_to_slot_keys b Hrows Hslot')
        as [[-> Hb]|[(m & Hm & -> & Hb)|(m & Hm & -> & Hb)]];
      lia.
Qed.

End kbd_keys.

Section kbd_events.
Import AppletbKbd.
Context `{input_event_codes} `{hid_usb_constants}.
Local Open Scope Z_scope.

(** X20.  [appletb_kbd_hid_event] by mode, the input device carrying
    the driver's keymap.  An event that is not a key event of the
    keyboard page for a Touch Bar key is left to the HID core (0, no
    input event).  A Touch Bar key in the special-keys mode becomes one
    input event with the key code of its keymap entry and the same
    value, and is consumed (1); in the off mode it is consumed without
    an input event; in the other modes it is left to the HID core. *)
Theorem appletb_kbd_hid_event_by_mode translation kbd usage value :
  function_keys_in_rows →
  (∀ code,
     translation code = keymap_entry_from_scancode appletb_kbd_keymap code) →
  let r := appletb_kbd_hid_event translation kbd usage value in
  let slot := appletb_tb_key_to_slot (usage_code usage) in
  let touch_bar_key :=
    Z.land (usage_hid usage) HID_USAGE_PAGE = HID_UP_KEYBOARD
    ∧ usage_type usage = EV_KEY ∧ 0 ≤ slot in
  (¬ touch_bar_key → r = ([], 0))
  ∧ (touch_bar_key → current_mode kbd = APPLETB_KBD_MODE_SPCL →
     ∃ entry,
       appletb_kbd_keymap !! Z.to_nat slot = Some entry
       ∧ r = ([mk_input_event (usage_type usage) (ke_keycode entry) value],
              1))
  ∧ (touch_bar_key → current_mode kbd = APPLETB_KBD_MODE_OFF →
     r = ([], 1))
  ∧ (touch_bar_key →
     current_mode kbd ≠ APPLETB_KBD_MODE_SPCL →
     current_mode kbd ≠ APPLETB_KBD_MODE_OFF →
     r = ([], 0)).
Proof.
  intros Hrows Htranslation r slot touch_bar_key.
  subst r slot touch_bar_key. unfold appletb_kbd_hid_event.
  destruct (Z.eqb_spec (Z.land (usage_hid usage) HID_USAGE_PAGE)
                       HID_UP_KEYBOARD) as [Hpage|Hpage];
    [|cbn [negb orb]; repeat split; tauto].
  destruct (Z.eqb_spec (usage_type usage) EV_KEY) as [Htype|Htype];
    [|cbn [negb orb]; repeat split; tauto].
  cbn [negb orb].
  destruct (Z.ltb_spec (appletb_tb_key_to_slot (usage_code usage)) 0)
    as [Hslot|Hslot]; [repeat split; try done; intros (_ & _ & ?); lia|].
  destruct (key_to_slot_entry (usage_code usage) Hrows Hslot)
    as (entry & Hentry & _ & _ & Hlookup).
  rewrite Htranslation, Hlookup.
  split; [intros Hnot; exfalso; by apply Hnot|].
  split.
  { intros _ ->. exists entry. by rewrite Z.eqb_refl. }
  split.
  { intros _ ->. reflexivity. }
  intros _ Hspcl Hoff.
  apply Z.eqb_neq in Hspcl, Hoff. by rewrite Hspcl, Hoff.
Qed.

End kbd_events.

Section kbd_set_report.
Import Host AppletbKbd.
Context `{hid_usb_constants}.
Variable host : set_mode_host.
Variable kbd : appletb_kbd.
Variable mode : Z.

(** A stalled try: the control message that returned [-EPIPE] and the
    sleep after it. *)
Local Abbreviation stalled_try :=
  (λ tries : nat,
     [set_report_msg host kbd mode (- EPIPE)%Z;
      usleep_range (Z.shiftl 1000 (Z.of_nat tries))
                   (Z.shiftl 3000 (Z.of_nat tries))]).

(** The loop when the try after [n] stalled ones does not stall. *)
Lemma set_report_loop_stalls n :
  ∀ fuel tries,
    (∀ i, tries ≤ i < tries + n →
          usb_control_msg_ret host i = (- EPIPE)%Z) →
    usb_control_msg_ret host (tries + n) ≠ (- EPIPE)%Z →
    tries + n < 5 →
    n < fuel →
    set_report_loop host kbd mode fuel tries
    = Some (flat_map stalled_try (seq tries n)
            ++ [set_report_msg host kbd mode
                  (usb_control_msg_ret host (tries + n))],
            usb_control_msg_ret host (tries + n)).
Proof.
  induction n as [|n IH]; intros fuel tries Hstall Hlast Hlt Hfuel;
    (destruct fuel as [|fuel]; [lia|]); cbn [set_report_loop].
  - rewrite Nat.add_0_r in *.
    apply Z.eqb_neq in Hlast. by rewrite Hlast.
  - rewrite (Hstall tries) by lia. rewrite Z.eqb_refl. cbn [negb].
    assert ((S tries <? 5) = true) as -> by (apply Nat.ltb_lt; lia).
    rewrite (IH fuel (S tries)).
    + replace (S tries + n) with (tries + S n) by lia. done.
    + intros i Hi. apply Hstall. lia.
    + by replace (S tries + n) with (tries + S n) by lia.
    + lia.
    + lia.
Qed.

(** The loop when every try stalls. *)
Lemma set_report_loop_gives_up n :
  ∀ fuel tries,
    (∀ i, tries ≤ i < 5 → usb_control_msg_ret host i = (- EPIPE)%Z) →
    tries + n = 5 → 0 < n → n ≤ fuel →
    set_report_loop host kbd mode fuel tries
    = Some (flat_map stalled_try (seq tries n), (- EPIPE)%Z).
Proof.
  induction n as [|n IH]; intros fuel tries Hstall Hn Hpos Hfuel; [lia|].
  destruct fuel as [|fuel]; [lia|]. cbn [set_report_loop].
  rewrite (Hstall tries) by lia. rewrite Z.eqb_refl. cbn [negb].
  destruct (decide (n = 0)) as [->|Hmore].
  - assert ((S tries <? 5) = false) as -> by (apply Nat.ltb_ge; lia). done.
  - assert ((S tries <? 5) = true) as -> by (apply Nat.ltb_lt; lia).
    rewrite (IH fuel (S tries)); [done| | | |]; try lia.
    intros i Hi. apply Hstall. lia.
Qed.

Lemma stalled_tries_spec room tries :
  let n := stalled_tries host room tries in
  n ≤ room
  ∧ (∀ i, tries ≤ i < tries + n → usb_control_msg_ret host i = (- EPIPE)%Z)
  ∧ (n < room → usb_control_msg_ret host (tries + n) ≠ (- EPIPE)%Z).
Proof.
  revert tries. induction room as [|room IH]; intros tries; simpl.
  - split; [done|]. split; [intros; lia|lia].
  - destruct (Z.eqb_spec (usb_control_msg_ret host tries) (- EPIPE))
      as [Hstall|Hgo].
    + destruct (IH (S tries)) as (Hle & Hall & Hlast).
      split; [lia|]. split.
      * intros i Hi. destruct (decide (i = tries)) as [->|Hne]; [done|].
        apply Hall. lia.
      * intros Hlt. rewrite Nat.add_succ_r. apply Hlast. lia.
    + split; [lia|]. split; [intros; lia|].
      intros _. by rewrite Nat.add_0_r.
Qed.

(** Five units of fuel are enough. *)
Lemma set_report_loop_total :
  is_Some (set_report_loop host kbd mode 5 0).
Proof.
  destruct (stalled_tries_spec 5 0) as (Hle & Hall & Hlast).
  destruct (decide (stalled_tries host 5 0 < 5)) as [Hlt|Hge].
  - rewrite (set_report_loop_stalls (stalled_tries host 5 0)); try done.
    + by apply Hlast.
  - rewrite (set_report_loop_gives_up 5); try done; try lia.
    intros i Hi. apply Hall. lia.
Qed.

End kbd_set_report.

Section kbd_trace_facts.
Import Host RealDevice AppletbKbd.
Context `{hid_usb_constants}.
Local Open Scope Z_scope.

(** Calls that touch neither the power hints nor the start and open
    state of the device. *)
Local Abbreviation neutral :=
  (λ call : kbd_call,
     match call with
     | on_device _ | hid_hw_power _ _ => False
     | _ => True
     end).

Lemma power_hints_open_from n calls :
  foldl (λ n call,
           match call with
           | hid_hw_power level ret =>
               if (level =? PM_HINT_FULLON) && (ret =? 0) then n + 1
               else if level =? PM_HINT_NORMAL then n - 1
               else n
           | _ => n
           end) n calls
  = n + power_hints_open calls.
Proof.
  unfold power_hints_open. revert n.
  induction calls as [|call calls IH] using rev_ind; intros n;
    [simpl; lia|].
  rewrite !foldl_app. simpl. rewrite IH.
  destruct call; try lia.
  destruct (_ && _); [lia|]. destruct (_ =? _); lia.
Qed.

Lemma power_hints_open_app calls1 calls2 :
  power_hints_open (calls1 ++ calls2)
  = power_hints_open calls1 + power_hints_open calls2.
Proof.
  unfold power_hints_open at 1. rewrite foldl_app.
  fold (power_hints_open calls1). apply power_hints_open_from.
Qed.

Lemma power_hints_open_neutral calls :
  Forall neutral calls → power_hints_open calls = 0.
Proof.
  induction 1 as [|call calls Hcall _ IH]; [done|].
  change (call :: calls) with ([call] ++ calls).
  rewrite power_hints_open_app, IH. by destruct call.
Qed.

Lemma device_calls_neutral calls :
  Forall neutral calls → device_calls calls = [].
Proof.
  induction 1 as [|call calls Hcall _ IH]; [done|].
  change (call :: calls) with ([call] ++ calls).
  unfold device_calls in *. rewrite omap_app, IH. by destruct call.
Qed.

Lemma device_calls_app calls1 calls2 :
  device_calls (calls1 ++ calls2) = device_calls calls1 ++ device_calls calls2.
Proof. apply omap_app. Qed.

Lemma control_messages_msg host kbd mode ret calls :
  control_messages (set_report_msg host kbd mode ret :: calls)
  = set_report_msg host kbd mode ret :: control_messages calls.
Proof. done. Qed.

Lemma control_messages_sleep a b calls :
  control_messages (usleep_range a b :: calls) = control_messages calls.
Proof. done. Qed.

Lemma set_report_loop_neutral host kbd mode fuel tries calls ret :
  set_report_loop host kbd mode fuel tries = Some (calls, ret) →
  Forall neutral calls
  ∧ (length (control_messages calls) ≤ fuel)%nat
  ∧ Forall (λ call, ∃ r, call = set_report_msg host kbd mode r)
           (control_messages calls).
Proof.
  revert tries calls ret.
  induction fuel as [|fuel IH]; intros tries calls ret; [done|].
  cbn [set_report_loop].
  destruct (negb _).
  { intros [= <- <-]. rewrite control_messages_msg.
    split; [by repeat constructor|].
    split; [simpl; lia|]. repeat constructor. by eexists. }
  destruct (S tries <? 5)%nat.
  - destruct (set_report_loop host kbd mode fuel (S tries))
      as [[calls' ret']|] eqn:Hloop; [|done].
    intros [= <- <-]. destruct (IH _ _ _ Hloop) as (Hn & Hlen & Hmsg).
    rewrite control_messages_msg, control_messages_sleep.
    split; [by repeat constructor|].
    split; [simpl; lia|].
    constructor; [by eexists|done].
  - intros [= <- <-].
    rewrite control_messages_msg, control_messages_sleep.
    split; [by repeat constructor|].
    split; [simpl; lia|]. repeat constructor. by eexists.
Qed.

Lemma control_messages_app calls1 calls2 :
  control_messages (calls1 ++ calls2)
  = control_messages calls1 ++ control_messages calls2.
Proof. apply omap_app. Qed.

End kbd_trace_facts.

Section kbd_set_mode_facts.
Import Host RealDevice AppletbKbd.
Context `{hid_usb_constants}.
Local Open Scope Z_scope.

(** What [appletb_kbd_set_mode] returns and leaves, and the shape of
    what it does. *)
Lemma appletb_kbd_set_mode_result host kbd mode :
  PM_HINT_FULLON ≠ PM_HINT_NORMAL →
  ∃ ret kbd' calls,
    appletb_kbd_set_mode host kbd mode = (ret, kbd', calls)
    ∧ (ret = 0 →
       mode ≤ APPLETB_KBD_MODE_MAX
       ∧ current_mode kbd' = mode
       ∧ saved_mode kbd' = saved_mode kbd
       ∧ quirks kbd' = quirks kbd
       ∧ mode_report_type kbd' = mode_report_type kbd
       ∧ mode_report_id kbd' = mode_report_id kbd)
    ∧ (ret ≠ 0 → kbd' = kbd)
    ∧ device_calls calls = []
    ∧ power_hints_open calls = 0
    ∧ (length (control_messages calls) ≤ 5)%nat.
Proof.
  intros Hhints. unfold appletb_kbd_set_mode.
  destruct (Z.ltb_spec APPLETB_KBD_MODE_MAX mode) as [Hbig|Hmode].
  { do 3 eexists. split; [reflexivity|]. unfold EINVAL.
    repeat split; try done. simpl. lia. }
  destruct (Z.eqb_spec (hid_hw_power_fullon_ret host) 0) as [Hon|Hon];
    cbn [negb].
  2:{ do 3 eexists. split; [reflexivity|].
      split; [done|]. split; [done|]. split; [done|].
      split; [|simpl; lia].
      unfold power_hints_open. simpl.
      apply Z.eqb_neq in Hon. rewrite Hon, andb_false_r.
      apply Z.eqb_neq in Hhints. by rewrite Hhints. }
  rewrite Hon.
  assert ((PM_HINT_NORMAL =? PM_HINT_FULLON) = false) as Hnf
    by (apply Z.eqb_neq; congruence).
  assert (power_hints_open [hid_hw_power PM_HINT_FULLON 0] = 1) as Hup.
  { unfold power_hints_open. simpl. by rewrite Z.eqb_refl. }
  assert (power_hints_open
            [hid_hw_power PM_HINT_NORMAL (hid_hw_power_normal_ret host)]
          = -1) as Hdown.
  { unfold power_hints_open. simpl. by rewrite Hnf, Z.eqb_refl. }
  destruct (Z.eqb_spec (Z.land (quirks kbd) APPLETB_KBD_QUIRK_IS_T1) 0)
    as [Ht2|Ht1]; cbn [negb].
  { (* the report goes through [hid_hw_request] *)
    do 3 eexists. split; [reflexivity|]. simpl.
    split; [done|]. split; [done|]. split; [done|].
    split; [|lia].
    unfold power_hints_open. cbn [foldl].
    rewrite !Z.eqb_refl, Hnf. cbn [andb]. lia. }
  destruct (kmemdup_ok host); cbn [negb].
  2:{ (* no memory for the buffer *)
      do 3 eexists. split; [reflexivity|]. unfold ENOMEM. simpl.
      split; [done|]. split; [done|]. split; [done|].
      split; [|lia].
      unfold power_hints_open. cbn [foldl].
      rewrite !Z.eqb_refl, Hnf. cbn [andb]. lia. }
  destruct (set_report_loop_total host kbd mode) as [[calls ret] Hloop].
  rewrite Hloop. unfold default. cbn [from_option id].
  destruct (set_report_loop_neutral _ _ _ _ _ _ _ Hloop)
    as (Hneutral & Hlen & _).
  assert (∀ tail,
            tail = [] ∨ tail = [printed (Failed_to_set_mode mode ret)] →
            device_calls
              (hid_hw_power PM_HINT_FULLON 0
               :: (calls ++ [hid_hw_power PM_HINT_NORMAL
                               (hid_hw_power_normal_ret host)]) ++ tail) = []
            ∧ power_hints_open
                (hid_hw_power PM_HINT_FULLON 0
                 :: (calls ++ [hid_hw_power PM_HINT_NORMAL
                                 (hid_hw_power_normal_ret host)]) ++ tail)
              = 0
            ∧ (length (control_messages
                 (hid_hw_power PM_HINT_FULLON 0
                  :: (calls ++ [hid_hw_power PM_HINT_NORMAL
                                  (hid_hw_power_normal_ret host)]) ++ tail))
               ≤ 5)%nat) as Htrace.
  { intros tail Hprinted.
    assert (Forall (λ call : kbd_call,
                      match call with
                      | on_device _ | hid_hw_power _ _ => False
                      | _ => True
                      end) tail) as Htail
      by (destruct Hprinted as [->| ->]; by repeat constructor).
    change (hid_hw_power PM_HINT_FULLON 0 :: ?l)
      with ([hid_hw_power PM_HINT_FULLON 0] ++ l).
    split.
    { rewrite !device_calls_app, (device_calls_neutral calls Hneutral),
        (device_calls_neutral tail Htail). done. }
    split.
    { rewrite !power_hints_open_app, Hup, Hdown,
        (power_hints_open_neutral calls Hneutral),
        (power_hints_open_neutral tail Htail). done. }
    rewrite !control_messages_app, !length_app.
    assert (control_messages tail = []) as Htail'.
    { destruct Hprinted as [->| ->]; done. }
    rewrite Htail'. simpl. lia. }
  destruct (Z.ltb_spec ret 0) as [Hneg|Hpos].
  - do 3 eexists. split; [reflexivity|].
    split; [lia|]. split; [done|].
    rewrite <- app_comm_cons.
    apply (Htrace [printed (Failed_to_set_mode mode ret)]). by right.
  - do 3 eexists. split; [reflexivity|]. simpl.
    split; [done|]. split; [done|].
    specialize (Htrace [] (or_introl eq_refl)).
    by rewrite app_nil_r in Htrace.
Qed.

End kbd_set_mode_facts.

Section kbd_set_mode_theorems.
Import Host RealDevice AppletbKbd.
Context `{hid_usb_constants}.
Local Open Scope Z_scope.

(** X21.  [appletb_kbd_set_mode].  When it returns 0 the mode asked
    for was valid and is the current mode, the saved mode and the quirks
    being untouched; when it fails the structure is unchanged.  A mode
    above [APPLETB_KBD_MODE_MAX] is refused with [-EINVAL] before
    anything is done; a device that does not power up gives its error;
    without the T1 quirk the report is requested with the mode as its
    value and the call succeeds.  On every path the power hints it gave
    are paired, it makes no start, stop, open or close call, and it
    sends at most five control messages. *)
Theorem appletb_kbd_set_mode_outcome host kbd mode :
  PM_HINT_FULLON ≠ PM_HINT_NORMAL →
  let r := appletb_kbd_set_mode host kbd mode in
  (r.1.1 = 0 →
   mode ≤ APPLETB_KBD_MODE_MAX
   ∧ current_mode r.1.2 = mode
   ∧ saved_mode r.1.2 = saved_mode kbd
   ∧ quirks r.1.2 = quirks kbd)
  ∧ (r.1.1 ≠ 0 → r.1.2 = kbd)
  ∧ (APPLETB_KBD_MODE_MAX < mode → r.1.1 = - EINVAL ∧ r.2 = [])
  ∧ (mode ≤ APPLETB_KBD_MODE_MAX →
     hid_hw_power_fullon_ret host ≠ 0 →
     r.1.1 = hid_hw_power_fullon_ret host)
  ∧ (mode ≤ APPLETB_KBD_MODE_MAX →
     hid_hw_power_fullon_ret host = 0 →
     Z.land (quirks kbd) APPLETB_KBD_QUIRK_IS_T1 = 0 →
     r.1.1 = 0 ∧ mode_field_value r.1.2 = mode)
  ∧ power_hints_open r.2 = 0
  ∧ device_calls r.2 = []
  ∧ (length (control_messages r.2) ≤ 5)%nat.
Proof.
  intros Hhints r. subst r.
  destruct (appletb_kbd_set_mode_result host kbd mode Hhints)
    as (ret & kbd' & calls & Hrun & Hok & Hfail & Hdev & Hpower & Hmsgs).
  split; [rewrite Hrun; simpl; intros Hret; by destruct (Hok Hret) as
            (? & ? & ? & ? & _)|].
  split; [by rewrite Hrun|].
  split.
  { intros Hbig. unfold appletb_kbd_set_mode.
    apply Z.ltb_lt in Hbig. by rewrite Hbig. }
  split.
  { intros Hmode Hon. unfold appletb_kbd_set_mode.
    assert ((APPLETB_KBD_MODE_MAX <? mode) = false) as ->
      by (apply Z.ltb_ge; lia).
    apply Z.eqb_neq in Hon. by rewrite Hon. }
  split.
  { intros Hmode Hon Ht2. unfold appletb_kbd_set_mode.
    assert ((APPLETB_KBD_MODE_MAX <? mode) = false) as ->
      by (apply Z.ltb_ge; lia).
    rewrite Hon, Ht2. done. }
  by rewrite Hrun.
Qed.

Lemma control_messages_power level ret calls :
  control_messages (hid_hw_power level ret :: calls) = control_messages calls.
Proof. done. Qed.

Lemma control_messages_printed message calls :
  control_messages (printed message :: calls) = control_messages calls.
Proof. done. Qed.

Lemma sleeps_app calls1 calls2 :
  sleeps (calls1 ++ calls2) = sleeps calls1 ++ sleeps calls2.
Proof. apply omap_app. Qed.

Lemma sleeps_msg host kbd mode ret calls :
  sleeps (set_report_msg host kbd mode ret :: calls) = sleeps calls.
Proof. done. Qed.

Lemma sleeps_power level ret calls :
  sleeps (hid_hw_power level ret :: calls) = sleeps calls.
Proof. done. Qed.

Lemma sleeps_printed message calls :
  sleeps (printed message :: calls) = sleeps calls.
Proof. done. Qed.

Lemma control_messages_stalled host kbd mode tries n :
  control_messages
    (flat_map (λ tries : nat,
                 [set_report_msg host kbd mode (- EPIPE);
                  usleep_range (Z.shiftl 1000 (Z.of_nat tries))
                               (Z.shiftl 3000 (Z.of_nat tries))])
              (seq tries n))
  = (λ _, set_report_msg host kbd mode (- EPIPE)) <$> seq tries n.
Proof.
  revert tries. induction n as [|n IH]; intros tries; [done|].
  cbn [seq flat_map app fmap list_fmap].
  rewrite control_messages_msg, control_messages_sleep. f_equal. apply IH.
Qed.

Lemma sleeps_stalled host kbd mode tries n :
  sleeps
    (flat_map (λ tries : nat,
                 [set_report_msg host kbd mode (- EPIPE);
                  usleep_range (Z.shiftl 1000 (Z.of_nat tries))
                               (Z.shiftl 3000 (Z.of_nat tries))])
              (seq tries n))
  = (λ i : nat, (1000 * 2 ^ Z.of_nat i, 3000 * 2 ^ Z.of_nat i))
      <$> seq tries n.
Proof.
  revert tries. induction n as [|n IH]; intros tries; [done|].
  cbn [seq flat_map app fmap list_fmap].
  rewrite sleeps_msg.
  change (sleeps (usleep_range ?a ?b :: ?t)) with ((a, b) :: sleeps t).
  rewrite !Z.shiftl_mul_pow2 by lia. f_equal. apply IH.
Qed.

(** Read the control messages and the sleeps off a trace. *)
Ltac read_trace :=
  repeat first
    [ rewrite control_messages_app | rewrite control_messages_stalled
    | rewrite control_messages_msg | rewrite control_messages_power
    | rewrite control_messages_printed
    | rewrite sleeps_app | rewrite sleeps_stalled | rewrite sleeps_msg
    | rewrite sleeps_power | rewrite sleeps_printed ];
  change (control_messages []) with (@nil kbd_call);
  change (sleeps []) with (@nil (Z * Z));
  rewrite ?app_nil_r.

(** X22.  The retries of [appletb_kbd_set_mode] on a T1 Touch Bar that
    powered up.  With n the number of tries that stall with [-EPIPE] in
    front of the first that does not (five at most), it sends n + 1
    control messages, five at most, all the same; it sleeps after each
    stalled try, from 1000 << i to 3000 << i microseconds after try i;
    it returns the first answer that is not a stall when that answer is
    negative and 0 otherwise; and after five stalls it gives up with
    [-EPIPE] and leaves the mode as it was. *)
Theorem appletb_kbd_set_mode_retries host kbd mode :
  Z.land (quirks kbd) APPLETB_KBD_QUIRK_IS_T1 ≠ 0 →
  mode ≤ APPLETB_KBD_MODE_MAX →
  hid_hw_power_fullon_ret host = 0 →
  kmemdup_ok host = true →
  let n := stalled_tries host 5 0 in
  let last := usb_control_msg_ret host n in
  let r := appletb_kbd_set_mode host kbd mode in
  (n ≤ 5)%nat
  ∧ control_messages r.2
    = (λ i, set_report_msg host kbd mode (usb_control_msg_ret host i))
        <$> seq 0 (Nat.min (S n) 5)
  ∧ sleeps r.2
    = (λ i : nat, (1000 * 2 ^ Z.of_nat i, 3000 * 2 ^ Z.of_nat i))
        <$> seq 0 n
  ∧ ((n < 5)%nat → r.1.1 = (if last <? 0 then last else 0))
  ∧ (n = 5%nat → r.1.1 = - EPIPE ∧ r.1.2 = kbd).
Proof.
  intros Ht1 Hmode Hon Hmem n last r. subst r last.
  destruct (stalled_tries_spec host 5 0) as (Hle & Hall & Hlast).
  fold n in Hle, Hall, Hlast. simpl in Hall, Hlast.
  split; [done|].
  unfold appletb_kbd_set_mode.
  assert ((APPLETB_KBD_MODE_MAX <? mode) = false) as ->
    by (apply Z.ltb_ge; lia).
  rewrite Hon, Hmem. apply Z.eqb_neq in Ht1. rewrite Ht1. cbn [negb Z.eqb].
  assert ((λ _ : nat, set_report_msg host kbd mode (- EPIPE)) <$> seq 0 n
          = (λ i, set_report_msg host kbd mode (usb_control_msg_ret host i))
              <$> seq 0 n) as Hstalled.
  { apply list_fmap_ext. intros i j [-> Hj]%lookup_seq.
    rewrite Hall by lia. done. }
  destruct (decide (n < 5)%nat) as [Hlt|Hge].
  - rewrite (set_report_loop_stalls host kbd mode n 5 0); try done;
      [|by apply Hlast].
    unfold default. cbn [from_option id Nat.add].
    assert (Nat.min (S n) 5 = S n) as -> by lia.
    rewrite seq_S, fmap_app. cbn [fmap list_fmap Nat.add].
    rewrite <- Hstalled.
    destruct (Z.ltb_spec (usb_control_msg_ret host n) 0) as [Hneg|Hpos];
      cbn [fst snd];
      (split; [by read_trace|split; [by read_trace|split; [done|lia]]]).
  - assert (n = 5%nat) as Hn by lia.
    rewrite (set_report_loop_gives_up host kbd mode 5 5 0); try done;
      try lia; [|intros i Hi; apply Hall; lia].
    unfold default. cbn [from_option id].
    assert ((- EPIPE <? 0) = true) as -> by done.
    cbn [fst snd]. rewrite Hn in *.
    assert (Nat.min 6 5 = 5%nat) as -> by done.
    rewrite <- Hstalled.
    split; [by read_trace|split; [by read_trace|split; [lia|done]]].
Qed.

End kbd_set_mode_theorems.

Section kbd_mode_changes.
Import Host RealDevice AppletbKbd.
Context `{hid_usb_constants}.
Local Open Scope Z_scope.

(** Without the T1 quirk, on a device that powers up, a valid mode is
    always set: the report is requested with the mode as its value. *)
Lemma appletb_kbd_set_mode_requested host kbd mode :
  mode ≤ APPLETB_KBD_MODE_MAX →
  hid_hw_power_fullon_ret host = 0 →
  Z.land (quirks kbd) APPLETB_KBD_QUIRK_IS_T1 = 0 →
  appletb_kbd_set_mode host kbd mode
  = (0,
     mk_appletb_kbd mode (mode_report_type kbd) (mode_report_id kbd)
                    (quirks kbd) (saved_mode kbd) mode,
     [hid_hw_power PM_HINT_FULLON 0;
      hid_hw_request (mode_report_type kbd) (mode_report_id kbd) mode
                     HID_REQ_SET_REPORT;
      hid_hw_power PM_HINT_NORMAL (hid_hw_power_normal_ret host)]).
Proof.
  intros Hmode Hon Ht2. unfold appletb_kbd_set_mode.
  assert ((APPLETB_KBD_MODE_MAX <? mode) = false) as ->
    by (apply Z.ltb_ge; lia).
  rewrite Hon, Ht2. reflexivity.
Qed.

(** A device that does not power up: nothing is set. *)
Lemma appletb_kbd_set_mode_no_power host kbd mode :
  hid_hw_power_fullon_ret host ≠ 0 →
  (appletb_kbd_set_mode host kbd mode).1.2 = kbd.
Proof.
  intros Hon. unfold appletb_kbd_set_mode.
  destruct (APPLETB_KBD_MODE_MAX <? mode); [done|].
  apply Z.eqb_neq in Hon. by rewrite Hon.
Qed.

(** With the T1 quirk, on a device that powers up, what is returned is
    decided by the first control message that does not stall, and by
    nothing when all five stall. *)
Lemma appletb_kbd_set_mode_answered host kbd mode :
  mode ≤ APPLETB_KBD_MODE_MAX →
  hid_hw_power_fullon_ret host = 0 →
  Z.land (quirks kbd) APPLETB_KBD_QUIRK_IS_T1 ≠ 0 →
  kmemdup_ok host = true →
  let n := stalled_tries host 5 0 in
  let last := usb_control_msg_ret host n in
  let r := appletb_kbd_set_mode host kbd mode in
  ((n < 5)%nat → r.1.1 = (if last <? 0 then last else 0))
  ∧ (n = 5%nat → r.1.1 = - EPIPE).
Proof.
  intros Hmode Hon Ht1 Hbuf n last r. subst r.
  unfold appletb_kbd_set_mode.
  assert ((APPLETB_KBD_MODE_MAX <? mode) = false) as ->
    by (apply Z.ltb_ge; lia).
  rewrite Hon. apply Z.eqb_neq in Ht1. rewrite Ht1, Hbuf. cbn [Z.eqb negb].
  destruct (stalled_tries_spec host 5 0) as (Hle & Hall & Hlast).
  fold n in Hle, Hall, Hlast.
  split.
  - intros Hn.
    rewrite (set_report_loop_stalls host kbd mode n 5 0);
      [|done|by apply Hlast|done|done].
    unfold default. cbn [from_option id]. unfold last.
    change (0 + n)%nat with n.
    by destruct (usb_control_msg_ret host n <? 0).
  - intros Hn.
    rewrite (set_report_loop_gives_up host kbd mode 5 5 0);
      [|intros i Hi; apply Hall; lia|done|lia|done].
    unfold default. cbn [from_option id]. reflexivity.
Qed.

End kbd_mode_changes.

Section kbd_lifecycle.
Import Host RealDevice AppletbKbd.
Context `{hid_usb_constants}.
Local Open Scope Z_scope.

(** X23.  [appletb_kbd_suspend] then [appletb_kbd_reset_resume].  Both
    return 0 whatever the device answers.  Suspend saves the current
    mode and switches the Touch Bar off: without the T1 quirk a device
    that powers up is sent the report with the off mode as its value and
    is off afterwards; with the T1 quirk it is off afterwards when the
    first control message that does not stall is not an error.  When the
    device does not power up, or all five control messages stall, the
    mode stays what it was; in no case is the Touch Bar left in a third
    mode.  The resume leaves it in the mode it had before the suspend
    whenever setting that mode succeeds (always so without the T1 quirk
    on a device that powers up), and never in a third mode.  The power
    hints of the two calls are paired. *)
Theorem appletb_kbd_suspend_reset_resume host1 host2 kbd :
  PM_HINT_FULLON ≠ PM_HINT_NORMAL →
  let s := appletb_kbd_suspend host1 kbd in
  let r := appletb_kbd_reset_resume host2 s.1.2 in
  let stalled := stalled_tries host1 5 0 in
  s.1.1 = 0 ∧ r.1.1 = 0
  ∧ saved_mode s.1.2 = current_mode kbd
  ∧ (current_mode s.1.2 = APPLETB_KBD_MODE_OFF
     ∨ current_mode s.1.2 = current_mode kbd)
  ∧ (hid_hw_power_fullon_ret host1 = 0 →
     Z.land (quirks kbd) APPLETB_KBD_QUIRK_IS_T1 = 0 →
     current_mode s.1.2 = APPLETB_KBD_MODE_OFF
     ∧ mode_field_value s.1.2 = APPLETB_KBD_MODE_OFF
     ∧ s.2 = [hid_hw_power PM_HINT_FULLON 0;
              hid_hw_request (mode_report_type kbd) (mode_report_id kbd)
                             APPLETB_KBD_MODE_OFF HID_REQ_SET_REPORT;
              hid_hw_power PM_HINT_NORMAL (hid_hw_power_normal_ret host1)])
  ∧ (hid_hw_power_fullon_ret host1 = 0 →
     Z.land (quirks kbd) APPLETB_KBD_QUIRK_IS_T1 ≠ 0 →
     kmemdup_ok host1 = true →
     (stalled < 5)%nat →
     0 ≤ usb_control_msg_ret host1 stalled →
     current_mode s.1.2 = APPLETB_KBD_MODE_OFF)
  ∧ (hid_hw_power_fullon_ret host1 = 0 →
     Z.land (quirks kbd) APPLETB_KBD_QUIRK_IS_T1 ≠ 0 →
     kmemdup_ok host1 = true →
     stalled = 5%nat →
     current_mode s.1.2 = current_mode kbd)
  ∧ (hid_hw_power_fullon_ret host1 ≠ 0 →
     current_mode s.1.2 = current_mode kbd)
  ∧ (current_mode r.1.2 = current_mode kbd
     ∨ current_mode r.1.2 = APPLETB_KBD_MODE_OFF)
  ∧ ((appletb_kbd_set_mode host2 s.1.2 (current_mode kbd)).1.1 = 0 →
     current_mode r.1.2 = current_mode kbd)
  ∧ (current_mode kbd ≤ APPLETB_KBD_MODE_MAX →
     hid_hw_power_fullon_ret host2 = 0 →
     Z.land (quirks kbd) APPLETB_KBD_QUIRK_IS_T1 = 0 →
     current_mode r.1.2 = current_mode kbd)
  ∧ power_hints_open (s.2 ++ r.2) = 0.
Proof.
  intros Hhints s r stalled. subst s r.
  unfold appletb_kbd_suspend.
  set (kbd0 := mk_appletb_kbd (mode_field_value kbd) (mode_report_type kbd)
                 (mode_report_id kbd) (quirks kbd) (current_mode kbd)
                 (current_mode kbd)).
  assert (APPLETB_KBD_MODE_OFF ≤ APPLETB_KBD_MODE_MAX) as Hoff by done.
  pose proof (appletb_kbd_set_mode_requested host1 kbd0 APPLETB_KBD_MODE_OFF
                Hoff) as Ht2.
  pose proof (appletb_kbd_set_mode_answered host1 kbd0 APPLETB_KBD_MODE_OFF
                Hoff) as Ht1.
  pose proof (appletb_kbd_set_mode_no_power host1 kbd0 APPLETB_KBD_MODE_OFF)
    as Hdown.
  destruct (appletb_kbd_set_mode_result host1 kbd0 APPLETB_KBD_MODE_OFF
              Hhints)
    as (ret1 & kbd1 & calls1 & Hrun1 & Hok1 & Hfail1 & _ & Hpower1 & _).
  rewrite Hrun1 in Ht2, Ht1, Hdown |- *. cbn [fst snd] in Ht1, Hdown |- *.
  assert (saved_mode kbd1 = current_mode kbd
          ∧ quirks kbd1 = quirks kbd
          ∧ (current_mode kbd1 = APPLETB_KBD_MODE_OFF
             ∨ current_mode kbd1 = current_mode kbd))
    as (Hsaved & Hq & Hcur1).
  { destruct (Z.eq_dec ret1 0) as [Hret|Hret].
    - destruct (Hok1 Hret) as (_ & Hcur & Hsav & Hq & _).
      rewrite Hsav, Hq, Hcur. auto.
    - rewrite (Hfail1 Hret). auto. }
  unfold appletb_kbd_reset_resume. rewrite Hsaved.
  destruct (appletb_kbd_set_mode_result host2 kbd1 (current_mode kbd) Hhints)
    as (ret2 & kbd2 & calls2 & Hrun2 & Hok2 & Hfail2 & _ & Hpower2 & _).
  rewrite Hrun2. cbn [fst snd].
  split; [done|]. split; [done|]. split; [done|]. split; [done|].
  split.
  { intros Hon Hquirk. specialize (Ht2 Hon Hquirk).
    injection Ht2 as _ -> ->. done. }
  split.
  { intros Hon Hquirk Hbuf Hn Hlast.
    destruct (Ht1 Hon Hquirk Hbuf) as [Hret _]. specialize (Hret Hn).
    fold stalled in Hret.
    assert ((usb_control_msg_ret host1 stalled <? 0) = false) as Hpos
      by (apply Z.ltb_ge; lia).
    rewrite Hpos in Hret.
    by destruct (Hok1 Hret) as (_ & Hcur & _). }
  split.
  { intros Hon Hquirk Hbuf Hn.
    destruct (Ht1 Hon Hquirk Hbuf) as [_ Hret]. specialize (Hret Hn).
    rewrite Hfail1; [done|]. rewrite Hret. unfold EPIPE. lia. }
  split.
  { intros Hon. by rewrite (Hdown Hon). }
  split.
  { destruct (Z.eq_dec ret2 0) as [Hret|Hret].
    - destruct (Hok2 Hret) as (_ & Hcur & _). by left.
    - rewrite (Hfail2 Hret). destruct Hcur1; auto. }
  split; [intros Hret; by destruct (Hok2 Hret) as (_ & Hcur & _)|].
  split.
  { intros Hmode Hon Hquirk.
    assert (Z.land (quirks kbd1) APPLETB_KBD_QUIRK_IS_T1 = 0) as Hquirk1
      by (by rewrite Hq).
    pose proof (appletb_kbd_set_mode_requested host2 kbd1 (current_mode kbd)
                  Hmode Hon Hquirk1) as Hset.
    rewrite Hrun2 in Hset. by injection Hset as _ -> _. }
  rewrite power_hints_open_app. lia.
Qed.

Lemma started_after_app calls1 calls2 :
  started_after (calls1 ++ calls2)
  = foldl (λ started call,
             match call with
             | hid_hw_start ret => if (ret =? 0) then true else started
             | hid_hw_stop => false
             | _ => started
             end) (started_after calls1) calls2.
Proof. unfold started_after. apply foldl_app. Qed.

Lemma opens_after_app calls1 calls2 :
  opens_after (calls1 ++ calls2)
  = foldl (λ opens call,
             match call with
             | hid_hw_open ret => if (ret =? 0) then opens + 1 else opens
             | hid_hw_close => opens - 1
             | _ => opens
             end) (opens_after calls1) calls2.
Proof. unfold opens_after. apply foldl_app. Qed.

(** X24.  [appletb_kbd_probe] and [appletb_kbd_remove].  The probe
    returns 0 exactly when it set the driver data; on an error the
    device is neither started nor open; the power hints are paired on
    every path.  A T1 device that is not on USB is refused with
    [-ENODEV] before any call, and a device without the mode field is
    refused.  After a successful probe the device is started and opened
    once, the Touch Bar is off and the quirks are those of the device
    id; after the remove that follows it is closed and stopped,
    whatever the device answered to the last mode change. *)
Theorem appletb_kbd_probe_remove host remove_host :
  PM_HINT_FULLON ≠ PM_HINT_NORMAL →
  let p := appletb_kbd_probe host in
  (p.1.1 = 0 ↔ is_Some p.1.2)
  ∧ (p.1.1 ≠ 0 →
     started_after (device_calls p.2) = false
     ∧ opens_after (device_calls p.2) = 0)
  ∧ power_hints_open p.2 = 0
  ∧ (Z.land (driver_data host) APPLETB_KBD_QUIRK_IS_T1 ≠ 0 →
     hid_is_usb host = false →
     p = (- ENODEV, None, []))
  ∧ (mode_field host = None → p.1.1 ≠ 0)
  ∧ (∀ kbd,
       p.1.2 = Some kbd →
       started_after (device_calls p.2) = true
       ∧ opens_after (device_calls p.2) = 1
       ∧ current_mode kbd = APPLETB_KBD_MODE_OFF
       ∧ quirks kbd = driver_data host
       ∧ let rm := appletb_kbd_remove remove_host kbd in
         started_after (device_calls (p.2 ++ rm.2)) = false
         ∧ opens_after (device_calls (p.2 ++ rm.2)) = 0
         ∧ power_hints_open (p.2 ++ rm.2) = 0).
Proof.
  intros Hhints p. subst p. unfold appletb_kbd_probe.
  (* a probe that fails before the mode is set *)
  assert (∀ ret calls,
            ret ≠ 0 →
            started_after (device_calls calls) = false →
            opens_after (device_calls calls) = 0 →
            power_hints_open calls = 0 →
            (mode_field host = None → ret ≠ 0) →
            ((ret, @None appletb_kbd, calls).1.1 = 0
             ↔ is_Some (ret, @None appletb_kbd, calls).1.2)
            ∧ ((ret, @None appletb_kbd, calls).1.1 ≠ 0 →
               started_after (device_calls (ret, @None appletb_kbd, calls).2)
               = false
               ∧ opens_after (device_calls (ret, @None appletb_kbd, calls).2)
                 = 0)
            ∧ power_hints_open (ret, @None appletb_kbd, calls).2 = 0
            ∧ (mode_field host = None →
               (ret, @None appletb_kbd, calls).1.1 ≠ 0)
            ∧ (∀ kbd,
                 (ret, @None appletb_kbd, calls).1.2 = Some kbd →
                 started_after
                   (device_calls (ret, @None appletb_kbd, calls).2) = true
                 ∧ opens_after
                     (device_calls (ret, @None appletb_kbd, calls).2) = 1
                 ∧ current_mode kbd = APPLETB_KBD_MODE_OFF
                 ∧ quirks kbd = driver_data host
                 ∧ let rm := appletb_kbd_remove remove_host kbd in
                   started_after
                     (device_calls
                        ((ret, @None appletb_kbd, calls).2 ++ rm.2)) = false
                   ∧ opens_after
                       (device_calls
                          ((ret, @None appletb_kbd, calls).2 ++ rm.2)) = 0
                   ∧ power_hints_open
                       ((ret, @None appletb_kbd, calls).2 ++ rm.2) = 0))
    as Hfailed.
  { intros ret calls Hret Hstarted Hopens Hpower Hfield. cbn [fst snd].
    split; [split; [done|by intros [? [=]]]|].
    split; [done|]. split; [done|]. split; [done|]. by intros kbd [=]. }
  destruct (negb (Z.land (driver_data host) APPLETB_KBD_QUIRK_IS_T1 =? 0)
            && negb (hid_is_usb host)) eqn:Hquirk.
  { destruct (Hfailed (- ENODEV) []) as (H1 & H2 & H3 & H4 & H5);
      [done..|].
    split; [done|]. split; [done|]. split; [done|]. split; [done|].
    split; done. }
  assert (Z.land (driver_data host) APPLETB_KBD_QUIRK_IS_T1 ≠ 0 →
          hid_is_usb host = false → False) as Hnot.
  { intros Ht1%Z.eqb_neq Husb. by rewrite Ht1, Husb in Hquirk. }
  (* the goal without the conjunct of the quirk test *)
  match goal with
  | |- ?a ∧ ?b ∧ ?c ∧ ?d ∧ ?e ∧ ?f =>
      enough (a ∧ b ∧ c ∧ e ∧ f) as (H1 & H2 & H3 & H5 & H6);
      [split; [done|]; split; [done|]; split; [done|];
       split; [intros Ht1 Husb; by destruct (Hnot Ht1 Husb)|by split]|]
  end.
  destruct (Z.eqb_spec (hid_parse_ret host) 0) as [Hparse|Hparse];
    cbn [negb].
  2:{ apply Hfailed;
        [done|done|done|by rewrite power_hints_open_app|done]. }
  rewrite Hparse.
  destruct (mode_field host) as [[[value0 report_type] report_id]|]
    eqn:Hfield.
  2:{ apply Hfailed; done. }
  destruct (devm_kzalloc_ok host); cbn [negb].
  2:{ apply Hfailed; done. }
  destruct (Z.eqb_spec (hid_hw_start_ret host) 0) as [Hstart|Hstart];
    cbn [negb].
  2:{ apply Z.eqb_neq in Hstart as Hstart'.
      apply Hfailed; [done| |done| |done].
      - rewrite !device_calls_app. unfold started_after. simpl.
        by rewrite Hstart'.
      - by rewrite !power_hints_open_app. }
  rewrite Hstart.
  destruct (Z.eqb_spec (hid_hw_open_ret host) 0) as [Hopen|Hopen];
    cbn [negb].
  2:{ apply Z.eqb_neq in Hopen as Hopen'.
      apply Hfailed; [done|done| | |done].
      - rewrite !device_calls_app. unfold opens_after. simpl.
        by rewrite Hopen'.
      - by rewrite !power_hints_open_app. }
  rewrite Hopen.
  destruct (appletb_kbd_set_mode_result (set_mode_off host)
              (mk_appletb_kbd value0 report_type report_id
                              (driver_data host) 0 0)
              APPLETB_KBD_MODE_OFF Hhints)
    as (ret & kbd & calls & Hrun & Hok & Hfail & Hdev & Hpower & _).
  rewrite Hrun.
  destruct (Z.eqb_spec ret 0) as [Hret|Hret]; cbn [negb].
  2:{ apply Hfailed; [done| | | |done].
      - by rewrite !device_calls_app, Hdev.
      - by rewrite !device_calls_app, Hdev.
      - by rewrite !power_hints_open_app, Hpower. }
  destruct (Hok Hret) as (_ & Hcur & _ & Hq & _).
  cbn [fst snd].
  split; [split; [by eexists|done]|].
  split; [done|].
  split; [rewrite !power_hints_open_app, Hpower; done|].
  split; [done|].
  intros kbd' [= <-].
  split; [rewrite !device_calls_app, Hdev; done|].
  split; [rewrite !device_calls_app, Hdev; done|].
  split; [done|]. split; [done|].
  unfold appletb_kbd_remove.
  destruct (appletb_kbd_set_mode_result remove_host kbd
              APPLETB_KBD_MODE_OFF Hhints)
    as (ret' & kbd' & calls' & Hrun' & _ & _ & Hdev' & Hpower' & _).
  rewrite Hrun'. cbn [fst snd].
  split; [rewrite !device_calls_app, Hdev, Hdev'; done|].
  split; [rewrite !device_calls_app, Hdev, Hdev'; done|].
  rewrite !power_hints_open_app, Hpower, Hpower'. done.
Qed.

End kbd_lifecycle.

(** * The added theorems at sample inputs *)

Section more_samples_hid_appleib.
Import HidCore Scanner Host HidAppleib Descriptor Samples.
Import Tiling MoreSamples RealDevice HidAppleibDriver.

Ltac fetch_items :=
  repeat (eapply fetches_cons; [reflexivity|]); apply fetches_nil.

Lemma empty_bus_fresh : bus_fresh empty_bus.
Proof. intros r Hr. by apply elem_of_nil in Hr. Qed.

Lemma accepts_all_errno : refuses_with_errno accepts_all.
Proof. intros j err Herr. discriminate Herr. Qed.

Lemma refuses_slot_errno k : refuses_with_errno (refuses_slot k).
Proof.
  intros j err. unfold refuses_slot.
  destruct (j =? k); [|discriminate].
  intros [= <-]. unfold is_errno. lia.
Qed.

(** Usage Page (1), Usage (6) and an extended Usage item holding
    0x00200041 in front of the collection: the page of the Usage Page
    item and the low half of the last Usage item make the usage. *)
Lemma find_collection_usage_last_wins_witness :
  appleib_find_collection (H := example_host) extended_usage_rdesc 12 0
  = (12, 0x00010041%Z).
Proof.
  assert (∃ header body,
            collection_items (H := example_host) extended_usage_rdesc
                             12 0 12 header body
            ∧ last_usage_page header = 1%Z
            ∧ last_usage_id header = 0x00200041%Z)
    as (header & body & Hitems & Hpage & Hid).
  { eexists [_; _; _], []. split.
    - do 5 eexists.
      split; [fetch_items|].
      split; [repeat constructor; intros [?|?]; discriminate|].
      split; [reflexivity|].
      split; [reflexivity|].
      split; [fetch_items|].
      split; [constructor|].
      split; reflexivity.
    - split; reflexivity. }
  rewrite (find_collection_usage_last_wins (H := example_host)
             extended_usage_rdesc 12 0 12 header body Hitems).
  rewrite Hpage, Hid. reflexivity.
Defined.

(** Two devices, both closed: after the first one's open a report
    reaches it once, after its close no more. *)
Lemma appleib_ll_open_close_switch_reports_witness :
  let info := mk_info (ibridge_hdev []) [Dev 1; Dev 2] 0 in
  copies_to (Dev 1)
    (appleib_hid_raw_event (appleib_ll_open info 1).1 1 [0x02; 0x10]%Z 2).1
  = 1
  ∧ copies_to (Dev 1)
      (appleib_hid_raw_event
         (appleib_ll_close (appleib_ll_open info 1).1 1) 1 [0x02; 0x10]%Z 2).1
    = 0.
Proof.
  destruct (appleib_ll_open_close_switch_reports
              (mk_info (ibridge_hdev []) [Dev 1; Dev 2] 0) 1 0
              1 [0x02; 0x10]%Z 2)
    as (_ & Hopened & Hclosed & _).
  - vm_compute. lia.
  - reflexivity.
  - intros [|[|j]] Hj Hne; [done|split; discriminate|vm_compute in Hj; lia].
  - split; [exact Hopened|exact Hclosed].
Defined.

(** The host refuses the second virtual device of the sample descriptor
    with [-EINVAL]: the split returns that error and the registry is as
    it was. *)
Lemma appleib_add_sub_devs_all_or_nothing_witness :
  (appleib_add_sub_devs (H := example_host) (refuses_slot 1)
     (probe_start (ibridge_hdev example_rdesc) empty_bus)).1 = (-22)%Z
  ∧ bus_registered
      (st_bus
         (appleib_add_sub_devs (H := example_host) (refuses_slot 1)
            (probe_start (ibridge_hdev example_rdesc) empty_bus)).2) = [].
Proof.
  destruct (appleib_add_sub_devs_all_or_nothing (H := example_host)
              (refuses_slot 1) (ibridge_hdev example_rdesc) empty_bus
              empty_bus_fresh (refuses_slot_errno 1))
    as (Hzero & _ & Hfail).
  assert ((appleib_add_sub_devs (H := example_host) (refuses_slot 1)
             (probe_start (ibridge_hdev example_rdesc) empty_bus)).1
          ≠ 0%Z) as Hret.
  { intros Hret. destruct Hzero as [Hzero _].
    specialize (Hzero Hret 1). vm_compute in Hzero.
    assert (false = true) as Habs by (apply Hzero; lia). discriminate Habs. }
  destruct (Hfail Hret) as (_ & Hreg & k & Hk & Hfront & Hk_err).
  split; [|exact Hreg].
  destruct k as [|[|k]].
  - vm_compute in Hk_err. discriminate Hk_err.
  - apply (inj Some) in Hk_err. symmetry. exact Hk_err.
  - vm_compute in Hk. lia.
Defined.

(** The sample descriptor, the host accepting both virtual devices and
    refusing the open of the real device with [-EIO]: the probe returns
    the error, the virtual devices are gone again and the real device is
    stopped. *)
Lemma appleib_hid_probe_outcome_witness :
  let r :=
    appleib_hid_probe (H := example_host) (mk_probe_host true 0 0 (- EIO))
      accepts_all (ibridge_hdev example_rdesc) empty_bus in
  r.1 = (- EIO)%Z
  ∧ started_after (ds_calls r.2) = false
  ∧ opens_after (ds_calls r.2) = 0%Z
  ∧ bus_registered (ds_bus r.2) = [].
Proof.
  destruct (appleib_hid_probe_outcome (H := example_host)
              (mk_probe_host true 0 0 (- EIO))
              accepts_all (ibridge_hdev example_rdesc) empty_bus
              empty_bus_fresh accepts_all_errno)
    as (_ & _ & Hfail).
  { reflexivity. }
  split; [reflexivity|].
  destruct Hfail as (Hstarted & Hopens & Hreg & _); [discriminate|].
  split; [exact Hstarted|]. split; [exact Hopens|exact Hreg].
Defined.

(** The sample descriptor on a host that accepts everything: after
    probe and remove the registry is empty again, the real device is
    closed and stopped, and both virtual devices went to
    [hid_destroy_device]. *)
Lemma appleib_hid_probe_remove_round_trip_witness :
  ∃ ds',
    appleib_hid_remove
      (appleib_hid_probe (H := example_host) (mk_probe_host true 0 0 0)
         accepts_all (ibridge_hdev example_rdesc) empty_bus).2 = Some ds'
    ∧ bus_registered (ds_bus ds') = []
    ∧ started_after (ds_calls ds') = false
    ∧ opens_after (ds_calls ds') = 0%Z
    ∧ ds_torn_down ds' = [Dev 1; Dev 2].
Proof.
  destruct (appleib_hid_probe_remove_round_trip (H := example_host)
              (mk_probe_host true 0 0 0)
              accepts_all (ibridge_hdev example_rdesc) empty_bus
              (appleib_hid_probe (H := example_host)
                 (mk_probe_host true 0 0 0)
                 accepts_all (ibridge_hdev example_rdesc) empty_bus).2
              empty_bus_fresh accepts_all_errno)
    as (ds' & Hremove & Hreg & Hstarted & Hopens & Htorn).
  { reflexivity. }
  { reflexivity. }
  exists ds'. split; [exact Hremove|]. split; [exact Hreg|].
  split; [exact Hstarted|]. split; [exact Hopens|exact Htorn].
Defined.

(** A descriptor with one recognized collection: the probe fills slot
    0 only, and the remove hands the device of slot 0 and the NULL of
    slot 1 to [hid_destroy_device]. *)
Lemma appleib_hid_remove_unfilled_slots_witness :
  ∃ ds',
    appleib_hid_remove
      (appleib_hid_probe (H := example_host) (mk_probe_host true 0 0 0)
         accepts_all (ibridge_hdev single_collection_rdesc) empty_bus).2
    = Some ds'
    ∧ ds_torn_down ds' = [Dev 1; NULL].
Proof.
  destruct (appleib_hid_remove_unfilled_slots (H := example_host)
              (mk_probe_host true 0 0 0)
              accepts_all (ibridge_hdev single_collection_rdesc) empty_bus
              (appleib_hid_probe (H := example_host)
                 (mk_probe_host true 0 0 0)
                 accepts_all (ibridge_hdev single_collection_rdesc)
                 empty_bus).2
              empty_bus_fresh accepts_all_errno)
    as (ds' & Hremove & Htorn & _).
  { reflexivity. }
  exists ds'. split; [exact Hremove|]. rewrite Htorn. reflexivity.
Defined.

End more_samples_hid_appleib.

Section more_samples_apple_ibridge.
Import HidCore Scanner Host AppleIbridge Descriptor Samples.
Import MoreSamples RealDevice AppleIbridgeDriver.

(** The sample descriptor, the host accepting both virtual devices and
    refusing the open of the real device with [-EIO]: the probe returns
    the error with the virtual devices gone again, the real device
    stopped and the driver data unset. *)
Lemma ib_hid_probe_outcome_witness :
  ∃ ds,
    appleib_hid_probe (H := example_host)
      (mk_probe_host 1 0 0 0 true (- EIO))
      accepts_all (ibridge_hdev example_rdesc) empty_bus
    = Some ((- EIO)%Z, ds)
    ∧ started_after (ds_calls ds) = false
    ∧ opens_after (ds_calls ds) = 0%Z
    ∧ bus_registered (ds_bus ds) = []
    ∧ ds_drvdata ds = None.
Proof.
  destruct (ib_hid_probe_outcome (H := example_host)
              (mk_probe_host 1 0 0 0 true (- EIO))
              accepts_all (ibridge_hdev example_rdesc) empty_bus
              empty_bus_fresh accepts_all_errno)
    as (_ & _ & Hsome).
  assert (∃ ds,
            appleib_hid_probe (H := example_host)
              (mk_probe_host 1 0 0 0 true (- EIO))
              accepts_all (ibridge_hdev example_rdesc) empty_bus
            = Some ((- EIO)%Z, ds)) as [ds Hrun]
    by (eexists; vm_compute; reflexivity).
  exists ds. split; [exact Hrun|].
  destruct (Hsome _ _ Hrun) as (_ & _ & Hfail).
  destruct Hfail as (Hstarted & Hopens & Hreg & Hdata & _);
    [unfold EIO; lia|].
  split; [exact Hstarted|]. split; [exact Hopens|].
  split; [exact Hreg|exact Hdata].
Defined.

(** The sample descriptor on a host that accepts everything: after
    probe and remove the registry is empty again, the real device is
    closed and stopped, and the driver data is unset. *)
Lemma ib_hid_probe_remove_round_trip_witness :
  ∃ ds ds',
    appleib_hid_probe (H := example_host) (mk_probe_host 1 0 0 0 true 0)
      accepts_all (ibridge_hdev example_rdesc) empty_bus = Some (0%Z, ds)
    ∧ appleib_hid_remove ds = Some ds'
    ∧ bus_registered (ds_bus ds') = []
    ∧ started_after (ds_calls ds') = false
    ∧ opens_after (ds_calls ds') = 0%Z
    ∧ ds_drvdata ds' = None
    ∧ ds_torn_down ds' = [Dev 1; Dev 2].
Proof.
  eexists.
  edestruct (ib_hid_probe_remove_round_trip (H := example_host)
               (mk_probe_host 1 0 0 0 true 0)
               accepts_all (ibridge_hdev example_rdesc) empty_bus)
    as (ds' & Hremove & Hreg & Hstarted & Hopens & Hdata & Htorn & _).
  - exact empty_bus_fresh.
  - exact accepts_all_errno.
  - reflexivity.
  - exists ds'. split; [reflexivity|]. split; [exact Hremove|].
    split; [exact Hreg|]. split; [exact Hstarted|]. split; [exact Hopens|].
    split; [exact Hdata|exact Htorn].
Defined.

End more_samples_apple_ibridge.

Section more_samples_appletb_kbd.
Import AppletbKbd KbdSamples.
Local Open Scope Z_scope.

Lemma linux_function_keys_in_rows :
  function_keys_in_rows (H := linux_input_event_codes).
Proof. unfold function_keys_in_rows. simpl. lia. Qed.

Lemma linux_power_hints_differ :
  PM_HINT_FULLON (hid_usb_constants := linux_hid_usb_constants)
  ≠ PM_HINT_NORMAL (hid_usb_constants := linux_hid_usb_constants).
Proof. discriminate. Qed.

(** With the key codes of Linux: F11 (87) has slot 11, the code between
    F10 and F11 (69, Num Lock) has none. *)
Lemma appletb_tb_key_to_slot_keymap_witness :
  appletb_tb_key_to_slot (H := linux_input_event_codes) 87 = 11
  ∧ appletb_tb_key_to_slot (H := linux_input_event_codes) 69 = - EINVAL.
Proof.
  destruct (appletb_tb_key_to_slot_keymap (H := linux_input_event_codes)
              linux_function_keys_in_rows)
    as (Hrange & Hkeys & _).
  split.
  - apply (Hkeys 11%nat (mk_key_entry KE_KEY 87 114)); reflexivity.
  - destruct (Hrange 69) as [Hnone|Hslot]; [exact Hnone|].
    vm_compute in Hslot. destruct Hslot as [Hslot _].
    by destruct Hslot.
Defined.

(** In the special-keys mode a press of F2 on the Touch Bar becomes a
    press of the brightness-up key. *)
Lemma appletb_kbd_hid_event_by_mode_witness :
  appletb_kbd_hid_event (H := linux_input_event_codes)
    (H0 := linux_hid_usb_constants)
    (keymap_entry_from_scancode
       (appletb_kbd_keymap (H := linux_input_event_codes)))
    (t1_kbd APPLETB_KBD_MODE_SPCL) (mk_hid_usage 0x0007003b 1 60) 1
  = ([mk_input_event 1 225 1], 1).
Proof.
  destruct (appletb_kbd_hid_event_by_mode (H := linux_input_event_codes)
              (H0 := linux_hid_usb_constants)
              (keymap_entry_from_scancode
                 (appletb_kbd_keymap (H := linux_input_event_codes)))
              (t1_kbd APPLETB_KBD_MODE_SPCL) (mk_hid_usage 0x0007003b 1 60) 1
              linux_function_keys_in_rows (λ code, eq_refl))
    as (_ & Hspcl & _).
  destruct Hspcl as (entry & Hentry & Hrun).
  - split; [reflexivity|]. split; [reflexivity|]. vm_compute. discriminate.
  - reflexivity.
  - rewrite Hrun. vm_compute in Hentry. by injection Hentry as <-.
Defined.

(** A T1 Touch Bar whose first control message goes through: the mode
    is set, and the power hints are paired. *)
Lemma appletb_kbd_set_mode_outcome_witness :
  let r :=
    appletb_kbd_set_mode (H := linux_hid_usb_constants) (stalls 0)
      (t1_kbd APPLETB_KBD_MODE_OFF) APPLETB_KBD_MODE_SPCL in
  r.1.1 = 0
  ∧ current_mode r.1.2 = APPLETB_KBD_MODE_SPCL
  ∧ power_hints_open (H := linux_hid_usb_constants) r.2 = 0.
Proof.
  destruct (appletb_kbd_set_mode_outcome (H := linux_hid_usb_constants)
              (stalls 0) (t1_kbd APPLETB_KBD_MODE_OFF) APPLETB_KBD_MODE_SPCL
              linux_power_hints_differ)
    as (Hok & _ & _ & _ & _ & Hpower & _).
  split; [reflexivity|].
  destruct Hok as (_ & Hmode & _); [reflexivity|].
  split; [exact Hmode|exact Hpower].
Defined.

(** A T1 Touch Bar that stalls twice: three control messages, sleeps of
    1 to 3 ms and of 2 to 6 ms between them, and success. *)
Lemma appletb_kbd_set_mode_retries_witness :
  let r :=
    appletb_kbd_set_mode (H := linux_hid_usb_constants) (stalls 2)
      (t1_kbd APPLETB_KBD_MODE_OFF) APPLETB_KBD_MODE_SPCL in
  length (control_messages r.2) = 3%nat
  ∧ sleeps r.2 = [(1000, 3000); (2000, 6000)]
  ∧ r.1.1 = 0.
Proof.
  destruct (appletb_kbd_set_mode_retries (H := linux_hid_usb_constants)
              (stalls 2) (t1_kbd APPLETB_KBD_MODE_OFF) APPLETB_KBD_MODE_SPCL)
    as (_ & Hmsgs & Hsleeps & Hret & _).
  - discriminate.
  - discriminate.
  - reflexivity.
  - reflexivity.
  - split; [by rewrite Hmsgs|]. split; [by rewrite Hsleeps|].
    rewrite Hret; [reflexivity|]. vm_compute. lia.
Defined.

(** A T2 Touch Bar in the special-keys mode: suspend switches it off
    with one report and remembers the mode, and the resume sets the mode
    again. *)
Lemma appletb_kbd_suspend_reset_resume_witness :
  let kbd := mk_appletb_kbd 0 1 0 0 0 APPLETB_KBD_MODE_SPCL in
  let s :=
    appletb_kbd_suspend (H := linux_hid_usb_constants) (stalls 0) kbd in
  let r :=
    appletb_kbd_reset_resume (H := linux_hid_usb_constants) (stalls 0)
      s.1.2 in
  current_mode s.1.2 = APPLETB_KBD_MODE_OFF
  ∧ mode_field_value s.1.2 = APPLETB_KBD_MODE_OFF
  ∧ saved_mode s.1.2 = APPLETB_KBD_MODE_SPCL
  ∧ current_mode r.1.2 = APPLETB_KBD_MODE_SPCL.
Proof.
  destruct (appletb_kbd_suspend_reset_resume (H := linux_hid_usb_constants)
              (stalls 0) (stalls 0)
              (mk_appletb_kbd 0 1 0 0 0 APPLETB_KBD_MODE_SPCL)
              linux_power_hints_differ)
    as (_ & _ & Hsaved & _ & Hoff & _ & _ & _ & _ & _ & Hresume & _).
  destruct Hoff as (Hcur & Hvalue & _); [reflexivity|reflexivity|].
  split; [exact Hcur|]. split; [exact Hvalue|]. split; [exact Hsaved|].
  apply Hresume; [discriminate|reflexivity|reflexivity].
Defined.

(** A T1 Touch Bar on USB with the mode field in output report 0: the
    probe starts and opens the device and switches the Touch Bar off;
    after the remove the device is closed and stopped. *)
Lemma appletb_kbd_probe_remove_witness :
  let host :=
    mk_probe_host APPLETB_KBD_QUIRK_IS_T1 true 0 (Some (0, 1, 0)) true 0 0
                  (stalls 0) in
  let p := appletb_kbd_probe (H := linux_hid_usb_constants) host in
  ∃ kbd,
    p = (0, Some kbd, p.2)
    ∧ current_mode kbd = APPLETB_KBD_MODE_OFF
    ∧ RealDevice.started_after (device_calls p.2) = true
    ∧ RealDevice.started_after
        (device_calls
           (p.2 ++ (appletb_kbd_remove (H := linux_hid_usb_constants)
                      (stalls 1) kbd).2)) = false
    ∧ RealDevice.opens_after
        (device_calls
           (p.2 ++ (appletb_kbd_remove (H := linux_hid_usb_constants)
                      (stalls 1) kbd).2)) = 0.
Proof.
  destruct (appletb_kbd_probe_remove (H := linux_hid_usb_constants)
              (mk_probe_host APPLETB_KBD_QUIRK_IS_T1 true 0
                             (Some (0, 1, 0)) true 0 0 (stalls 0))
              (stalls 1) linux_power_hints_differ)
    as (_ & _ & _ & _ & _ & Hbound).
  eexists. split; [reflexivity|].
  edestruct Hbound as (Hstarted & _ & Hmode & _ & Hstopped & Hclosed & _);
    [reflexivity|].
  split; [exact Hmode|]. split; [exact Hstarted|].
  split; [exact Hstopped|exact Hclosed].
Defined.

End more_samples_appletb_kbd.

(** * Every point of an attach *)

Section attach_points_scanned.
Import HidCore Scanner AttachPoints.
Context `{hid_host} {ret state : Type}.
Variable turn : nat → nat → Z → nat → state → (ret + nat) * state.
Variable run : list (nat * nat * Z) → nat → state → (ret + nat) * state.
Variable rdesc : list Z.
Variable st0 : state.
Local Abbreviation e := (length rdesc).

(** [run] takes the turns over scanner calls already made. *)
Hypothesis run_nil : ∀ i st, run [] i st = (inr i, st).
Hypothesis run_cons :
  ∀ start pos usage segs i st,
    run ((start, pos, usage) :: segs) i st
    = match turn start pos usage i st with
      | (inl r, st') => (inl r, st')
      | (inr i', st') => run segs i' st'
      end.







End attach_points_scanned.

Section appleib_attach_points.
Import HidCore Scanner Host HidAppleib RealDevice AttachPoints.
Context `{hid_host}.
Local Opaque NUM_SUB_HDEVS.




End appleib_attach_points.

Section ib_attach_points.
Import HidCore Scanner Host AppleIbridge RealDevice AttachPoints.
Context `{hid_host}.
Local Opaque NUM_SUB_HDEVS.






End ib_attach_points.

(** * Attaching a descriptor made of recognized collections *)

Section composed_registry.
Import Host.

(** The descriptors of devices registered for segments are the
    segments' bytes. *)
Lemma zip_handles_devices {A} (handles : list nat) (devs : list A) :
  length handles = length devs → (zip handles devs).*2 = devs.
Proof. intros Hlen. apply snd_zip. lia. Qed.

End composed_registry.

Section appleib_attach_composed.
Import HidCore Scanner Host HidAppleib Descriptor.
Context `{hid_host}.
Local Opaque NUM_SUB_HDEVS.

Lemma exposed_all n segs :
  Forall recognized segs → length segs ≤ n → exposed n segs = segs.
Proof.
  intros Hall Hlen. unfold exposed.
  assert (filter recognized segs = segs) as ->.
  { clear Hlen. induction Hall as [|seg segs Hseg _ IH]; [done|].
    by rewrite filter_cons_True, IH. }
  by apply take_ge.
Qed.

(** [hid-appleib.c] on a descriptor made of collections whose usages
    are all in its table, no more of them than slots: every collection
    becomes a virtual device carrying the collection's bytes, and
    nothing is warned about. *)
Lemma appleib_add_sub_devs_composed outcomes parent bus bounds usages :
  let rdesc := dev_rdesc parent in
  let segs := scan_segments rdesc in
  bounds ≠ [] →
  composed_from rdesc 0 bounds usages →
  Forall (λ usage, appleib_usage_in_list usage = true) usages →
  length bounds ≤ NUM_SUB_HDEVS →
  (∀ j, j < length bounds → outcome_ok (outcomes j) = true) →
  ∃ st' created,
    appleib_add_sub_devs outcomes (probe_start parent bus) = (0%Z, st')
    ∧ bus_registered (st_bus st') = bus_registered bus ++ created
    ∧ length created = length bounds
    ∧ created.*2 = sub_device parent rdesc <$> segs
    ∧ (dev_rdesc <$> created.*2)
      = (λ seg, slice rdesc seg.1.1 seg.1.2) <$> segs
    ∧ concat (dev_rdesc <$> created.*2) = rdesc
    ∧ st_log st' = [].
Proof.
  intros rdesc segs Hne Hcomp Hrec Hcap Hok.
  destruct (scan_segments_composed rdesc bounds usages Hne Hcomp Hrec Hcap)
    as (Hsegs & Hlen & Hconcat & Hexposed).
  fold segs in Hsegs, Hlen, Hconcat, Hexposed.
  destruct (appleib_add_sub_devs_ok outcomes parent bus)
    as (st' & Hrun & _ & _ & _ & Hreg & _ & Hlog).
  { fold rdesc segs. rewrite Hexposed, Hlen. exact Hok. }
  fold rdesc segs in Hreg, Hlog. rewrite Hexposed in Hreg.
  pose proof (expected_log_length 0 segs) as Hcount.
  rewrite Nat.sub_0_r, Hexposed in Hcount.
  assert ((zip (seq (bus_next bus) (length segs))
               (sub_device parent rdesc <$> segs)).*2
          = sub_device parent rdesc <$> segs) as Hdevs.
  { apply zip_handles_devices. by rewrite length_seq, length_fmap. }
  assert (dev_rdesc <$> (sub_device parent rdesc <$> segs)
          = (λ seg, slice rdesc seg.1.1 seg.1.2) <$> segs) as Hbytes.
  { rewrite <- list_fmap_compose. by apply list_fmap_ext. }
  eexists st', _. split; [exact Hrun|]. split; [exact Hreg|].
  split; [by rewrite length_zip, length_seq, length_fmap, Nat.min_id|].
  split; [exact Hdevs|].
  rewrite Hdevs, Hbytes.
  split; [done|]. split; [done|].
  rewrite Hlog. apply nil_length_inv. lia.
Qed.

End appleib_attach_composed.

Section ib_attach_composed.
Import HidCore Scanner Host AppleIbridge Descriptor.
Context `{hid_host}.
Local Opaque NUM_SUB_HDEVS.

Lemma ib_exposed_all n segs :
  Forall recognized segs → length segs ≤ n → exposed n segs = segs.
Proof.
  intros Hall Hlen. unfold exposed.
  assert (filter recognized segs = segs) as ->.
  { clear Hlen. induction Hall as [|seg segs Hseg _ IH]; [done|].
    by rewrite filter_cons_True, IH. }
  by apply take_ge.
Qed.

(** [apple-ibridge.c] on a descriptor made of collections whose usages
    are all in its usage map, no more of them than slots: every
    collection becomes a virtual device carrying the collection's bytes,
    and nothing is warned about. *)
Lemma ib_add_device_composed outcomes parent bus bounds usages :
  let rdesc := dev_rdesc parent in
  let segs := scan_segments rdesc in
  bounds ≠ [] →
  composed_from rdesc 0 bounds usages →
  Forall (λ usage, is_Some (appleib_find_dev_id_for_usage usage)) usages →
  length bounds ≤ NUM_SUB_HDEVS →
  (∀ j, j < length bounds → outcome_ok (outcomes j) = true) →
  ∃ st' created,
    appleib_add_device outcomes true parent bus = (ret_hdev_info, st')
    ∧ bus_registered (st_bus st') = bus_registered bus ++ created
    ∧ length created = length bounds
    ∧ created.*2 = sub_device rdesc <$> segs
    ∧ (dev_rdesc <$> created.*2)
      = (λ seg, slice rdesc seg.1.1 seg.1.2) <$> segs
    ∧ concat (dev_rdesc <$> created.*2) = rdesc
    ∧ st_log st' = [].
Proof.
  intros rdesc segs Hne Hcomp Hrec Hcap Hok.
  pose proof (composed_from_lengths rdesc _ _ _ Hcomp) as Hlens.
  assert (segs = segments_of 0 bounds usages) as Hsegs.
  { unfold segs, scan_segments. apply scan_loop_composed; [done|done|lia]. }
  assert (length segs = length bounds) as Hlen
    by (rewrite Hsegs; by apply length_segments_of).
  assert (concat ((λ seg, slice rdesc seg.1.1 seg.1.2) <$> segs) = rdesc)
    as Hconcat
    by (rewrite Hsegs; by rewrite (concat_slices_composed _ _ _ _ Hcomp)).
  assert (exposed NUM_SUB_HDEVS segs = segs) as Hexposed.
  { apply ib_exposed_all; [|lia].
    apply Forall_forall. intros seg Hseg. unfold recognized.
    rewrite Forall_forall in Hrec. apply Hrec.
    rewrite <- (segments_of_usages 0 bounds usages Hlens), <- Hsegs.
    by apply (list_elem_of_fmap_2 (λ seg : nat * nat * Z, seg.2)). }
  destruct (ib_add_device_ok outcomes parent bus)
    as (st' & Hrun & _ & _ & _ & Hreg & _ & Hlog).
  { fold rdesc segs. rewrite Hexposed, Hlen. exact Hok. }
  fold rdesc segs in Hreg, Hlog. rewrite Hexposed in Hreg.
  pose proof (ib_expected_log_length 0 segs) as Hcount.
  rewrite Nat.sub_0_r, Hexposed in Hcount.
  assert ((zip (seq (bus_next bus) (length segs))
               (sub_device rdesc <$> segs)).*2
          = sub_device rdesc <$> segs) as Hdevs.
  { apply zip_handles_devices. by rewrite length_seq, length_fmap. }
  assert (dev_rdesc <$> (sub_device rdesc <$> segs)
          = (λ seg, slice rdesc seg.1.1 seg.1.2) <$> segs) as Hbytes.
  { rewrite <- list_fmap_compose. by apply list_fmap_ext. }
  eexists st', _. split; [exact Hrun|]. split; [exact Hreg|].
  split; [by rewrite length_zip, length_seq, length_fmap, Nat.min_id|].
  split; [exact Hdevs|].
  rewrite Hdevs, Hbytes.
  split; [done|]. split; [done|].
  rewrite Hlog. apply nil_length_inv. lia.
Qed.

End ib_attach_composed.

Section attach_composed.
Import HidCore Scanner Host Descriptor.
Context `{hid_host}.

(** C2.  For a descriptor made of N >= 1 well-formed top-level
    collections laid end to end, the scanner, called from offset 0 and
    then from where each call stopped, is called exactly N times and
    delimits exactly the N collections, and the segments it delimits,
    concatenated, are the descriptor.  When moreover the usages are all
    recognized by a generation and N is at most the size of its
    sub-device array, its attach loop, the host accepting the devices,
    makes exactly N virtual devices, the k-th carrying the bytes of the
    k-th collection, so that the descriptors of the devices put together
    are the descriptor that was split; it prints no warning.  This holds
    for [appleib_add_sub_devs] of [hid-appleib.c] with its table of
    usages, and for [appleib_add_device] of [apple-ibridge.c] with its
    usage map. *)
Theorem attach_splits_composed_descriptor parent bounds usages :
  let rdesc := dev_rdesc parent in
  let segs := scan_segments rdesc in
  let bytes := (λ seg : nat * nat * Z, slice rdesc seg.1.1 seg.1.2) in
  bounds ≠ [] →
  composed_from rdesc 0 bounds usages →
  (segs = segments_of 0 bounds usages
   ∧ length segs = length bounds
   ∧ concat (bytes <$> segs) = rdesc)
  ∧ (∀ outcomes bus,
       Forall (λ usage, HidAppleib.appleib_usage_in_list usage = true)
              usages →
       length bounds ≤ HidAppleib.NUM_SUB_HDEVS →
       (∀ j, j < length bounds → outcome_ok (outcomes j) = true) →
       ∃ st' created,
         HidAppleib.appleib_add_sub_devs outcomes
           (HidAppleib.probe_start parent bus) = (0%Z, st')
         ∧ bus_registered (HidAppleib.st_bus st')
           = bus_registered bus ++ created
         ∧ length created = length bounds
         ∧ created.*2 = HidAppleib.sub_device parent rdesc <$> segs
         ∧ (dev_rdesc <$> created.*2) = bytes <$> segs
         ∧ concat (dev_rdesc <$> created.*2) = rdesc
         ∧ HidAppleib.st_log st' = [])
  ∧ (∀ outcomes bus,
       Forall (λ usage,
                 is_Some (AppleIbridge.appleib_find_dev_id_for_usage usage))
              usages →
       length bounds ≤ AppleIbridge.NUM_SUB_HDEVS →
       (∀ j, j < length bounds → outcome_ok (outcomes j) = true) →
       ∃ st' created,
         AppleIbridge.appleib_add_device outcomes true parent bus
         = (AppleIbridge.ret_hdev_info, st')
         ∧ bus_registered (AppleIbridge.st_bus st')
           = bus_registered bus ++ created
         ∧ length created = length bounds
         ∧ created.*2 = AppleIbridge.sub_device rdesc <$> segs
         ∧ (dev_rdesc <$> created.*2) = bytes <$> segs
         ∧ concat (dev_rdesc <$> created.*2) = rdesc
         ∧ AppleIbridge.st_log st' = []).
Proof.
  intros rdesc segs bytes Hne Hcomp.
  pose proof (composed_from_lengths rdesc _ _ _ Hcomp) as Hlens.
  assert (segs = segments_of 0 bounds usages) as Hsegs.
  { unfold segs, scan_segments. apply scan_loop_composed; [done|done|lia]. }
  split.
  { split; [done|].
    split; [rewrite Hsegs; by apply length_segments_of|].
    rewrite Hsegs. unfold bytes.
    by rewrite (concat_slices_composed _ _ _ _ Hcomp). }
  split.
  - intros outcomes bus Hrec Hcap Hok.
    by apply (appleib_add_sub_devs_composed outcomes parent bus bounds usages).
  - intros outcomes bus Hrec Hcap Hok.
    by apply (ib_add_device_composed outcomes parent bus bounds usages).
Qed.

End attach_composed.

(** * The proxy in both generations *)

Section both_generations.
Import HidCore Scanner Host.
Context `{hid_host}.

(** C4.  A raw report delivered on the real device is handed on with
    its type, bytes and size unchanged, and the virtual device in slot
    [i] gets exactly one copy when the open flag of slot [i] is set at
    that moment and none when it is clear.  This holds for
    [appleib_hid_raw_event] of [hid-appleib.c], which walks the set bits
    of the [sub_open] bitmap, and for [appleib_hid_raw_event] of
    [apple-ibridge.c], which reads an array of [bool]. *)
Theorem raw_event_fan_out_generations :
  (∀ info report_type data size h i,
     i < HidAppleib.NUM_SUB_HDEVS →
     HidAppleib.sub_hdevs info !!! i = Dev h →
     (∀ j, j < HidAppleib.NUM_SUB_HDEVS → j ≠ i →
           HidAppleib.sub_hdevs info !!! j ≠ Dev h) →
     let calls :=
       (HidAppleib.appleib_hid_raw_event info report_type data size).1 in
     copies_to (Dev h) calls
     = (if Z.testbit (HidAppleib.sub_open info) (Z.of_nat i) then 1 else 0)
     ∧ (∀ c, c ∈ calls →
             rep_type c = report_type ∧ rep_data c = data
             ∧ rep_size c = size)
     ∧ (HidAppleib.appleib_hid_raw_event info report_type data size).2
       = 0%Z)
  ∧ (∀ info report_type data size h i,
       i < AppleIbridge.NUM_SUB_HDEVS →
       AppleIbridge.sub_hdevs info !!! i = Dev h →
       (∀ j, j < AppleIbridge.NUM_SUB_HDEVS → j ≠ i →
             AppleIbridge.sub_hdevs info !!! j ≠ Dev h) →
       let calls :=
         (AppleIbridge.appleib_hid_raw_event info report_type data size).1 in
       copies_to (Dev h) calls
       = (if (AppleIbridge.sub_open info !!! i : bool) then 1 else 0)
       ∧ (∀ c, c ∈ calls →
               rep_type c = report_type ∧ rep_data c = data
               ∧ rep_size c = size)
       ∧ (AppleIbridge.appleib_hid_raw_event info report_type data size).2
         = 0%Z).
Proof.
  split.
  - intros info report_type data size h i Hi Hslot Hother.
    by apply appleib_hid_raw_event_fan_out.
  - intros info report_type data size h i Hi Hslot Hother.
    by apply ib_hid_raw_event_fan_out.
Qed.

(** C6.  An open call for a device that no slot of the table holds is
    not rejected: it returns 0 and sets the open flag of the first empty
    slot, the slot the device being registered is about to take, leaving
    every other flag as it was.  A close call for a device the table
    holds, the slots in front of it holding other devices, returns 0 and
    clears the flag of the device's own slot and no other.  This holds
    for [appleib_set_open] of [hid-appleib.c], whose flags are the bits
    of a bitmap set with [set_bit] and [clear_bit], and for
    [appleib_set_open] of [apple-ibridge.c], whose flags are an array of
    [bool] as long as the table. *)
Theorem set_open_tracks_registration_generations :
  ((∀ info vdev i,
      i < HidAppleib.NUM_SUB_HDEVS →
      HidAppleib.sub_hdevs info !!! i = NULL →
      (∀ j, j < i → HidAppleib.sub_hdevs info !!! j ≠ NULL) →
      (∀ j, j < HidAppleib.NUM_SUB_HDEVS →
            HidAppleib.sub_hdevs info !!! j ≠ Dev vdev) →
      ∃ info',
        HidAppleib.appleib_ll_open info vdev = (info', 0%Z)
        ∧ HidAppleib.hdev info' = HidAppleib.hdev info
        ∧ HidAppleib.sub_hdevs info' = HidAppleib.sub_hdevs info
        ∧ Z.testbit (HidAppleib.sub_open info') (Z.of_nat i) = true
        ∧ ∀ k, k ≠ i →
               Z.testbit (HidAppleib.sub_open info') (Z.of_nat k)
               = Z.testbit (HidAppleib.sub_open info) (Z.of_nat k))
   ∧ (∀ info vdev i,
        i < HidAppleib.NUM_SUB_HDEVS →
        HidAppleib.sub_hdevs info !!! i = Dev vdev →
        (∀ j, j < i →
              HidAppleib.sub_hdevs info !!! j ≠ NULL
              ∧ HidAppleib.sub_hdevs info !!! j ≠ Dev vdev) →
        ∃ info',
          HidAppleib.appleib_set_open info vdev false = (info', 0%Z)
          ∧ HidAppleib.appleib_ll_close info vdev = info'
          ∧ HidAppleib.hdev info' = HidAppleib.hdev info
          ∧ HidAppleib.sub_hdevs info' = HidAppleib.sub_hdevs info
          ∧ Z.testbit (HidAppleib.sub_open info') (Z.of_nat i) = false
          ∧ ∀ k, k ≠ i →
                 Z.testbit (HidAppleib.sub_open info') (Z.of_nat k)
                 = Z.testbit (HidAppleib.sub_open info) (Z.of_nat k)))
  ∧ ((∀ info vdev i,
        length (AppleIbridge.sub_open info) = AppleIbridge.NUM_SUB_HDEVS →
        i < AppleIbridge.NUM_SUB_HDEVS →
        AppleIbridge.sub_hdevs info !!! i = NULL →
        (∀ j, j < i → AppleIbridge.sub_hdevs info !!! j ≠ NULL) →
        (∀ j, j < AppleIbridge.NUM_SUB_HDEVS →
              AppleIbridge.sub_hdevs info !!! j ≠ Dev vdev) →
        ∃ info',
          AppleIbridge.appleib_ll_open info vdev = (info', 0%Z)
          ∧ AppleIbridge.hdev info' = AppleIbridge.hdev info
          ∧ AppleIbridge.sub_hdevs info' = AppleIbridge.sub_hdevs info
          ∧ AppleIbridge.sub_open info' !!! i = true
          ∧ ∀ k, k ≠ i →
                 AppleIbridge.sub_open info' !!! k
                 = AppleIbridge.sub_open info !!! k)
     ∧ (∀ info vdev i,
          length (AppleIbridge.sub_open info) = AppleIbridge.NUM_SUB_HDEVS →
          i < AppleIbridge.NUM_SUB_HDEVS →
          AppleIbridge.sub_hdevs info !!! i = Dev vdev →
          (∀ j, j < i →
                AppleIbridge.sub_hdevs info !!! j ≠ NULL
                ∧ AppleIbridge.sub_hdevs info !!! j ≠ Dev vdev) →
          ∃ info',
            AppleIbridge.appleib_set_open info vdev false = (info', 0%Z)
            ∧ AppleIbridge.appleib_ll_close info vdev = info'
            ∧ AppleIbridge.hdev info' = AppleIbridge.hdev info
            ∧ AppleIbridge.sub_hdevs info' = AppleIbridge.sub_hdevs info
            ∧ AppleIbridge.sub_open info' !!! i = false
            ∧ ∀ k, k ≠ i →
                   AppleIbridge.sub_open info' !!! k
                   = AppleIbridge.sub_open info !!! k)).
Proof.
  split.
  - exact appleib_set_open_tracks_registration.
  - exact ib_set_open_tracks_registration.
Qed.

(** C7.  As long as the host accepts the virtual devices, the attach
    does not fail whatever the descriptor holds: it registers a virtual
    device for each of the first [ARRAY_SIZE(sub_hdevs)] recognized
    segments in scan order and for nothing else, warns "Unknown
    collection" for every segment whose usage is not recognized and "Too
    many collections" for every recognized segment after the first
    [ARRAY_SIZE(sub_hdevs)], and so accounts for every segment by a
    device or by a warning.  This holds for [appleib_add_sub_devs] of
    [hid-appleib.c], which returns 0 and looks usages up in its table,
    and for [appleib_add_device] of [apple-ibridge.c], which returns its
    structure and looks usages up in its usage map. *)
Theorem attach_skips_anomalies_generations outcomes parent bus :
  let rdesc := dev_rdesc parent in
  let segs := scan_segments rdesc in
  (let new := HidAppleib.exposed HidAppleib.NUM_SUB_HDEVS segs in
   (∀ j, j < length new → outcome_ok (outcomes j) = true) →
   ∃ st',
     HidAppleib.appleib_add_sub_devs outcomes
       (HidAppleib.probe_start parent bus) = (0%Z, st')
     ∧ bus_registered (HidAppleib.st_bus st')
       = bus_registered bus
         ++ zip (seq (bus_next bus) (length new))
                (HidAppleib.sub_device parent rdesc <$> new)
     ∧ length new ≤ HidAppleib.NUM_SUB_HDEVS
     ∧ HidAppleib.st_log st' = HidAppleib.expected_log 0 segs
     ∧ (∀ seg, seg ∈ segs → ¬ HidAppleib.recognized seg →
               Unknown_collection seg.2 ∈ HidAppleib.st_log st')
     ∧ (∀ k seg, filter HidAppleib.recognized segs !! k = Some seg →
                 HidAppleib.NUM_SUB_HDEVS ≤ k →
                 Too_many_collections seg.2 ∈ HidAppleib.st_log st')
     ∧ length (HidAppleib.st_log st') + length new = length segs)
  ∧ (let new := AppleIbridge.exposed AppleIbridge.NUM_SUB_HDEVS segs in
     (∀ j, j < length new → outcome_ok (outcomes j) = true) →
     ∃ st',
       AppleIbridge.appleib_add_device outcomes true parent bus
       = (AppleIbridge.ret_hdev_info, st')
       ∧ bus_registered (AppleIbridge.st_bus st')
         = bus_registered bus
           ++ zip (seq (bus_next bus) (length new))
                  (AppleIbridge.sub_device rdesc <$> new)
       ∧ length new ≤ AppleIbridge.NUM_SUB_HDEVS
       ∧ AppleIbridge.st_log st' = AppleIbridge.expected_log 0 segs
       ∧ (∀ seg, seg ∈ segs → ¬ AppleIbridge.recognized seg →
                 Unknown_collection seg.2 ∈ AppleIbridge.st_log st')
       ∧ (∀ k seg, filter AppleIbridge.recognized segs !! k = Some seg →
                   AppleIbridge.NUM_SUB_HDEVS ≤ k →
                   Too_many_collections seg.2 ∈ AppleIbridge.st_log st')
       ∧ length (AppleIbridge.st_log st') + length new = length segs).
Proof.
  intros rdesc segs. split.
  - intros new Hok.
    by apply (appleib_add_sub_devs_skips_anomalies outcomes parent bus).
  - intros new Hok.
    by apply (ib_add_device_skips_anomalies outcomes parent bus).
Qed.


End both_generations.

(** * Both generations at sample inputs *)

Section generations_samples.
Import HidCore Scanner Host Descriptor Samples.

(** The sample descriptor of two collections at the theorem of C2: two
    scanner calls, and in either generation two virtual devices whose
    descriptors put together are the sample descriptor. *)
Lemma attach_splits_composed_descriptor_witness :
  composed_from (H := example_host) example_rdesc 0 [13; 20]
                [0xFF120001; 0x00200041]%Z
  ∧ scan_segments (H := example_host) example_rdesc
    = [(0, 13, 0xFF120001%Z); (13, 20, 0x00200041%Z)]
  ∧ (∃ st' created,
       HidAppleib.appleib_add_sub_devs (H := example_host) accepts_all
         (HidAppleib.probe_start (ibridge_hdev example_rdesc) empty_bus)
       = (0%Z, st')
       ∧ bus_registered (HidAppleib.st_bus st') = created
       ∧ length created = 2
       ∧ concat (dev_rdesc <$> created.*2) = example_rdesc)
  ∧ (∃ st' created,
       AppleIbridge.appleib_add_device (H := example_host) accepts_all true
         (ibridge_hdev example_rdesc) empty_bus
       = (AppleIbridge.ret_hdev_info, st')
       ∧ bus_registered (AppleIbridge.st_bus st') = created
       ∧ length created = 2
       ∧ concat (dev_rdesc <$> created.*2) = example_rdesc).
Proof.
  assert (composed_from (H := example_host) example_rdesc 0 [13; 20]
                        [0xFF120001; 0x00200041]%Z) as Hcomp.
  { split; [apply example_rdesc_first_collection|].
    split; [apply example_rdesc_second_collection|reflexivity]. }
  split; [exact Hcomp|].
  destruct (attach_splits_composed_descriptor (H := example_host)
              (ibridge_hdev example_rdesc)
              [13; 20] [0xFF120001; 0x00200041]%Z)
    as ((Hsegs & _) & Hhid & Hib).
  { discriminate. }
  { exact Hcomp. }
  split; [exact Hsegs|].
  split.
  - destruct (Hhid accepts_all empty_bus)
      as (st' & created & Hrun & Hreg & Hlen & _ & _ & Hconcat & _).
    + repeat constructor.
    + vm_compute. lia.
    + intros j Hj. reflexivity.
    + exists st', created. split; [exact Hrun|].
      split; [exact Hreg|]. split; [exact Hlen|exact Hconcat].
  - destruct (Hib accepts_all empty_bus)
      as (st' & created & Hrun & Hreg & Hlen & _ & _ & Hconcat & _).
    + repeat (constructor; [by eexists|]). constructor.
    + vm_compute. lia.
    + intros j Hj. reflexivity.
    + exists st', created. split; [exact Hrun|].
      split; [exact Hreg|]. split; [exact Hlen|exact Hconcat].
Defined.

(** Slot 0 open, slot 1 closed, in either generation: the device of
    slot 0 gets the report once and the device of slot 1 does not get
    it. *)
Lemma raw_event_fan_out_generations_witness :
  (copies_to (Dev 1)
     (HidAppleib.appleib_hid_raw_event
        (HidAppleib.mk_info (ibridge_hdev []) [Dev 1; Dev 2] 1)
        1 [0x02; 0x10; 0x20]%Z 3).1 = 1
   ∧ copies_to (Dev 2)
       (HidAppleib.appleib_hid_raw_event
          (HidAppleib.mk_info (ibridge_hdev []) [Dev 1; Dev 2] 1)
          1 [0x02; 0x10; 0x20]%Z 3).1 = 0)
  ∧ (copies_to (Dev 1)
       (AppleIbridge.appleib_hid_raw_event
          (AppleIbridge.mk_info (ibridge_hdev []) [Dev 1; Dev 2]
                                [true; false])
          1 [0x02; 0x10; 0x20]%Z 3).1 = 1
     ∧ copies_to (Dev 2)
         (AppleIbridge.appleib_hid_raw_event
            (AppleIbridge.mk_info (ibridge_hdev []) [Dev 1; Dev 2]
                                  [true; false])
            1 [0x02; 0x10; 0x20]%Z 3).1 = 0).
Proof.
  destruct raw_event_fan_out_generations as [Hhid Hib].
  split; split.
  - apply (Hhid (HidAppleib.mk_info (ibridge_hdev []) [Dev 1; Dev 2] 1)
                1%Z [0x02; 0x10; 0x20]%Z 3%Z 1 0).
    + vm_compute. lia.
    + reflexivity.
    + intros [|[|j]] Hj Hne; [done|discriminate|vm_compute in Hj; lia].
  - apply (Hhid (HidAppleib.mk_info (ibridge_hdev []) [Dev 1; Dev 2] 1)
                1%Z [0x02; 0x10; 0x20]%Z 3%Z 2 1).
    + vm_compute. lia.
    + reflexivity.
    + intros [|[|j]] Hj Hne; [discriminate|done|vm_compute in Hj; lia].
  - apply (Hib (AppleIbridge.mk_info (ibridge_hdev []) [Dev 1; Dev 2]
                                     [true; false])
               1%Z [0x02; 0x10; 0x20]%Z 3%Z 1 0).
    + vm_compute. lia.
    + reflexivity.
    + intros [|[|j]] Hj Hne; [done|discriminate|vm_compute in Hj; lia].
  - apply (Hib (AppleIbridge.mk_info (ibridge_hdev []) [Dev 1; Dev 2]
                                     [true; false])
               1%Z [0x02; 0x10; 0x20]%Z 3%Z 2 1).
    + vm_compute. lia.
    + reflexivity.
    + intros [|[|j]] Hj Hne; [discriminate|done|vm_compute in Hj; lia].
Defined.

(** The first device registered and the second being registered, in
    either generation: the open call of the second sets the flag of slot
    1; a close call of the first clears the flag of slot 0 and leaves
    that of slot 1. *)
Lemma set_open_tracks_registration_generations_witness :
  ((∃ info',
      HidAppleib.appleib_ll_open
        (HidAppleib.mk_info (ibridge_hdev []) [Dev 1; NULL] 1) 2
      = (info', 0%Z)
      ∧ Z.testbit (HidAppleib.sub_open info') 1 = true)
   ∧ (∃ info',
        HidAppleib.appleib_ll_close
          (HidAppleib.mk_info (ibridge_hdev []) [Dev 1; Dev 2] 3) 1
        = info'
        ∧ Z.testbit (HidAppleib.sub_open info') 0 = false
        ∧ Z.testbit (HidAppleib.sub_open info') 1 = true))
  ∧ ((∃ info',
        AppleIbridge.appleib_ll_open
          (AppleIbridge.mk_info (ibridge_hdev []) [Dev 1; NULL]
                                [true; false]) 2
        = (info', 0%Z)
        ∧ AppleIbridge.sub_open info' !!! 1 = true)
     ∧ (∃ info',
          AppleIbridge.appleib_ll_close
            (AppleIbridge.mk_info (ibridge_hdev []) [Dev 1; Dev 2]
                                  [true; true]) 1
          = info'
          ∧ AppleIbridge.sub_open info' !!! 0 = false
          ∧ AppleIbridge.sub_open info' !!! 1 = true)).
Proof.
  destruct set_open_tracks_registration_generations
    as [[Hopen Hclose] [Hib_open Hib_close]].
  split; split.
  - destruct (Hopen (HidAppleib.mk_info (ibridge_hdev []) [Dev 1; NULL] 1)
                    2 1)
      as (info' & Hret & _ & _ & Hbit & _).
    + vm_compute. lia.
    + reflexivity.
    + intros [|j] Hj; [discriminate|lia].
    + intros [|[|j]] Hj; [discriminate|discriminate|vm_compute in Hj; lia].
    + exists info'. split; [exact Hret|exact Hbit].
  - destruct (Hclose (HidAppleib.mk_info (ibridge_hdev []) [Dev 1; Dev 2] 3)
                     1 0)
      as (info' & _ & Hret & _ & _ & Hbit & Hother).
    + vm_compute. lia.
    + reflexivity.
    + intros j Hj. lia.
    + exists info'. split; [exact Hret|]. split; [exact Hbit|].
      change (Z.testbit (HidAppleib.sub_open info') (Z.of_nat 1) = true).
      rewrite Hother by lia. reflexivity.
  - destruct (Hib_open (AppleIbridge.mk_info (ibridge_hdev []) [Dev 1; NULL]
                                             [true; false]) 2 1)
      as (info' & Hret & _ & _ & Hbit & _).
    + reflexivity.
    + vm_compute. lia.
    + reflexivity.
    + intros [|j] Hj; [discriminate|lia].
    + intros [|[|j]] Hj; [discriminate|discriminate|vm_compute in Hj; lia].
    + exists info'. split; [exact Hret|exact Hbit].
  - destruct (Hib_close (AppleIbridge.mk_info (ibridge_hdev [])
                                              [Dev 1; Dev 2] [true; true])
                        1 0)
      as (info' & _ & Hret & _ & _ & Hbit & Hother).
    + reflexivity.
    + vm_compute. lia.
    + reflexivity.
    + intros j Hj. lia.
    + exists info'. split; [exact Hret|]. split; [exact Hbit|].
      rewrite Hother by lia. reflexivity.
Defined.

(** The descriptor with a mouse in front and the light sensor twice, in
    either generation: the attach makes the first two recognized
    collections into devices 1 and 2 and prints the two warnings. *)
Lemma attach_skips_anomalies_generations_witness :
  (∃ st',
     HidAppleib.appleib_add_sub_devs (H := example_host) accepts_all
       (HidAppleib.probe_start (ibridge_hdev anomalous_rdesc) empty_bus)
     = (0%Z, st')
     ∧ (bus_registered (HidAppleib.st_bus st')).*1 = [1; 2]
     ∧ (dev_name_args <$> (bus_registered (HidAppleib.st_bus st')).*2)
       = [[0x00200041%Z]; [0xFF120001%Z]]
     ∧ HidAppleib.st_log st' = [Unknown_collection 0x00010002;
                                Too_many_collections 0x00200041])
  ∧ (∃ st',
       AppleIbridge.appleib_add_device (H := example_host) accepts_all true
         (ibridge_hdev anomalous_rdesc) empty_bus
       = (AppleIbridge.ret_hdev_info, st')
       ∧ (bus_registered (AppleIbridge.st_bus st')).*1 = [1; 2]
       ∧ AppleIbridge.st_log st' = [Unknown_collection 0x00010002;
                                    Too_many_collections 0x00200041]).
Proof.
  destruct (attach_skips_anomalies_generations (H := example_host)
              accepts_all (ibridge_hdev anomalous_rdesc) empty_bus)
    as [Hhid Hib].
  split.
  - destruct Hhid as (st' & Hrun & Hreg & _ & Hlog & _).
    + intros j Hj. reflexivity.
    + exists st'. split; [exact Hrun|].
      rewrite Hreg, Hlog. vm_compute. repeat split.
  - destruct Hib as (st' & Hrun & Hreg & _ & Hlog & _).
    + intros j Hj. reflexivity.
    + exists st'. split; [exact Hrun|].
      rewrite Hreg, Hlog. vm_compute. repeat split.
Defined.


End generations_samples.
